(** * drawio-export: codec, extractors, linker and table flattener

    A shallow embedding of the JavaScript sources
    [drawioEncoder], [drawioParsers], [drawioTransformers] and
    [drawioExporters], with the properties of the specification proved or
    refuted on it.

    Conventions.
    - A JavaScript string is the list of its UTF-16 code units ([jsstring]).
    - A call that may throw returns [option] ([None] = it threw) or a sum.
    - [null] and [undefined] attribute or field values are [None].
    - Objects used as maps ([containerCache], [questionsByNodeId], ...) are
      association lists in insertion order; a key that is [null] indexes the
      property ["null"], as in JavaScript. Keys are assumed not to be names
      of [Object.prototype] members.
    - Objects that are mutated through several references (tree nodes,
      assumptions, questions) live in explicit stores and are referred to by
      key or by index. *)

From Stdlib Require Import String Ascii DecimalString DecimalNat.
From Stdlib Require Import List Bool Arith NArith ZArith Lia Permutation Finite.
Import ListNotations.

Set Implicit Arguments.

(* ===================================================================== *)
(** ** JavaScript strings *)
(* ===================================================================== *)

Definition jsstring := list N.

(** A string literal, as its code units. *)
Definition js (s : string) : jsstring :=
  map N_of_ascii (list_ascii_of_string s).

Fixpoint str_eqb (a b : jsstring) : bool :=
  match a, b with
  | [], [] => true
  | x :: a', y :: b' => N.eqb x y && str_eqb a' b'
  | _, _ => false
  end.

(** Truthiness of a string: non-empty. *)
Definition truthy_str (s : jsstring) : bool :=
  match s with [] => false | _ => true end.

(** Truthiness of a possibly-null string. *)
Definition truthy (o : option jsstring) : bool :=
  match o with Some s => truthy_str s | None => false end.

(** [String(v)] for a string-or-null property key. *)
Definition prop_key (o : option jsstring) : jsstring :=
  match o with Some s => s | None => js "null" end.

(** Decimal rendering of a number in a template literal. *)
Definition decimal (n : nat) : jsstring :=
  js (NilEmpty.string_of_uint (Nat.to_uint n)).

(* ===================================================================== *)
(** ** Codec ([decodeDrawio], [encodeDrawio]) *)
(* ===================================================================== *)

Module Codec.

(** What [decodeDrawio] reads from a parsed document: the root element's
    name and the text content of its [diagram] descendants, in document
    order. *)
Record XmlElement := mkXmlElement {
  nodeName : jsstring;
  diagramTexts : list jsstring
}.

Record XmlDocument := mkXmlDocument {
  documentElement : option XmlElement
}.

(** The libraries the codec calls, where [None] is a thrown exception,
    and the limit of the engine on the arguments of one call. *)
Record Libs := mkLibs {
  parseXml : jsstring -> option XmlDocument;
  atob : jsstring -> option jsstring;
  btoa : jsstring -> option jsstring;
  inflateRaw : list Byte.byte -> option jsstring;   (* pako, to: 'string' *)
  deflateRaw : jsstring -> option (list Byte.byte); (* pako *)
  decodeURIComponent : jsstring -> option jsstring;
  encodeURIComponent : jsstring -> option jsstring;
  argumentsLimit : N  (* the most arguments the engine passes in a call *)
}.

(** [{ base64, deflate, urlEncode }]: a missing field defaults to [true]. *)
Record Options := mkOptions {
  base64 : option bool;
  deflate : option bool;
  urlEncode : option bool
}.

Definition noOptions : Options := mkOptions None None None.

Definition flag (o : option bool) : bool :=
  match o with Some b => b | None => true end.

(** The diagnostic passed to the logger before [null] is returned. *)
Inductive Diagnostic :=
| ParseXmlError
| AtobFailed
| InflateRawFailed
| DecodeURIComponentFailed
| EncodeURIComponentFailed
| DeflateRawFailed
| BtoaFailed.

(** The value returned: the data, or [null] after logging. *)
Inductive Outcome :=
| Returned (data : jsstring)
| Null (logged : Diagnostic).

(** [try { x = e } catch { logger.error(d); return null }] *)
Definition try_stage (e : option jsstring) (d : Diagnostic)
    (k : jsstring -> Outcome) : Outcome :=
  match e with
  | Some x => k x
  | None => Null d
  end.

Notation "'try' x '<-' e 'catch' d ';;' k" :=
  (try_stage e d (fun x => k))
  (at level 10, x name, e at level 9, d at level 0, k at level 200).

(** [Uint8Array.from(data, c => c.charCodeAt(0))] *)
Definition Uint8Array_from (data : jsstring) : list Byte.byte :=
  map (fun c => match Byte.of_N (c mod 256) with
                | Some b => b
                | None => Byte.x00
                end) data.

(** The string whose char codes are the given bytes. *)
Definition fromCharCode (bytes : list Byte.byte) : jsstring :=
  map Byte.to_N bytes.

(** [String.fromCharCode.apply(null, new Uint8Array(bytes))]: every byte
    is passed as one argument of the call, and the call throws a
    [RangeError] when there are more of them than the engine passes. *)
Definition fromCharCode_apply (limit : N) (bytes : list Byte.byte)
    : option jsstring :=
  if (N.of_nat (length bytes) <=? limit)%N then Some (fromCharCode bytes)
  else None.

Definition getTextContent (node : option jsstring) : jsstring :=
  match node with None => [] | Some t => t end.

Section WithLibs.

Variable L : Libs.

(** The first [try] block of [decodeDrawio]: unwrap an [mxfile] document. *)
Definition unwrapDocument (data : jsstring) : option jsstring :=
  match parseXml L data with
  | None => None
  | Some doc =>
      match documentElement doc with
      | Some node =>
          if str_eqb (nodeName node) (js "mxfile") then
            match diagramTexts node with
            | d0 :: _ => Some (getTextContent (Some d0))
            | [] => Some data
            end
          else Some data
      | None => Some data
      end
  end.

Definition decodeDrawio (data : jsstring) (options : option Options)
    : Outcome :=
  let o := match options with Some o => o | None => noOptions end in
  try data <- (unwrapDocument data) catch ParseXmlError ;;
  try data <- (if flag (base64 o) then atob L data else Some data)
      catch AtobFailed ;;
  try data <- (if flag (deflate o) && (0 <? length data)
               then inflateRaw L (Uint8Array_from data) else Some data)
      catch InflateRawFailed ;;
  try data <- (if flag (urlEncode o) then decodeURIComponent L data
               else Some data)
      catch DecodeURIComponentFailed ;;
  Returned data.

Definition encodeDrawio (data : jsstring) (options : option Options)
    : Outcome :=
  let o := match options with Some o => o | None => noOptions end in
  try data <- (if flag (urlEncode o) then encodeURIComponent L data
               else Some data)
      catch EncodeURIComponentFailed ;;
  try data <- (if flag (deflate o) && (0 <? length data)
               then match deflateRaw L data with
                    | Some bytes =>
                        fromCharCode_apply (argumentsLimit L) bytes
                    | None => None
                    end
               else Some data)
      catch DeflateRawFailed ;;
  try data <- (if flag (base64 o) then btoa L data else Some data)
      catch BtoaFailed ;;
  Returned data.

End WithLibs.

(** The same libraries with another inflater, or another deflater. *)
Definition withInflateRaw (f : list Byte.byte -> option jsstring)
    (L : Libs) : Libs :=
  mkLibs (parseXml L) (atob L) (btoa L) f (deflateRaw L)
         (decodeURIComponent L) (encodeURIComponent L) (argumentsLimit L).

Definition withDeflateRaw (f : jsstring -> option (list Byte.byte))
    (L : Libs) : Libs :=
  mkLibs (parseXml L) (atob L) (btoa L) (inflateRaw L) f
         (decodeURIComponent L) (encodeURIComponent L) (argumentsLimit L).

(** What the codec needs from its libraries; all of it holds of
    [encodeURIComponent]/[decodeURIComponent], pako and [btoa]/[atob]. *)
Record Lawful (L : Libs) : Prop := mkLawful {
  uri_inverse : forall x e,
    encodeURIComponent L x = Some e -> decodeURIComponent L e = Some x;
  deflate_total : forall x e,
    encodeURIComponent L x = Some e -> deflateRaw L e <> None;
  deflate_inverse : forall x e b,
    encodeURIComponent L x = Some e -> deflateRaw L e = Some b ->
    inflateRaw L b = Some e /\ b <> [];
  btoa_total : forall b, btoa L (fromCharCode b) <> None;
  base64_inverse : forall s p, btoa L s = Some p -> atob L p = Some s
}.

End Codec.

(* ===================================================================== *)
(** ** Character classes and the three regular expressions *)
(* ===================================================================== *)

Module Regex.

(** Line terminators: the characters [.] does not match. *)
Definition is_line_terminator (c : N) : bool :=
  (c =? 10)%N || (c =? 13)%N || (c =? 8232)%N || (c =? 8233)%N.

(** [\s]: white space and line terminators. *)
Definition is_space (c : N) : bool :=
  ((9 <=? c) && (c <=? 13))%N || (c =? 32)%N || (c =? 160)%N
  || (c =? 5760)%N || ((8192 <=? c) && (c <=? 8202))%N
  || (c =? 8232)%N || (c =? 8233)%N || (c =? 8239)%N || (c =? 8287)%N
  || (c =? 12288)%N || (c =? 65279)%N.

(** [\w] *)
Definition is_word (c : N) : bool :=
  ((48 <=? c) && (c <=? 57))%N || ((65 <=? c) && (c <=? 90))%N
  || (c =? 95)%N || ((97 <=? c) && (c <=? 122))%N.

(** Case folding of the [i] flag, on the ASCII letters. *)
Definition canonicalize (c : N) : N :=
  if ((97 <=? c) && (c <=? 122))%N then (c - 32)%N else c.

Definition chr_lt : N := 60.    (* < *)
Definition chr_gt : N := 62.    (* > *)
Definition chr_slash : N := 47. (* / *)
Definition chr_lpar : N := 40.  (* ( *)
Definition chr_rpar : N := 41.  (* ) *)
Definition chr_colon : N := 58. (* : *)
Definition chr_minus : N := 45. (* - *)

(** A literal at the head of [s]; the rest of [s] when it is there. *)
Fixpoint match_lit (ci : bool) (lit s : jsstring) : option jsstring :=
  match lit, s with
  | [], _ => Some s
  | l :: lit', c :: s' =>
      if (if ci then (canonicalize l =? canonicalize c)%N else (l =? c)%N)
      then match_lit ci lit' s' else None
  | _ :: _, [] => None
  end.

(** Greedy [p*]: what is consumed, what is left. *)
Fixpoint take_while (p : N -> bool) (s : jsstring) : jsstring :=
  match s with
  | c :: s' => if p c then c :: take_while p s' else []
  | [] => []
  end.

Fixpoint drop_while (p : N -> bool) (s : jsstring) : jsstring :=
  match s with
  | c :: s' => if p c then drop_while p s' else s
  | [] => []
  end.

(** *** [genPrefixRegexp]: [(?:^|>)PREFIX(?:\((?<id>\w+)\))?:\s*] with flag [i]

    [PREFIX] is taken literally (the callers pass ["A"] and ["Q"]). A
    match is returned as the captured id and the text after the match. *)

(** [(?:\((?<id>\w+)\))] : a shorter [\w+] leaves a word character where
    [)] is required, so only the longest run can succeed. *)
Definition match_id_group (s : jsstring) : option (jsstring * jsstring) :=
  match s with
  | c :: s1 =>
      if (c =? chr_lpar)%N then
        match take_while is_word s1, drop_while is_word s1 with
        | (_ :: _) as id, d :: s2 =>
            if (d =? chr_rpar)%N then Some (id, s2) else None
        | _, _ => None
        end
      else None
  | [] => None
  end.

(** [:\s*] *)
Definition match_colon (s : jsstring) : option jsstring :=
  match s with
  | c :: s1 => if (c =? chr_colon)%N then Some (drop_while is_space s1)
               else None
  | [] => None
  end.

(** [PREFIX(?:\((?<id>\w+)\))?:\s*] : the group is tried first, then
    skipped. *)
Definition match_prefix_body (prefix s : jsstring)
    : option (option jsstring * jsstring) :=
  match match_lit true prefix s with
  | None => None
  | Some s1 =>
      let with_group :=
        match match_id_group s1 with
        | Some (id, s2) =>
            match match_colon s2 with
            | Some rest => Some (Some id, rest)
            | None => None
            end
        | None => None
        end in
      match with_group with
      | Some r => Some r
      | None =>
          match match_colon s1 with
          | Some rest => Some (None, rest)
          | None => None
          end
      end
  end.

(** The whole pattern at one position; [at_start] says whether the
    position is the start of the input ([^]). *)
Definition match_prefix_at (at_start : bool) (prefix s : jsstring)
    : option (option jsstring * jsstring) :=
  match (if at_start then match_prefix_body prefix s else None) with
  | Some r => Some r
  | None =>
      match s with
      | c :: s1 => if (c =? chr_gt)%N then match_prefix_body prefix s1
                   else None
      | [] => None
      end
  end.

(** Leftmost match: the text before it, the captured id, the text after. *)
Fixpoint exec_prefix_from (at_start : bool) (prefix s : jsstring)
    : option (jsstring * option jsstring * jsstring) :=
  match match_prefix_at at_start prefix s with
  | Some (id, rest) => Some ([], id, rest)
  | None =>
      match s with
      | [] => None
      | c :: s1 =>
          match exec_prefix_from false prefix s1 with
          | Some (pre, id, rest) => Some (c :: pre, id, rest)
          | None => None
          end
      end
  end.

Definition exec_prefix (prefix s : jsstring) :=
  exec_prefix_from true prefix s.

(** [s.replace(idRegex, '')]: the first match only. *)
Definition replace_prefix (prefix s : jsstring) : jsstring :=
  match exec_prefix prefix s with
  | Some (pre, _, rest) => pre ++ rest
  | None => s
  end.

(** *** The tag pattern [<\/?(?:font|span)\s*.*?>] with flag [g] *)

(** Lazy [.*?>]: up to the first [>], with no line terminator before it. *)
Fixpoint scan_to_gt (s : jsstring) : option jsstring :=
  match s with
  | [] => None
  | c :: s1 =>
      if (c =? chr_gt)%N then Some s1
      else if is_line_terminator c then None
      else scan_to_gt s1
  end.

(** [(?:font|span)\s*.*?>] : giving back white space of the greedy [\s*]
    only makes [.*?] cross it again, so the longest run decides. *)
Definition match_tag_name (s : jsstring) : option jsstring :=
  match (match match_lit false (js "font") s with
         | Some r => Some r
         | None => match_lit false (js "span") s
         end) with
  | Some s1 => scan_to_gt (drop_while is_space s1)
  | None => None
  end.

Definition match_tag_at (s : jsstring) : option jsstring :=
  match s with
  | c :: s1 =>
      if (c =? chr_lt)%N then
        match (match s1 with
               | d :: s2 => if (d =? chr_slash)%N then match_tag_name s2
                            else None
               | [] => None
               end) with
        | Some r => Some r
        | None => match_tag_name s1
        end
      else None
  | [] => None
  end.

(** [s.replace(/<\/?(?:font|span)\s*.*?>/g, '')]. The recursion resumes
    after each match; [fuel] bounds the number of steps. *)
Fixpoint strip_tags_fuel (fuel : nat) (s : jsstring) : jsstring :=
  match fuel with
  | O => s
  | S fuel' =>
      match match_tag_at s with
      | Some rest => strip_tags_fuel fuel' rest
      | None =>
          match s with
          | [] => []
          | c :: s1 => c :: strip_tags_fuel fuel' s1
          end
      end
  end.

Definition strip_tags (s : jsstring) : jsstring :=
  strip_tags_fuel (S (length s)) s.

(** Whether the tag pattern matches somewhere in [s]. *)
Fixpoint has_tag (s : jsstring) : bool :=
  match match_tag_at s with
  | Some _ => true
  | None =>
      match s with
      | [] => false
      | _ :: s1 => has_tag s1
      end
  end.

(** Whether the prefix pattern matches somewhere in [s]. *)
Definition has_prefix (prefix s : jsstring) : bool :=
  match exec_prefix prefix s with Some _ => true | None => false end.

(** *** The sub-question separator [<br.*?>-\s*] *)

(** Lazy [.*?] followed by [>-]. *)
Fixpoint scan_to_gt_minus (s : jsstring) : option jsstring :=
  match s with
  | [] => None
  | c :: s1 =>
      match (if (c =? chr_gt)%N then
               match s1 with
               | d :: s2 => if (d =? chr_minus)%N then Some s2 else None
               | [] => None
               end
             else None) with
      | Some r => Some r
      | None => if is_line_terminator c then None else scan_to_gt_minus s1
      end
  end.

Definition match_br_at (s : jsstring) : option jsstring :=
  match match_lit false (js "<br") s with
  | Some s1 =>
      match scan_to_gt_minus s1 with
      | Some s2 => Some (drop_while is_space s2)
      | None => None
      end
  | None => None
  end.

(** [s.split(/<br.*?>-\s*/)]; [cur] is the segment being collected,
    reversed. *)
Fixpoint split_br_fuel (fuel : nat) (cur s : jsstring) : list jsstring :=
  match fuel with
  | O => [rev cur ++ s]
  | S fuel' =>
      match s with
      | [] => [rev cur]
      | c :: s1 =>
          match match_br_at s with
          | Some rest => rev cur :: split_br_fuel fuel' [] rest
          | None => split_br_fuel fuel' (c :: cur) s1
          end
      end
  end.

Definition split_br (s : jsstring) : list jsstring :=
  split_br_fuel (S (length s)) [] s.

(** [s.trim()] *)
Definition trim (s : jsstring) : jsstring :=
  rev (drop_while is_space (rev (drop_while is_space s))).

End Regex.

(* ===================================================================== *)
(** ** The document, as the extractors query it *)
(* ===================================================================== *)

Module Dom.

(** An [mxCell] element with the attributes the extractors read;
    [getAttribute] of a missing attribute is [null]. *)
Record Element := mkElement {
  attr_id : option jsstring;
  attr_style : option jsstring;
  attr_value : option jsstring;
  attr_parent : option jsstring;
  attr_edge : option jsstring;
  attr_source : option jsstring;
  attr_target : option jsstring
}.

(** The [mxCell] elements in document order. *)
Definition Document := list Element.

(** [node.id]: the attribute, or the empty string. *)
Definition id (node : Element) : jsstring :=
  match attr_id node with Some s => s | None => [] end.

Fixpoint is_prefix (p s : jsstring) : bool :=
  match p, s with
  | [], _ => true
  | x :: p', y :: s' => N.eqb x y && is_prefix p' s'
  | _ :: _, [] => false
  end.

Fixpoint contains (sub s : jsstring) : bool :=
  is_prefix sub s ||
  match s with
  | [] => false
  | _ :: s' => contains sub s'
  end.

(** [mxCell[style*="container=1"]] *)
Definition sel_container (node : Element) : bool :=
  match attr_style node with
  | Some st => contains (js "container=1") st
  | None => false
  end.

(** [mxCell[value]] *)
Definition sel_value (node : Element) : bool :=
  match attr_value node with Some _ => true | None => false end.

(** [mxCell[edge="1"]] *)
Definition sel_edge (node : Element) : bool :=
  match attr_edge node with
  | Some e => str_eqb e (js "1")
  | None => false
  end.

Definition querySelectorAll (sel : Element -> bool) (document : Document)
    : list Element :=
  filter sel document.

End Dom.

(* ===================================================================== *)
(** ** Plain objects used as maps *)
(* ===================================================================== *)

Module JsObject.

Section Obj.

Variable V : Type.

(** Own properties in insertion order. *)
Definition t := list (jsstring * V).

Fixpoint get (k : jsstring) (o : t) : option V :=
  match o with
  | [] => None
  | (k', v) :: o' => if str_eqb k k' then Some v else get k o'
  end.

Definition has (k : jsstring) (o : t) : bool :=
  match get k o with Some _ => true | None => false end.

(** [o[k] = v]: in place when the key exists, else appended. *)
Fixpoint set (k : jsstring) (v : V) (o : t) : t :=
  match o with
  | [] => [(k, v)]
  | (k', v') :: o' =>
      if str_eqb k k' then (k', v) :: o' else (k', v') :: set k v o'
  end.

(** [o[k] = f(o[k])] for an existing key. *)
Fixpoint update (k : jsstring) (f : V -> V) (o : t) : t :=
  match o with
  | [] => []
  | (k', v') :: o' =>
      if str_eqb k k' then (k', f v') :: o' else (k', v') :: update k f o'
  end.

End Obj.

(** The members of [Object.prototype], which every plain object
    inherits: eleven functions and [__proto__], which reads as
    [Object.prototype] itself. All of them are truthy. *)
Definition prototype_names : list jsstring :=
  map js ["constructor"; "toString"; "toLocaleString"; "valueOf";
          "hasOwnProperty"; "isPrototypeOf"; "propertyIsEnumerable";
          "__proto__"; "__defineGetter__"; "__defineSetter__";
          "__lookupGetter__"; "__lookupSetter__"]%string.

Definition inherited (k : jsstring) : bool :=
  existsb (str_eqb k) prototype_names.

(** What [o[k]] reads: an own property, else the member of
    [Object.prototype] of that name, else [undefined]. *)
Inductive Read (V : Type) :=
| Own (v : V)
| Member
| Missing.

Arguments Own {V} v.
Arguments Member {V}.
Arguments Missing {V}.

Definition read {V} (k : jsstring) (o : t V) : Read V :=
  match get k o with
  | Some v => Own v
  | None => if inherited k then Member else Missing
  end.

(** [o[k] = v] for any key. Under the key [__proto__] the assignment
    goes to the accessor of [Object.prototype] and replaces the prototype
    of [o] instead of adding a property: no result is given for it. *)
Definition assign {V} (k : jsstring) (v : V) (o : t V) : option (t V) :=
  if str_eqb k (js "__proto__") then None else Some (set k v o).

(** The value of a decimal digit string. *)
Fixpoint digits_value (acc : N) (s : jsstring) : option N :=
  match s with
  | [] => Some acc
  | c :: s' =>
      if ((48 <=? c) && (c <=? 57))%N
      then digits_value (10 * acc + (c - 48))%N s'
      else None
  end.

(** An array index: a canonical numeric string below [2^32 - 1]. *)
Definition array_index (k : jsstring) : option N :=
  match k with
  | [] => None
  | c :: k' =>
      if (c =? 48)%N && truthy_str k' then None
      else match digits_value 0 k with
           | Some n => if (n <? 4294967295)%N then Some n else None
           | None => None
           end
  end.

Fixpoint insert_by_index (n : N) (k : jsstring) (l : list (N * jsstring))
    : list (N * jsstring) :=
  match l with
  | [] => [(n, k)]
  | (m, k') :: l' =>
      if (n <=? m)%N then (n, k) :: l else (m, k') :: insert_by_index n k l'
  end.

Fixpoint index_keys (ks : list jsstring) : list (N * jsstring) :=
  match ks with
  | [] => []
  | k :: ks' =>
      match array_index k with
      | Some n => insert_by_index n k (index_keys ks')
      | None => index_keys ks'
      end
  end.

Definition is_index (k : jsstring) : bool :=
  match array_index k with Some _ => true | None => false end.

(** Own property keys in the order of [Object.keys]/[Object.values]:
    array indices ascending, then the other keys in insertion order. *)
Definition keys_of (ks : list jsstring) : list jsstring :=
  map snd (index_keys ks) ++ filter (fun k => negb (is_index k)) ks.

Definition keys {V} (o : t V) : list jsstring := keys_of (map fst o).

End JsObject.

(* ===================================================================== *)
(** ** Results of code that may throw or loop *)
(* ===================================================================== *)

Inductive Error :=
| DuplicateNode (prefix prefixId : jsstring) (* Error(`Found duplicate Node ...`) *)
| RangeError                                 (* Invalid array length *)
| TypeError.                                 (* property of null *)

(** [NoResult]: a loop did not finish within the fuel given to it.

    [Builtin k]: a property read under the key [k] found a member of
    [Object.prototype] where the code expects one of its own records, and
    the code went on to write to that built-in object (or an assignment
    under the key [__proto__] replaced an object's prototype). Such a
    write is seen by every object of the process; what the code and its
    libraries do from there on is not described here. *)
Inductive Completion (A : Type) :=
| Normal (a : A)
| Abrupt (e : Error)
| NoResult
| Builtin (key : jsstring).

Arguments Normal {A} a.
Arguments Abrupt {A} e.
Arguments NoResult {A}.
Arguments Builtin {A} key.

Definition bind {A B} (c : Completion A) (k : A -> Completion B)
    : Completion B :=
  match c with
  | Normal a => k a
  | Abrupt e => Abrupt e
  | NoResult => NoResult
  | Builtin key => Builtin key
  end.

(** [list.forEach] with a body that works on a state and may throw. *)
Fixpoint forEach {St A} (body : St -> A -> Completion St) (l : list A)
    (s : St) : Completion St :=
  match l with
  | [] => Normal s
  | x :: l' => bind (body s x) (forEach body l')
  end.

(* ===================================================================== *)
(** ** Extractors ([drawioParsers]) *)
(* ===================================================================== *)

Module Parsers.

Import Dom.

(** *** Container extractor *)

(** A reference to a tree node object: the synthetic root, or the object
    stored in [containerCache] under a key. *)
Inductive ref :=
| RootRef
| CacheRef (key : jsstring).

Definition ref_eqb (a b : ref) : bool :=
  match a, b with
  | RootRef, RootRef => true
  | CacheRef k, CacheRef k' => str_eqb k k'
  | _, _ => false
  end.

(** [assumptions] is the list added by the linker ([undefined] before);
    its entries are indices into the assumption array. *)
Record TreeNode := mkTreeNode {
  node : option Element;
  nodeId : option jsstring;
  parent : option ref;
  children : list ref;
  value : option jsstring;
  assumptions : option (list nat)
}.

Definition createNode : TreeNode :=
  mkTreeNode None None None [] None None.

Record Forest := mkForest {
  containerRoot : TreeNode;
  containerCache : JsObject.t TreeNode
}.

Definition deref (F : Forest) (r : ref) : option TreeNode :=
  match r with
  | RootRef => Some (containerRoot F)
  | CacheRef k => JsObject.get k (containerCache F)
  end.

Definition modify (F : Forest) (r : ref) (f : TreeNode -> TreeNode)
    : Forest :=
  match r with
  | RootRef => mkForest (f (containerRoot F)) (containerCache F)
  | CacheRef k =>
      mkForest (containerRoot F) (JsObject.update k f (containerCache F))
  end.

Definition push_child (c : ref) (t : TreeNode) : TreeNode :=
  mkTreeNode (node t) (nodeId t) (parent t) (children t ++ [c]) (value t)
             (assumptions t).

Definition set_parent (p : ref) (t : TreeNode) : TreeNode :=
  mkTreeNode (node t) (nodeId t) (Some p) (children t) (value t)
             (assumptions t).

Definition connectNodes (F : Forest) (p c : ref) : Forest :=
  modify (modify F p (push_child c)) c (set_parent p).

(** [if (!containerCache[k]) containerCache[k] = createNode()]: a tree
    node is truthy, and so is an inherited member of [Object.prototype],
    under whose name nothing is created. *)
Definition ensure (k : jsstring) (F : Forest) : Forest :=
  match JsObject.read k (containerCache F) with
  | JsObject.Missing =>
      mkForest (containerRoot F)
               (JsObject.set k createNode (containerCache F))
  | _ => F
  end.

Definition populate (n : Element) (t : TreeNode) : TreeNode :=
  mkTreeNode (Some n) (Some (id n)) (parent t) (children t)
             (Some (match attr_value n with
                    | Some v => if truthy_str v then v else []
                    | None => []
                    end))
             (assumptions t).

(** [containerNodeIds.has(parentId)] *)
Definition ids_has (ids : list jsstring) (parentId : option jsstring)
    : bool :=
  match parentId with
  | Some p => existsb (str_eqb p) ids
  | None => false
  end.

(** The body of [containerNodes.forEach]. After [ensure], the cache has
    no own property under a key exactly when the key names a member of
    [Object.prototype]. With that member as [currTreeNode] the code
    writes [node], [nodeId] and [value] to the built-in; with it as the
    parent, [parent.children] is [undefined] and [connectNodes] throws. *)
Definition addContainer (ids : list jsstring) (F : Forest) (n : Element)
    : Completion Forest :=
  let F := ensure (id n) F in
  let curr := CacheRef (id n) in
  match deref F curr with
  | None => Builtin (id n)
  | Some _ =>
      let F := modify F curr (populate n) in
      let parentId := attr_parent n in
      let F := if negb (truthy parentId) || negb (ids_has ids parentId)
               then connectNodes F RootRef curr else F in
      let F := ensure (prop_key parentId) F in
      match deref F (CacheRef (prop_key parentId)) with
      | None => Abrupt TypeError
      | Some _ => Normal (connectNodes F (CacheRef (prop_key parentId)) curr)
      end
  end.

Definition containerNodes (document : Document) : list Element :=
  filter (fun n => truthy_str (id n))
         (querySelectorAll sel_container document).

(** [{ root, all }]: [root] is [RootRef] in [forest]. *)
Record Containers := mkContainers {
  forest : Forest;
  all : list ref
}.

Definition emptyForest : Forest := mkForest createNode [].

Definition values (F : Forest) : list ref :=
  map CacheRef (JsObject.keys (containerCache F)).

Definition parseContainers (document : Document)
    : Completion Containers :=
  let nodes := containerNodes document in
  let ids := map id nodes in
  bind (forEach (addContainer ids) nodes emptyForest)
       (fun F => Normal (mkContainers F (values F))).

(** *** Prefix extractor *)

Record Extracted := mkExtracted {
  x_match : bool;
  x_value : jsstring;
  x_rawValue : jsstring;
  x_prefixId : option jsstring
}.

(** The two [replace] calls that produce [cleanValue]. *)
Definition cleanup (prefix value : jsstring) : jsstring :=
  Regex.replace_prefix prefix (Regex.strip_tags value).

(** The id generator: [autoIdCounter] and the shared set [seenIds]. *)
Record IdState := mkIdState {
  autoIdCounter : nat;
  seenIds : list jsstring
}.

Definition set_has (x : jsstring) (s : list jsstring) : bool :=
  existsb (str_eqb x) s.

Definition set_add (x : jsstring) (s : list jsstring) : list jsstring :=
  if set_has x s then s else s ++ [x].

(** The [do ... while (idCache.has(idCandidate))] loop. *)
Fixpoint genNextId_loop (fuel : nat) (idGenFn : nat -> jsstring)
    (counter : nat) (idCache : list jsstring) : option (jsstring * nat) :=
  match fuel with
  | O => None
  | S fuel' =>
      let idCandidate := idGenFn counter in
      if set_has idCandidate idCache
      then genNextId_loop fuel' idGenFn (S counter) idCache
      else Some (idCandidate, S counter)
  end.

Definition genNextId (fuel : nat) (idGenFn : nat -> jsstring) (st : IdState)
    : option (jsstring * IdState) :=
  match genNextId_loop fuel idGenFn (autoIdCounter st) (seenIds st) with
  | Some (c, n) => Some (c, mkIdState n (set_add c (seenIds st)))
  | None => None
  end.

(** [(n) => `auto_${n}`] *)
Definition autoId (n : nat) : jsstring := js "auto_" ++ decimal n.

Definition initIdState : IdState := mkIdState 1 [].

Record PrefixedNode := mkPrefixedNode {
  p_node : Element;
  p_nodeId : jsstring;
  p_prefix : jsstring;
  p_prefixId : jsstring;
  p_value : jsstring;
  p_rawValue : jsstring
}.

Section WithHtmlDecode.

(** [htmlDecode]: the text content of the value parsed as HTML. *)
Variable htmlDecode : jsstring -> jsstring.

(** The matched text is never empty (it holds the colon), so [!match]
    is the absence of a match. *)
Definition extractPrefixFromNode (n : Element) (prefix : jsstring)
    : Extracted :=
  let rawValue := match attr_value n with
                  | Some v => v
                  | None => []
                  end in
  let value := htmlDecode rawValue in
  match Regex.exec_prefix prefix value with
  | None => mkExtracted false [] [] None
  | Some (_, prefixId, _) =>
      mkExtracted true (cleanup prefix value) rawValue prefixId
  end.

(** [parseNode] of [createParserForPrefixedNode]; the fuel is that of the
    id generator's loop. *)
Definition parseNode (prefix : jsstring) (st : IdState) (n : Element)
    : Completion (IdState * (bool * jsstring * jsstring * jsstring)) :=
  let x := extractPrefixFromNode n prefix in
  if negb (x_match x) then Normal (st, (false, [], [], []))
  else
    bind (match x_prefixId x with
          | Some pid =>
              if set_has pid (seenIds st)
              then Abrupt (DuplicateNode prefix pid)
              else Normal (mkIdState (autoIdCounter st)
                                     (set_add pid (seenIds st)))
          | None => Normal st
          end)
      (fun st =>
         bind (if truthy (x_prefixId x)
               then Normal (prop_key (x_prefixId x), st)
               else match genNextId (S (length (seenIds st))) autoId st with
                    | Some r => Normal r
                    | None => NoResult
                    end)
           (fun r =>
              Normal (snd r, (true, fst r, x_value x, x_rawValue x)))).

(** What [parseNode] does, by cases on the extracted prefix. *)
Inductive ParseNodeSpec (prefix : jsstring) (st : IdState) (n : Element)
  : Completion (IdState * (bool * jsstring * jsstring * jsstring)) -> Prop :=
| parse_no_match :
    x_match (extractPrefixFromNode n prefix) = false ->
    ParseNodeSpec prefix st n (Normal (st, (false, [], [], [])))
| parse_duplicate pid :
    x_match (extractPrefixFromNode n prefix) = true ->
    x_prefixId (extractPrefixFromNode n prefix) = Some pid ->
    set_has pid (seenIds st) = true ->
    ParseNodeSpec prefix st n (Abrupt (DuplicateNode prefix pid))
| parse_fresh st' finalPrefixId :
    x_match (extractPrefixFromNode n prefix) = true ->
    (forall pid,
       x_prefixId (extractPrefixFromNode n prefix) = Some pid ->
       set_has pid (seenIds st) = false /\
       set_has pid (seenIds st') = true) ->
    set_has finalPrefixId (seenIds st) = false ->
    set_has finalPrefixId (seenIds st') = true ->
    (forall y, set_has y (seenIds st) = true ->
               set_has y (seenIds st') = true) ->
    ParseNodeSpec prefix st n
      (Normal (st', (true, finalPrefixId,
                     x_value (extractPrefixFromNode n prefix),
                     x_rawValue (extractPrefixFromNode n prefix)))).

(** A node declares the explicit id [pid] under [prefix]: it has a
    [value] that matches the prefix pattern with that id. *)
Definition declares (prefix : jsstring) (n : Element) (pid : jsstring)
    : Prop :=
  sel_value n = true /\
  x_match (extractPrefixFromNode n prefix) = true /\
  x_prefixId (extractPrefixFromNode n prefix) = Some pid.

(** The reducer of [findPrefixedNodes]. *)
Definition findStep (prefix : jsstring)
    (acc : Completion (IdState * list PrefixedNode)) (n : Element)
    : Completion (IdState * list PrefixedNode) :=
  bind acc (fun sa =>
    let '(st, aggArr) := sa in
    if negb (truthy_str (id n)) then Normal (st, aggArr)
    else
      bind (parseNode prefix st n) (fun r =>
        let '(st', (m, prefixId, value, rawValue)) := r in
        if negb m then Normal (st', aggArr)
        else Normal (st', aggArr ++
               [mkPrefixedNode n (id n) prefix prefixId value rawValue]))).

Definition findPrefixedNodes (document : Document) (prefix : jsstring)
    : Completion (list PrefixedNode) :=
  bind (fold_left (findStep prefix) (querySelectorAll sel_value document)
                  (Normal (initIdState, [])))
       (fun sa => Normal (snd sa)).

(** The state of the reducer after the nodes [processed]. *)
Definition FindInv (prefix : jsstring) (processed : list Element)
    (acc : Completion (IdState * list PrefixedNode)) : Prop :=
  match acc with
  | Normal (st, agg) =>
      NoDup (map p_prefixId agg) /\
      (forall p, In p agg ->
         set_has (p_prefixId p) (seenIds st) = true /\
         truthy_str (id (p_node p)) = true /\
         In (p_node p) processed /\
         p_nodeId p = id (p_node p)) /\
      (forall n pid, In n processed -> truthy_str (id n) = true ->
         x_match (extractPrefixFromNode n prefix) = true ->
         x_prefixId (extractPrefixFromNode n prefix) = Some pid ->
         set_has pid (seenIds st) = true)
  | Abrupt e => exists pid, e = DuplicateNode prefix pid
  | NoResult => False
  | Builtin _ => False
  end.

(** *** Assumption extractor *)

(** [questions] holds references to question objects (indices into the
    question array); [container] is set by the linker. *)
Record Assumption := mkAssumption {
  a_node : Element;
  a_nodeId : jsstring;
  a_prefix : jsstring;
  a_prefixId : jsstring;
  a_value : jsstring;
  a_rawValue : jsstring;
  a_parentId : option jsstring;
  a_questions : list nat;
  a_container : option ref
}.

Definition toAssumption (p : PrefixedNode) : Assumption :=
  mkAssumption (p_node p) (p_nodeId p) (p_prefix p) (p_prefixId p)
    (p_value p) (p_rawValue p)
    (if truthy (attr_parent (p_node p)) then attr_parent (p_node p)
     else None)
    [] None.

Definition parseAssumptions (document : Document)
    : Completion (list Assumption) :=
  bind (findPrefixedNodes document (js "A"))
       (fun ps => Normal (map toAssumption ps)).

(** *** Question extractor *)

(** [assumptions] is the list added by the linker ([undefined] before);
    its entries are indices into the assumption array. *)
Record Question := mkQuestion {
  q_node : Element;
  q_nodeId : jsstring;
  q_prefix : jsstring;
  q_prefixId : jsstring;
  q_value : jsstring;
  q_rawValue : jsstring;
  q_questions : list jsstring;
  q_targetIds : list (option jsstring);
  q_assumptions : option (list nat)
}.

(** [rawValue.split(/<br.*?>-\s*/).slice(1).map(trim).filter(Boolean)] *)
Definition subquestions (rawValue : jsstring) : list jsstring :=
  filter truthy_str (map Regex.trim (tl (Regex.split_br rawValue))).

Definition toQuestion (p : PrefixedNode) : Question :=
  mkQuestion (p_node p) (p_nodeId p) (p_prefix p) (p_prefixId p)
    (p_value p) (p_rawValue p) (subquestions (p_rawValue p)) [] None.

(** [keyBy(questionNodes, (q) => q.nodeId)] of lodash: node id to
    question object (the objects are array indices). What lodash does
    with the key [__proto__] depends on its version (a plain assignment,
    or a defined own property); no result is given for it. *)
Fixpoint keyBy_from (i : nat) (qs : list Question) (o : JsObject.t nat)
    : option (JsObject.t nat) :=
  match qs with
  | [] => Some o
  | q :: qs' =>
      match JsObject.assign (q_nodeId q) i o with
      | Some o' => keyBy_from (S i) qs' o'
      | None => None
      end
  end.

Definition keyBy (qs : list Question) : option (JsObject.t nat) :=
  keyBy_from 0 qs [].

Definition push_target (t : option jsstring) (q : Question) : Question :=
  mkQuestion (q_node q) (q_nodeId q) (q_prefix q) (q_prefixId q)
    (q_value q) (q_rawValue q) (q_questions q) (q_targetIds q ++ [t])
    (q_assumptions q).

(** [arr[i] = f(arr[i])] for an object held at index [i]. *)
Fixpoint modify_nth {A} (i : nat) (f : A -> A) (l : list A) : list A :=
  match l, i with
  | [], _ => []
  | x :: l', O => f x :: l'
  | x :: l', S i' => x :: modify_nth i' f l'
  end.

(** [questionsByNodeId[k] ? ... : ...]: a question object is truthy, and
    so is an inherited member of [Object.prototype]. *)
Definition found {V} (r : JsObject.Read V) : bool :=
  match r with JsObject.Missing => false | _ => true end.

(** The [edgeData] of one edge: [{ sourceId, targetId }], or [null]. *)
Definition edgeData (questionsByNodeId : JsObject.t nat)
    (sourceId targetId : option jsstring)
    : option (option jsstring * option jsstring) :=
  if found (JsObject.read (prop_key sourceId) questionsByNodeId)
  then Some (sourceId, targetId)
  else if found (JsObject.read (prop_key targetId) questionsByNodeId)
  then Some (targetId, sourceId)
  else None.

(** The body of the loop over [mxCell[edge="1"]]. When
    [questionsByNodeId[edgeData.sourceId]] is an inherited member of
    [Object.prototype], its [targetIds] is [undefined] and [push] throws. *)
Definition addEdge (questionsByNodeId : JsObject.t nat)
    (questionNodes : list Question) (n : Element)
    : Completion (list Question) :=
  match edgeData questionsByNodeId (attr_source n) (attr_target n) with
  | None => Normal questionNodes
  | Some (s, t) =>
      match JsObject.read (prop_key s) questionsByNodeId with
      | JsObject.Own qi => Normal (modify_nth qi (push_target t) questionNodes)
      | _ => Abrupt TypeError
      end
  end.

Definition linkEdges (questionNodes : list Question) (edges : list Element)
    : Completion (list Question) :=
  match keyBy questionNodes with
  | None => Builtin (js "__proto__")
  | Some questionsByNodeId =>
      forEach (addEdge questionsByNodeId) edges questionNodes
  end.

Definition parseQuestions (document : Document)
    : Completion (list Question) :=
  bind (findPrefixedNodes document (js "Q"))
       (fun ps => linkEdges (map toQuestion ps)
                            (querySelectorAll sel_edge document)).

End WithHtmlDecode.

End Parsers.

(* ===================================================================== *)
(** ** Graph linker ([drawioTransformers]) *)
(* ===================================================================== *)

Module Transformers.

Import Parsers.

(** The parsed data the transformers and the exporter work on. *)
Record Data := mkData {
  containers : Containers;
  assumptions : list Assumption;
  questions : list Question
}.

Definition push_question (qi : nat) (a : Assumption) : Assumption :=
  mkAssumption (a_node a) (a_nodeId a) (a_prefix a) (a_prefixId a)
    (a_value a) (a_rawValue a) (a_parentId a) (a_questions a ++ [qi])
    (a_container a).

Definition push_assumption (ai : nat) (q : Question) : Question :=
  mkQuestion (q_node q) (q_nodeId q) (q_prefix q) (q_prefixId q)
    (q_value q) (q_rawValue q) (q_questions q) (q_targetIds q)
    (Some (match q_assumptions q with Some l => l | None => [] end ++ [ai])).

(** [agg[x.nodeId] = x] over an array; the objects are array indices. *)
Fixpoint cacheBy_from {A} (key : A -> jsstring) (i : nat) (l : list A)
    (o : JsObject.t nat) : option (JsObject.t nat) :=
  match l with
  | [] => Some o
  | x :: l' =>
      match JsObject.assign (key x) i o with
      | Some o' => cacheBy_from key (S i) l' o'
      | None => None
      end
  end.

(** The body of [quest.targetIds.forEach]. An assumption object is truthy,
    and so is an inherited member of [Object.prototype], to which the
    code then writes [questions]. *)
Definition connectTarget (assumptionCache : JsObject.t nat) (qi : nat)
    (st : list Assumption * list Question) (questTargetId : option jsstring)
    : Completion (list Assumption * list Question) :=
  match JsObject.read (prop_key questTargetId) assumptionCache with
  | JsObject.Missing => Normal st
  | JsObject.Own ai =>
      Normal (modify_nth ai (push_question qi) (fst st),
              modify_nth qi (push_assumption ai) (snd st))
  | JsObject.Member => Builtin (prop_key questTargetId)
  end.

(** [questions.result.forEach]: question [qi] with its [targetIds]. *)
Fixpoint connectQuestions_from (assumptionCache : JsObject.t nat) (qi : nat)
    (todo : list Question) (st : list Assumption * list Question)
    : Completion (list Assumption * list Question) :=
  match todo with
  | [] => Normal st
  | q :: todo' =>
      bind (forEach (connectTarget assumptionCache qi) (q_targetIds q) st)
           (connectQuestions_from assumptionCache (S qi) todo')
  end.

(** The transformer on [assumptions.result] and [questions.result], the
    only fields of [data] it reads. *)
Definition connectQuestions (assumptions : list Assumption)
    (questions : list Question)
    : Completion (list Assumption * list Question) :=
  match cacheBy_from a_nodeId 0 assumptions [] with
  | None => Builtin (js "__proto__")
  | Some assumptionCache =>
      connectQuestions_from assumptionCache 0 questions
        (assumptions, questions)
  end.

Definition transformConnectQuestions (data : Data) : Completion Data :=
  bind (connectQuestions (assumptions data) (questions data))
       (fun st => Normal (mkData (containers data) (fst st) (snd st))).

(** [agg[container.nodeId] = container] over [containers.result.all]. *)
Fixpoint containerCache_from (F : Forest) (l : list ref)
    (o : JsObject.t ref) : option (JsObject.t ref) :=
  match l with
  | [] => Some o
  | r :: l' =>
      match JsObject.assign (prop_key (match deref F r with
                                       | Some t => nodeId t
                                       | None => None
                                       end)) r o with
      | Some o' => containerCache_from F l' o'
      | None => None
      end
  end.

Definition set_container (r : ref) (a : Assumption) : Assumption :=
  mkAssumption (a_node a) (a_nodeId a) (a_prefix a) (a_prefixId a)
    (a_value a) (a_rawValue a) (a_parentId a) (a_questions a) (Some r).

Definition push_held (ai : nat) (t : TreeNode) : TreeNode :=
  mkTreeNode (node t) (nodeId t) (parent t) (children t) (value t)
    (Some (match Parsers.assumptions t with Some l => l | None => [] end
           ++ [ai])).

(** [assumptions.result.forEach]: assumption [ai]. A tree node is
    truthy, and so is an inherited member of [Object.prototype], which
    the code then takes as the assumption's container and to which it
    writes [assumptions]. *)
Fixpoint connectContainers_from (cache : JsObject.t ref) (ai : nat)
    (todo : list Assumption) (F : Forest)
    : Completion (list Assumption * Forest) :=
  match todo with
  | [] => Normal ([], F)
  | a :: todo' =>
      match JsObject.read (prop_key (a_parentId a)) cache with
      | JsObject.Missing =>
          bind (connectContainers_from cache (S ai) todo' F)
               (fun r => Normal (a :: fst r, snd r))
      | JsObject.Own r =>
          bind (connectContainers_from cache (S ai) todo'
                  (modify F r (push_held ai)))
               (fun r' => Normal (set_container r a :: fst r', snd r'))
      | JsObject.Member => Builtin (prop_key (a_parentId a))
      end
  end.

Definition transformConnectContainers (data : Data) : Completion Data :=
  let F := forest (containers data) in
  match containerCache_from F (all (containers data)) [] with
  | None => Builtin (js "__proto__")
  | Some cache =>
      bind (connectContainers_from cache 0 (assumptions data) F)
           (fun r => Normal (mkData (mkContainers (snd r)
                                                  (all (containers data)))
                                    (fst r) (questions data)))
  end.

End Transformers.

(* ===================================================================== *)
(** ** Table flattener ([drawioExporters]) *)
(* ===================================================================== *)

Module Exporters.

Import Parsers Transformers.

(** A table cell: [null] or a string. *)
Inductive Cell :=
| CNull
| CStr (s : jsstring).

Definition Row := list Cell.

Definition cell_of (o : option jsstring) : Cell :=
  match o with Some s => CStr s | None => CNull end.

(** The numbers [Math.max] can return here. *)
Inductive jsnum :=
| NegInfinity
| Num (n : nat).

(** [Math.max(...depths)] *)
Fixpoint Math_max (depths : list nat) : jsnum :=
  match depths with
  | [] => NegInfinity
  | d :: depths' =>
      match Math_max depths' with
      | NegInfinity => Num d
      | Num m => Num (Nat.max d m)
      end
  end.

(** [let depth = 0; while (currContainer.parent) { depth++; ... }] *)
Fixpoint depthOf (fuel : nat) (F : Forest) (currContainer : ref)
    : option nat :=
  match fuel with
  | O => None
  | S fuel' =>
      match deref F currContainer with
      | None => None
      | Some t =>
          match parent t with
          | None => Some 0
          | Some p => option_map S (depthOf fuel' F p)
          end
      end
  end.

Fixpoint depths (fuel : nat) (F : Forest) (l : list ref)
    : option (list nat) :=
  match l with
  | [] => Some []
  | r :: l' =>
      match depthOf fuel F r, depths fuel F l' with
      | Some d, Some ds => Some (d :: ds)
      | _, _ => None
      end
  end.

(** [Array(n).fill(null)]: the indices of the new array, or a
    [RangeError] when [n] is not an array length. *)
Definition Array_indices (n : jsnum) : Completion (list nat) :=
  match n with
  | NegInfinity => Abrupt RangeError
  | Num k => if (N.of_nat k <=? 4294967295)%N then Normal (seq 0 k)
             else Abrupt RangeError
  end.

Definition fixedHeaders : Row :=
  map (fun s => CStr (js s))
    ["assumptionId"; "questionId"; "subquestionId"; "assumption";
     "question"; "container"]%string.

Definition csvHeaders (maxContainerDepth : jsnum) : Completion Row :=
  bind (Array_indices maxContainerDepth) (fun idx =>
    Normal (fixedHeaders ++
            map (fun i => CStr (js "container_depth" ++ decimal (i + 1)))
                idx)).

(** [while (currContainer) { if (currContainer.nodeId)
    containers.unshift(currContainer.value); ... }] *)
Fixpoint containerChain (fuel : nat) (F : Forest)
    (currContainer : option ref) (containers : list Cell)
    : option (list Cell) :=
  match currContainer with
  | None => Some containers
  | Some r =>
      match fuel with
      | O => None
      | S fuel' =>
          match deref F r with
          | None => None
          | Some t =>
              containerChain fuel' F (parent t)
                (if truthy (nodeId t) then cell_of (value t) :: containers
                 else containers)
          end
      end
  end.

(** [while (containers.length < maxContainerDepth) containers.push('')] *)
Definition padContainers (maxContainerDepth : jsnum)
    (containers : list Cell) : list Cell :=
  match maxContainerDepth with
  | NegInfinity => containers
  | Num m => containers ++ repeat (CStr []) (m - length containers)
  end.

Definition cell_truthy (c : Cell) : bool :=
  match c with CStr s => truthy_str s | CNull => false end.

Definition cell_string (c : Cell) : jsstring :=
  match c with CStr s => s | CNull => [] end.

(** [parts.join(' / ')] *)
Fixpoint join (sep : jsstring) (parts : list Cell) : jsstring :=
  match parts with
  | [] => []
  | [c] => cell_string c
  | c :: parts' => cell_string c ++ sep ++ join sep parts'
  end.

Definition containerKey (containers : list Cell) : jsstring :=
  join (js " / ") (filter cell_truthy containers).

(** [`${a.prefix}(${a.prefixId}):${q.prefix}(${q.prefixId}):${index + 1}`] *)
Definition subquestionId (a : Assumption) (q : Question) (index : nat)
    : jsstring :=
  a_prefix a ++ js "(" ++ a_prefixId a ++ js "):" ++
  q_prefix q ++ js "(" ++ q_prefixId q ++ js "):" ++ decimal (index + 1).

(** [createRow(q, index)]; [createRow()] passes neither argument. An
    index is only ever passed together with its question and lies within
    [q.questions]. (The [console.log] of rows whose question id is
    ["auto_1"] only prints.) *)
Definition createRow (a : Assumption) (containers : list Cell)
    (q : option Question) (index : option nat) : Row :=
  [CStr (a_prefixId a);
   match q with Some q' => CStr (q_prefixId q') | None => CNull end;
   match index, q with
   | Some i, Some q' => CStr (subquestionId a q' i)
   | _, _ => CNull
   end;
   CStr (a_value a);
   match q, index with
   | Some q', Some i => cell_of (nth_error (q_questions q') i)
   | _, _ => CNull
   end;
   CStr (containerKey containers)] ++ containers.

(** [q.questions.map((_, i) => createRow(q, i))] *)
Definition questionRows (a : Assumption) (containers : list Cell)
    (q : Question) : list Row :=
  map (fun i => createRow a containers (Some q) (Some i))
      (seq 0 (length (q_questions q))).

(** [a.questions] dereferenced; a dangling reference is no value. *)
Fixpoint derefQuestions (qs : list Question) (l : list nat)
    : option (list Question) :=
  match l with
  | [] => Some []
  | i :: l' =>
      match nth_error qs i, derefQuestions qs l' with
      | Some q, Some r => Some (q :: r)
      | _, _ => None
      end
  end.

(** The callback of [assumptions.result.flatMap]. *)
Definition assumptionRows (fuel : nat) (F : Forest) (qs : list Question)
    (maxContainerDepth : jsnum) (a : Assumption) : option (list Row) :=
  match containerChain fuel F (a_container a) [],
        derefQuestions qs (a_questions a) with
  | Some chain, Some linked =>
      let containers := padContainers maxContainerDepth chain in
      Some (createRow a containers None None ::
            flat_map (questionRows a containers) linked)
  | _, _ => None
  end.

Fixpoint flatMapRows (fuel : nat) (F : Forest) (qs : list Question)
    (maxContainerDepth : jsnum) (l : list Assumption) : option (list Row) :=
  match l with
  | [] => Some []
  | a :: l' =>
      match assumptionRows fuel F qs maxContainerDepth a,
            flatMapRows fuel F qs maxContainerDepth l' with
      | Some r, Some rs => Some (r ++ rs)
      | _, _ => None
      end
  end.

Definition maxContainerDepth (fuel : nat) (data : Data)
    : Completion jsnum :=
  match depths fuel (forest (containers data)) (all (containers data)) with
  | Some ds => Normal (Math_max ds)
  | None => NoResult
  end.

Definition doFormatCsv (fuel : nat) (data : Data) : Completion (list Row) :=
  bind (maxContainerDepth fuel data) (fun m =>
  bind (csvHeaders m) (fun headers =>
    match flatMapRows fuel (forest (containers data)) (questions data)
                      m (assumptions data) with
    | Some csvData => Normal (headers :: csvData)
    | None => NoResult
    end)).

End Exporters.

(* ===================================================================== *)
(** ** The [parse] command, between file input and file output ([cli]) *)
(* ===================================================================== *)

Module Cli.

Import Parsers Transformers Exporters.

Section WithHtmlDecode.

Variable htmlDecode : jsstring -> jsstring.

(** [parsedData] and [transformedData] of the [parse] command. Each
    parser runs under its own [try], and a parser that threw leaves
    [result: null]. The first transformer reads [assumptions.result] and
    [questions.result] and throws a [TypeError] on [null]; it does not
    read the containers. The second transformer reads
    [containers.result.all] and throws a [TypeError] on [null]. *)
Definition transformedData (document : Dom.Document) : Completion Data :=
  match parseAssumptions htmlDecode document,
        parseQuestions htmlDecode document with
  | NoResult, _ | _, NoResult => NoResult
  | Normal a, Normal q =>
      match parseContainers document with
      | Normal c =>
          bind (transformConnectQuestions (mkData c a q))
               transformConnectContainers
      | Abrupt _ =>
          bind (connectQuestions a q) (fun _ => Abrupt TypeError)
      | NoResult => NoResult
      | Builtin k => Builtin k
      end
  | Normal _, Builtin k => Builtin k
  | Builtin k, _ => Builtin k
  | _, _ => Abrupt TypeError
  end.

Definition parseToTable (fuel : nat) (document : Dom.Document)
    : Completion (list Row) :=
  bind (transformedData document) (doFormatCsv fuel).

End WithHtmlDecode.

End Cli.

(* ===================================================================== *)
(** ** The loops on own keys *)
(* ===================================================================== *)

(** The loops of the extractors and of the linker as they run when every
    key they read is an own property of the object read or is not found
    at all. No member of [Object.prototype] is met then, and each loop is
    a plain fold. The lemmas below relate them to the loops above. *)
Module OwnKeys.

Import Dom Parsers Transformers.

Definition ensure (k : jsstring) (F : Forest) : Forest :=
  if JsObject.has k (containerCache F) then F
  else mkForest (containerRoot F)
                (JsObject.set k createNode (containerCache F)).

Definition addContainer (ids : list jsstring) (F : Forest) (n : Element)
    : Forest :=
  let F := ensure (id n) F in
  let curr := CacheRef (id n) in
  let F := modify F curr (populate n) in
  let parentId := attr_parent n in
  let F := if negb (truthy parentId) || negb (ids_has ids parentId)
           then connectNodes F RootRef curr else F in
  let F := ensure (prop_key parentId) F in
  connectNodes F (CacheRef (prop_key parentId)) curr.

Definition parseContainers (document : Document) : Containers :=
  let nodes := containerNodes document in
  let ids := map id nodes in
  let F := fold_left (addContainer ids) nodes emptyForest in
  mkContainers F (values F).

Fixpoint keyBy_from (i : nat) (qs : list Question) (o : JsObject.t nat)
    : JsObject.t nat :=
  match qs with
  | [] => o
  | q :: qs' => keyBy_from (S i) qs' (JsObject.set (q_nodeId q) i o)
  end.

Definition keyBy (qs : list Question) : JsObject.t nat := keyBy_from 0 qs [].

(** The question object (by index) an edge is recorded in, and the id
    recorded. *)
Definition edgeData (questionsByNodeId : JsObject.t nat)
    (sourceId targetId : option jsstring) : option (nat * option jsstring) :=
  match JsObject.get (prop_key sourceId) questionsByNodeId with
  | Some qi => Some (qi, targetId)
  | None =>
      match JsObject.get (prop_key targetId) questionsByNodeId with
      | Some qi => Some (qi, sourceId)
      | None => None
      end
  end.

Definition addEdge (questionsByNodeId : JsObject.t nat)
    (questionNodes : list Question) (n : Element) : list Question :=
  match edgeData questionsByNodeId (attr_source n) (attr_target n) with
  | None => questionNodes
  | Some (qi, t) => modify_nth qi (push_target t) questionNodes
  end.

Definition linkEdges (questionNodes : list Question) (edges : list Element)
    : list Question :=
  fold_left (addEdge (keyBy questionNodes)) edges questionNodes.

Fixpoint cacheBy_from {A} (key : A -> jsstring) (i : nat) (l : list A)
    (o : JsObject.t nat) : JsObject.t nat :=
  match l with
  | [] => o
  | x :: l' => cacheBy_from key (S i) l' (JsObject.set (key x) i o)
  end.

Definition connectTarget (assumptionCache : JsObject.t nat) (qi : nat)
    (st : list Assumption * list Question) (questTargetId : option jsstring)
    : list Assumption * list Question :=
  match JsObject.get (prop_key questTargetId) assumptionCache with
  | None => st
  | Some ai =>
      (modify_nth ai (push_question qi) (fst st),
       modify_nth qi (push_assumption ai) (snd st))
  end.

Fixpoint connectQuestions_from (assumptionCache : JsObject.t nat) (qi : nat)
    (todo : list Question) (st : list Assumption * list Question)
    : list Assumption * list Question :=
  match todo with
  | [] => st
  | q :: todo' =>
      connectQuestions_from assumptionCache (S qi) todo'
        (fold_left (connectTarget assumptionCache qi) (q_targetIds q) st)
  end.

Definition transformConnectQuestions (data : Data) : Data :=
  let assumptionCache := cacheBy_from a_nodeId 0 (assumptions data) [] in
  let st := connectQuestions_from assumptionCache 0 (questions data)
              (assumptions data, questions data) in
  mkData (containers data) (fst st) (snd st).

Fixpoint containerCache_from (F : Forest) (l : list ref)
    (o : JsObject.t ref) : JsObject.t ref :=
  match l with
  | [] => o
  | r :: l' =>
      containerCache_from F l'
        (JsObject.set (prop_key (match deref F r with
                                 | Some t => nodeId t
                                 | None => None
                                 end)) r o)
  end.

Fixpoint connectContainers_from (cache : JsObject.t ref) (ai : nat)
    (todo : list Assumption) (F : Forest) : list Assumption * Forest :=
  match todo with
  | [] => ([], F)
  | a :: todo' =>
      match JsObject.get (prop_key (a_parentId a)) cache with
      | None =>
          let '(done, F') := connectContainers_from cache (S ai) todo' F in
          (a :: done, F')
      | Some r =>
          let '(done, F') :=
            connectContainers_from cache (S ai) todo'
              (modify F r (push_held ai)) in
          (set_container r a :: done, F')
      end
  end.

Definition transformConnectContainers (data : Data) : Data :=
  let F := forest (containers data) in
  let cache := containerCache_from F (all (containers data)) [] in
  let '(assumps, F') :=
    connectContainers_from cache 0 (assumptions data) F in
  mkData (mkContainers F' (all (containers data))) assumps (questions data).

End OwnKeys.

(* ===================================================================== *)
(** ** Stand-in libraries and example inputs *)
(* ===================================================================== *)

Module Examples.

Import Codec.

Definition latin1 (s : jsstring) : bool := forallb (fun c => (c <? 256)%N) s.
Definition ascii7 (s : jsstring) : bool := forallb (fun c => (c <? 128)%N) s.

(** A parser that never throws: for text that is not XML it returns a
    document whose root is a [parsererror] element, as a browser's
    [DOMParser] does. *)
Definition lenientParseXml (xml : jsstring) : option XmlDocument :=
  Some (mkXmlDocument (Some (mkXmlElement (js "parsererror") []))).

(** A parser that throws on text holding no element at all, as the XML
    mode of jsdom does ([new JSDOM(xml, { contentType: 'text/xml' })]
    raises a syntax error when there is no root element). Only such texts
    are used below; other texts are given a root without diagrams. *)
Definition strictParseXml (xml : jsstring) : option XmlDocument :=
  if existsb (N.eqb Regex.chr_lt) xml
  then Some (mkXmlDocument (Some (mkXmlElement (js "root") [])))
  else None.

(** Stand-ins for the codec libraries: percent-encoding and base64 are
    the identity on the texts they accept (7-bit and 8-bit text), and
    deflate stores the text behind one header byte. This is enough to
    satisfy the laws the codec relies on. A call passes up to 65535
    arguments. *)
Definition standInLibs (parser : jsstring -> option XmlDocument) : Libs :=
  mkLibs parser
    (fun s => if latin1 s then Some s else None)
    (fun s => if latin1 s then Some s else None)
    (fun b => match b with
              | Byte.x00 :: b' => Some (fromCharCode b')
              | _ => None
              end)
    (fun s => Some (Byte.x00 :: Uint8Array_from s))
    (fun s => if ascii7 s then Some s else None)
    (fun s => if ascii7 s then Some s else None)
    65535.

(** The same libraries on an engine that passes fewer arguments. *)
Definition withArgumentsLimit (limit : N) (L : Libs) : Libs :=
  mkLibs (parseXml L) (atob L) (btoa L) (inflateRaw L) (deflateRaw L)
         (decodeURIComponent L) (encodeURIComponent L) limit.

(** A stand-in for base64 whose output, like that of base64, holds
    letters and digits only: two hexadecimal digits for each character. *)
Definition hexDigit (n : N) : N :=
  if (n <? 10)%N then (48 + n)%N else (87 + n)%N.

Definition hexValue (c : N) : option N :=
  if ((48 <=? c) && (c <=? 57))%N then Some (c - 48)%N
  else if ((97 <=? c) && (c <=? 102))%N then Some (c - 87)%N
  else None.

Fixpoint hexEncode (s : jsstring) : jsstring :=
  match s with
  | [] => []
  | c :: s' => hexDigit (c / 16) :: hexDigit (c mod 16) :: hexEncode s'
  end.

Fixpoint hexDecode (p : jsstring) : option jsstring :=
  match p with
  | [] => Some []
  | a :: p1 =>
      match p1 with
      | b :: p2 =>
          match hexValue a, hexValue b, hexDecode p2 with
          | Some x, Some y, Some r => Some ((16 * x + y)%N :: r)
          | _, _, _ => None
          end
      | [] => None
      end
  end.

Definition hexLibs (parser : jsstring -> option XmlDocument) : Libs :=
  mkLibs parser
    hexDecode
    (fun s => if latin1 s then Some (hexEncode s) else None)
    (inflateRaw (standInLibs parser))
    (deflateRaw (standInLibs parser))
    (decodeURIComponent (standInLibs parser))
    (encodeURIComponent (standInLibs parser))
    65535.

Definition browserLibs : Libs := standInLibs lenientParseXml.
Definition nodeLibs : Libs := hexLibs strictParseXml.

(** Libraries whose base64 decoder rejects everything. *)
Definition brokenAtobLibs : Libs :=
  mkLibs lenientParseXml (fun _ => None) (btoa browserLibs)
    (inflateRaw browserLibs) (deflateRaw browserLibs)
    (decodeURIComponent browserLibs) (encodeURIComponent browserLibs)
    (argumentsLimit browserLibs).

End Examples.


(* ===================================================================== *)
(** ** The specification's vocabulary *)
(* ===================================================================== *)

Module Spec.

Import Dom Parsers Transformers Exporters.

(** The [(question, sub-question index)] pairs of an assumption's linked
    questions, in link order and parse order, each with the sub-question's
    text. *)
Definition subquestionPairs (linked : list Question)
    : list (Question * nat * jsstring) :=
  flat_map (fun q => map (fun it => (q, fst it, snd it))
                         (combine (seq 0 (length (q_questions q)))
                                  (q_questions q)))
           linked.

(** [1 +] the sum over the linked questions of their sub-question counts. *)
Definition rowCount (qs : list Question) (a : Assumption) : nat :=
  1 + list_sum (map (fun i => match nth_error qs i with
                              | Some q => length (q_questions q)
                              | None => 0
                              end) (a_questions a)).

(** The cells of a row, by column. *)
Definition col (i : nat) (row : Row) : option Cell := nth_error row i.
Definition depthEntries (row : Row) : list Cell := skipn 6 row.

(** The rows the flattener emits for one assumption. *)
Definition blockOf (qs : list Question) (a : Assumption)
    (block : list Row) : Prop :=
  exists linked first rest,
    derefQuestions qs (a_questions a) = Some linked /\
    block = first :: rest /\
    col 0 first = Some (CStr (a_prefixId a)) /\
    col 1 first = Some CNull /\
    col 2 first = Some CNull /\
    col 3 first = Some (CStr (a_value a)) /\
    col 4 first = Some CNull /\
    Forall2
      (fun p row =>
         let '(q, index, text) := p in
         col 0 row = Some (CStr (a_prefixId a)) /\
         col 1 row = Some (CStr (q_prefixId q)) /\
         col 2 row = Some (CStr (a_prefix a ++ js "(" ++ a_prefixId a ++
                                 js "):" ++ q_prefix q ++ js "(" ++
                                 q_prefixId q ++ js "):" ++
                                 decimal (index + 1))) /\
         col 3 row = Some (CStr (a_value a)) /\
         col 4 row = Some (CStr text))
      (subquestionPairs linked) rest /\
    length block = rowCount qs a.

(** The question known under a node id: with several questions of that
    node id, the last one. *)
Fixpoint questionFor_from (i : nat) (qs : list Question) (k : jsstring)
    : option nat :=
  match qs with
  | [] => None
  | q :: qs' =>
      match questionFor_from (S i) qs' k with
      | Some j => Some j
      | None => if str_eqb k (q_nodeId q) then Some i else None
      end
  end.

Definition questionFor (qs : list Question) (endpoint : option jsstring)
    : option nat :=
  questionFor_from 0 qs (prop_key endpoint).

(** What one edge records for question [i]: the endpoint opposite to the
    one that is the question's node id, the source being looked at
    first. *)
Definition recordedBy (qs : list Question) (i : nat) (n : Element)
    : list (option jsstring) :=
  match questionFor qs (attr_source n) with
  | Some j => if Nat.eqb j i then [attr_target n] else []
  | None =>
      match questionFor qs (attr_target n) with
      | Some j => if Nat.eqb j i then [attr_source n] else []
      | None => []
      end
  end.

Definition appendTargets (ts : list (option jsstring)) (q : Question)
    : Question :=
  mkQuestion (q_node q) (q_nodeId q) (q_prefix q) (q_prefixId q)
    (q_value q) (q_rawValue q) (q_questions q) (q_targetIds q ++ ts)
    (q_assumptions q).

(** The children, the parent and the id of the tree node behind a
    reference. *)
Definition childrenOf (F : Forest) (r : ref) : list ref :=
  match deref F r with Some t => children t | None => [] end.

Definition parentOf (F : Forest) (r : ref) : option ref :=
  match deref F r with Some t => parent t | None => None end.

Definition nodeIdOf (F : Forest) (r : ref) : option jsstring :=
  match deref F r with Some t => nodeId t | None => None end.

(** A container element's declared parent id resolves when it is the id of
    a container of the set. *)
Definition resolves (ids : list jsstring) (n : Element) : bool :=
  truthy (attr_parent n) && ids_has ids (attr_parent n).

(** What the element [n] adds to the children of the tree node [r]. *)
Definition attached (ids : list jsstring) (r : ref) (n : Element)
    : list ref :=
  (if ref_eqb r RootRef && negb (resolves ids n)
   then [CacheRef (id n)] else []) ++
  (if ref_eqb r (CacheRef (prop_key (attr_parent n)))
   then [CacheRef (id n)] else []).

(** The last element of the list that has the id [k]. *)
Fixpoint lastElement (k : jsstring) (nodes : list Element)
    : option Element :=
  match nodes with
  | [] => None
  | n :: nodes' =>
      match lastElement k nodes' with
      | Some m => Some m
      | None => if str_eqb k (id n) then Some n else None
      end
  end.

(** The number of times a node is listed among the children of [r]. *)
Definition countChild (F : Forest) (r child : ref) : nat :=
  length (filter (ref_eqb child) (childrenOf F r)).

(** The tree nodes from a node upwards, the node itself first. *)
Fixpoint upward (fuel : nat) (F : Forest) (r : option ref)
    : option (list TreeNode) :=
  match r with
  | None => Some []
  | Some r =>
      match fuel with
      | O => None
      | S fuel' =>
          match deref F r with
          | None => None
          | Some t => option_map (cons t) (upward fuel' F (parent t))
          end
      end
  end.

(** A tree node that stands for a container of the document (the root and
    the placeholders have no id). *)
Definition isContainer (t : TreeNode) : bool := truthy (nodeId t).

(** The values of the containers among the given nodes, outermost
    first. *)
Definition chainValues (nodes : list TreeNode) : list Cell :=
  rev (map (fun t => cell_of (value t)) (filter isContainer nodes)).

(** The number of container ancestors above a node (root excluded). *)
Definition containerAncestors (fuel : nat) (F : Forest) (r : ref)
    : option nat :=
  match deref F r with
  | None => None
  | Some t =>
      option_map (fun above => length (filter isContainer above))
                 (upward fuel F (parent t))
  end.

(** The spec's [maxContainerDepth]: the greatest number of container
    ancestors above any container node. *)
Fixpoint greatestContainerAncestors (fuel : nat) (F : Forest)
    (l : list ref) : option nat :=
  match l with
  | [] => Some 0
  | r :: l' =>
      match deref F r, containerAncestors fuel F r,
            greatestContainerAncestors fuel F l' with
      | Some t, Some n, Some m =>
          Some (if isContainer t then Nat.max n m else m)
      | _, _, _ => None
      end
  end.



(** What the flattener reads of a tree node. *)
Definition shape (t : TreeNode) : option ref * option jsstring * option jsstring :=
  (parent t, nodeId t, value t).

(** The question references of the assumptions are below [n]. *)
Definition validRefs (n : nat) (l : list Assumption) : Prop :=
  forall a i, In a l -> In i (a_questions a) -> i < n.

(** The forests the container extractor builds: a node without parent
    has no id, a node with a parent has one. *)
Record wellFormed (F : Forest) : Prop := mkWellFormed {
  tops_anonymous : forall r t,
    deref F r = Some t -> parent t = None -> isContainer t = false;
  inner_named : forall r t,
    deref F r = Some t -> parent t <> None -> isContainer t = true
}.

End Spec.

(* ===================================================================== *)
(** ** Example documents *)
(* ===================================================================== *)

Module Docs.

Import Dom Parsers Transformers Exporters.

Local Open Scope string_scope.
Local Open Scope list_scope.

(** A stand-in for [htmlDecode] on values that hold no entities and whose
    markup is plain tags: the text outside the tags. *)
Fixpoint textOutsideTags (inTag : bool) (s : jsstring) : jsstring :=
  match s with
  | [] => []
  | c :: s' =>
      if inTag then textOutsideTags (negb (c =? Regex.chr_gt)%N) s'
      else if (c =? Regex.chr_lt)%N then textOutsideTags true s'
      else c :: textOutsideTags false s'
  end.

Definition plainText (s : jsstring) : jsstring := textOutsideTags false s.

Definition cell (id : string) (style value parent : option string)
    : Element :=
  mkElement (Some (js id)) (option_map js style) (option_map js value)
            (option_map js parent) None None None.

(** A cell without [id] attribute. *)
Definition anonymous (value : string) : Element :=
  mkElement None None (Some (js value)) (Some (js "1")) None None None.

Definition edge (id source target : string) : Element :=
  mkElement (Some (js id)) None None (Some (js "1")) (Some (js "1"))
            (Some (js source)) (Some (js target)).

Definition layers : list Element :=
  [cell "0" None None None; cell "1" None None (Some "0")].

(** One container, one assumption in it, one question with two
    sub-questions, linked by an edge. *)
Definition widget : Document :=
  layers ++
  [cell "C1" (Some "swimlane;container=1;") (Some "Group") (Some "1");
   cell "n1" None (Some "A: Widget works") (Some "C1");
   cell "n2" None
        (Some "Q: Header<br>- Does it scale?<br>- Is it fast?") (Some "1");
   edge "e1" "n2" "n1"].

(** The same without the container. *)
Definition widgetNoContainer : Document :=
  layers ++
  [cell "n1" None (Some "A: Widget works") (Some "1");
   cell "n2" None
        (Some "Q: Header<br>- Does it scale?<br>- Is it fast?") (Some "1");
   edge "e1" "n2" "n1"].

(** A container inside a container, with an assumption in the inner
    one and another in the outer one. *)
Definition nested : Document :=
  layers ++
  [cell "C1" (Some "swimlane;container=1;") (Some "Outer") (Some "1");
   cell "C2" (Some "swimlane;container=1;") (Some "Inner") (Some "C1");
   cell "n1" None (Some "A(a1): Deep") (Some "C2");
   cell "n2" None (Some "A: Shallow") (Some "C1")].

(** Two cells declare the explicit id [x]; the first has no [id]. *)
Definition anonymousDuplicate : Document :=
  layers ++ [anonymous "A(x): first"; cell "n2" None (Some "A(x): second")
                                           (Some "1")].

(** Two cells with an [id] declare the explicit id [x]. *)
Definition duplicate : Document :=
  layers ++ [cell "n1" None (Some "A(x): first") (Some "1");
             cell "n2" None (Some "A(x): second") (Some "1")].

(** Two container elements with the id [C], one in each of the
    containers [P1] and [P2]. *)
Definition repeatedContainer : Document :=
  layers ++
  [cell "P1" (Some "swimlane;container=1;") (Some "One") (Some "1");
   cell "P2" (Some "swimlane;container=1;") (Some "Two") (Some "1");
   cell "C" (Some "swimlane;container=1;") (Some "First") (Some "P1");
   cell "C" (Some "swimlane;container=1;") (Some "Second") (Some "P2")].


(** The containers of a document, none when the extractor does not
    return. *)
Definition containersOf (document : Document) : Containers :=
  match parseContainers document with
  | Normal c => c
  | _ => mkContainers emptyForest []
  end.


(** The questions with their edges, none when the edge loop does not
    return. *)
Definition linked (questionNodes : list Question) (edges : list Element)
    : list Question :=
  match linkEdges questionNodes edges with
  | Normal qs => qs
  | _ => []
  end.

Definition noData : Data := mkData (mkContainers emptyForest []) [] [].

(** The linked data of a document, as the exporter receives it. *)
Definition dataOf (document : Document) : Data :=
  match Cli.transformedData plainText document with
  | Normal d => d
  | _ => noData
  end.

End Docs.

(* ===================================================================== *)
(** ** Further vocabulary and example inputs *)
(* ===================================================================== *)

Module More.

Import Dom Parsers Transformers Exporters Spec.

(** A document with the root element [mxfile] and the given diagram
    texts. *)
Definition mxfileDocument (diagrams : list jsstring) : Codec.XmlDocument :=
  Codec.mkXmlDocument
    (Some (Codec.mkXmlElement (js "mxfile") diagrams)).

(** Stand-in libraries whose parser knows one file, an [mxfile] with two
    diagrams, and answers [parsererror] to every other text. *)
Definition stored (text : jsstring) : jsstring := 0%N :: text.

Definition mxfileText : jsstring :=
  js "<mxfile><diagram>" ++ stored (js "abc") ++ js "</diagram><diagram>"
  ++ stored (js "xyz") ++ js "</diagram></mxfile>".

Definition fileLibs : Codec.Libs :=
  Examples.standInLibs
    (fun xml => if str_eqb xml mxfileText
                then Some (mxfileDocument [stored (js "abc");
                                           stored (js "xyz")])
                else Examples.lenientParseXml xml).

(** [node.getAttribute('value') || ''] *)
Definition valueOf (n : Element) : jsstring :=
  match attr_value n with
  | Some v => if truthy_str v then v else []
  | None => []
  end.

(** What identifies a tree node: its element, id, value and parent. *)
Definition header (t : TreeNode)
    : option Element * option jsstring * option jsstring * option ref :=
  (node t, nodeId t, value t, parent t).

Definition headerOf (F : Forest) (r : ref) :=
  option_map header (deref F r).

(** The header of the tree node of a container element. *)
Definition containerHeader (n : Element) :=
  (Some n, Some (id n), Some (valueOf n),
   Some (CacheRef (prop_key (attr_parent n)))).

(** Some element of the list names [k] as its parent. *)
Definition namedAsParent (k : jsstring) (nodes : list Element) : bool :=
  existsb (fun n => str_eqb k (prop_key (attr_parent n))) nodes.

(** A container that names itself as its parent. *)
Definition selfContained : Document :=
  Docs.layers ++
  [Docs.cell "C1" (Some "swimlane;container=1;"%string)
             (Some "Loop"%string) (Some "C1"%string);
   Docs.cell "n1" None (Some "A: Inside"%string) (Some "C1"%string)].

(** The first assumption of the linked data of [Docs.nested], the forest
    it lies in, and the rows the flattener emits for it. *)
Definition blankAssumption : Assumption :=
  mkAssumption (Docs.cell "" None None None) [] [] [] [] [] None [] None.

Definition deepAssumption : Assumption :=
  nth 0 (assumptions (Docs.dataOf Docs.nested)) blankAssumption.

Definition nestedForest : Forest :=
  forest (containers (Docs.dataOf Docs.nested)).

Definition deepBlock : list Row :=
  match assumptionRows 10 nestedForest [] (Num 2) deepAssumption with
  | Some block => block
  | None => []
  end.

(** [Enclosing F c nodes]: [nodes] are the tree nodes around an
    assumption whose container is [c], innermost first: the tree node
    [c], then its parent, and so on up to a tree node without parent. *)
Inductive Enclosing (F : Forest) : option ref -> list TreeNode -> Prop :=
| Enclosing_none : Enclosing F None []
| Enclosing_next (r : ref) (t : TreeNode) (above : list TreeNode) :
    deref F r = Some t ->
    Enclosing F (parent t) above ->
    Enclosing F (Some r) (t :: above).


(** The text [(id)] of a captured id, nothing without one. *)
Definition idText (prefixId : option jsstring) : jsstring :=
  match prefixId with
  | Some i => Regex.chr_lpar :: i ++ [Regex.chr_rpar]
  | None => []
  end.

Definition starts_with_space (s : jsstring) : bool :=
  match s with c :: _ => Regex.is_space c | [] => false end.

(** [s] reads: [pre], then the match of the prefix pattern -- nothing
    or [>], the prefix in either case, an optional id in parentheses, a
    colon and white space -- then [rest]. *)
Definition prefixMatch (prefix pre : jsstring) (prefixId : option jsstring)
    (rest s : jsstring) : Prop :=
  exists lead name ws,
    s = pre ++ lead ++ name ++ idText prefixId
        ++ Regex.chr_colon :: ws ++ rest /\
    (lead = [] /\ pre = [] \/ lead = [Regex.chr_gt]) /\
    map Regex.canonicalize name = map Regex.canonicalize prefix /\
    match prefixId with
    | Some i => i <> [] /\ forallb Regex.is_word i = true
    | None => True
    end /\
    forallb Regex.is_space ws = true /\
    starts_with_space rest = false.

(** [node.getAttribute('value') || ''] as the prefix extractor reads it. *)
Definition rawValueOf (n : Element) : jsstring :=
  match attr_value n with Some v => v | None => [] end.

(** The elements the prefix extractor keeps: those with an id whose
    decoded value matches the prefix pattern. *)
Definition matches (htmlDecode : jsstring -> jsstring) (prefix : jsstring)
    (n : Element) : bool :=
  truthy_str (id n) && x_match (extractPrefixFromNode htmlDecode n prefix).

(** The id the decoded value of an element declares, if any. *)
Definition declaredId (htmlDecode : jsstring -> jsstring)
    (prefix : jsstring) (n : Element) : option jsstring :=
  x_prefixId (extractPrefixFromNode htmlDecode n prefix).

(** What an entity records of its element. *)
Definition recordOf (htmlDecode : jsstring -> jsstring) (prefix : jsstring)
    (p : PrefixedNode) : Prop :=
  p_nodeId p = id (p_node p) /\
  p_prefix p = prefix /\
  p_rawValue p = rawValueOf (p_node p) /\
  p_value p = cleanup prefix (htmlDecode (rawValueOf (p_node p))).

(** The id of an entity: the declared one, or a generated token. *)
Definition idOrigin (htmlDecode : jsstring -> jsstring) (prefix : jsstring)
    (p : PrefixedNode) : Prop :=
  match declaredId htmlDecode prefix (p_node p) with
  | Some pid => p_prefixId p = pid
  | None => exists k, 1 <= k /\ p_prefixId p = autoId k
  end.

Definition entitiesOf (document : Document) (prefix : jsstring)
    : list PrefixedNode :=
  match findPrefixedNodes Docs.plainText document prefix with
  | Normal ps => ps
  | _ => []
  end.

(** Whether the sub-question separator matches somewhere in [s]. *)
Fixpoint has_br (s : jsstring) : bool :=
  match s with
  | [] => false
  | _ :: s1 =>
      match Regex.match_br_at s with
      | Some _ => true
      | None => has_br s1
      end
  end.

(** The assumption known under a node id: with several assumptions of
    that node id, the last one. *)
Fixpoint assumptionFor_from (i : nat) (l : list Assumption) (k : jsstring)
    : option nat :=
  match l with
  | [] => None
  | a :: l' =>
      match assumptionFor_from (S i) l' k with
      | Some j => Some j
      | None => if str_eqb k (a_nodeId a) then Some i else None
      end
  end.

(** The assumptions a question points to, one per target id that is the
    node id of an assumption, in the order of its [targetIds]. *)
Definition targetsOf (l : list Assumption) (q : Question) : list nat :=
  flat_map (fun t => match assumptionFor_from 0 l (prop_key t) with
                     | Some ai => [ai]
                     | None => []
                     end)
           (q_targetIds q).

(** The questions that point to assumption [i]: question by question,
    once for each of the question's targets that is the assumption. *)
Definition askedBy (l : list Assumption) (qs : list Question) (i : nat)
    : list nat :=
  flat_map (fun jq => map (fun _ => fst jq)
                          (filter (fun ai => Nat.eqb ai i)
                                  (targetsOf l (snd jq))))
           (combine (seq 0 (length qs)) qs).

(** What a target id finds in the linker's cache of assumptions. *)
Definition resolve (cache : JsObject.t nat) (t : option jsstring)
    : list nat :=
  match JsObject.get (prop_key t) cache with
  | Some ai => [ai]
  | None => []
  end.

(** The target ids among [ts] that find assumption [i]. *)
Definition hits (cache : JsObject.t nat) (i : nat)
    (ts : list (option jsstring)) : list nat :=
  filter (fun ai => Nat.eqb ai i) (flat_map (resolve cache) ts).

(** [a.questions.push(...l)] *)
Definition withQuestions (l : list nat) (a : Assumption) : Assumption :=
  mkAssumption (a_node a) (a_nodeId a) (a_prefix a) (a_prefixId a)
    (a_value a) (a_rawValue a) (a_parentId a) (a_questions a ++ l)
    (a_container a).

(** [q.assumptions = q.assumptions || []; q.assumptions.push(...l)] for a
    non-empty [l]; nothing for an empty one. *)
Definition withAssumptions (l : list nat) (q : Question) : Question :=
  match l with
  | [] => q
  | _ :: _ =>
      mkQuestion (q_node q) (q_nodeId q) (q_prefix q) (q_prefixId q)
        (q_value q) (q_rawValue q) (q_questions q) (q_targetIds q)
        (Some (match q_assumptions q with Some o => o | None => [] end
               ++ l))
  end.

(** The list a question holds in [assumptions], empty when undefined. *)
Definition assumptionsOf (q : Question) : list nat :=
  match q_assumptions q with Some l => l | None => [] end.

(** The data of a document as the parsers return it, before linking. *)
Definition parsedOf (document : Document) : Data :=
  match parseContainers document,
        parseAssumptions Docs.plainText document,
        parseQuestions Docs.plainText document with
  | Normal c, Normal a, Normal q => mkData c a q
  | _, _, _ => Docs.noData
  end.

(** The data after each transformer, none when it does not return. *)
Definition questionsLinked (data : Data) : Data :=
  match transformConnectQuestions data with
  | Normal d => d
  | _ => Docs.noData
  end.

Definition containersLinked (data : Data) : Data :=
  match transformConnectContainers data with
  | Normal d => d
  | _ => Docs.noData
  end.







(** *** Keys that name members of [Object.prototype] *)

(** A container element whose id and parent attribute, the two keys
    under which the extractor reads its cache for it, name no member of
    [Object.prototype]. *)
Definition ordinary (n : Element) : bool :=
  negb (JsObject.inherited (id n)) &&
  negb (JsObject.inherited (prop_key (attr_parent n))).

(** No own key of the container cache names a member of
    [Object.prototype]. *)
Definition ownOnly (F : Forest) : Prop :=
  forall k, JsObject.get k (containerCache F) <> None ->
            JsObject.inherited k = false.

(** The key [k] names a member of [Object.prototype] and is none of the
    own keys [keys] of an object: reading it from the object gives the
    member. *)
Definition stray (keys : list jsstring) (k : jsstring) : bool :=
  JsObject.inherited k && negb (existsb (str_eqb k) keys).

(** The question linker meets no member of [Object.prototype]: no
    assumption is cached under [__proto__], and no target id of a
    question reads a member from the cache of assumptions. *)
Definition questionLinkerReturns (data : Data) : bool :=
  let keys := map a_nodeId (assumptions data) in
  negb (existsb (str_eqb (js "__proto__")) keys) &&
  forallb (fun t => negb (stray keys (prop_key t)))
          (flat_map q_targetIds (questions data)).

(** The container linker meets no member of [Object.prototype]: no tree
    node is cached under [__proto__], and no parent id of an assumption
    reads a member from the cache of tree nodes. *)
Definition containerLinkerReturns (data : Data) : bool :=
  let F := forest (containers data) in
  let keys := map (fun r => prop_key (nodeIdOf F r))
                  (all (containers data)) in
  negb (existsb (str_eqb (js "__proto__")) keys) &&
  forallb (fun p => negb (stray keys (prop_key p)))
          (map a_parentId (assumptions data)).

(** An element none of whose attributes used as keys, its id, parent,
    source and target, names a member of [Object.prototype]. *)
Definition ordinaryNames (n : Element) : bool :=
  negb (JsObject.inherited (id n)) &&
  negb (JsObject.inherited (prop_key (attr_parent n))) &&
  negb (JsObject.inherited (prop_key (attr_source n))) &&
  negb (JsObject.inherited (prop_key (attr_target n))).

(** A container whose parent attribute is [toString], and a container
    whose id is [constructor]. *)
Definition parentToString : Document :=
  Docs.layers ++
  [Docs.cell "C1" (Some "swimlane;container=1;"%string)
             (Some "Group"%string) (Some "toString"%string);
   Docs.cell "n1" None (Some "A: Widget works"%string) (Some "C1"%string)].

Definition idConstructor : Document :=
  Docs.layers ++
  [Docs.cell "constructor" (Some "swimlane;container=1;"%string)
             (Some "Group"%string) (Some "1"%string);
   Docs.cell "n1" None (Some "A: Widget works"%string)
             (Some "constructor"%string)].

End More.
(* ===================================================================== *)
(** * Properties *)
(* ===================================================================== *)

Unset Implicit Arguments.

(** ** Strings *)

Lemma str_eqb_eq (a b : jsstring) : str_eqb a b = true <-> a = b.
Proof.
  revert b; induction a as [|x a IH]; intros [|y b]; simpl;
    try (split; [discriminate | congruence]); try tauto.
  rewrite andb_true_iff, N.eqb_eq, IH. split.
  - intros [-> ->]; reflexivity.
  - intros H; injection H; auto.
Qed.

Lemma str_eqb_refl (a : jsstring) : str_eqb a a = true.
Proof. apply str_eqb_eq; reflexivity. Qed.

Lemma str_eqb_neq (a b : jsstring) : str_eqb a b = false <-> a <> b.
Proof.
  rewrite <- str_eqb_eq. destruct (str_eqb a b); split; congruence.
Qed.

Lemma str_eqb_sym (a b : jsstring) : str_eqb a b = str_eqb b a.
Proof.
  destruct (str_eqb a b) eqn:E.
  - apply str_eqb_eq in E; subst; symmetry; apply str_eqb_refl.
  - symmetry. apply str_eqb_neq. apply str_eqb_neq in E. congruence.
Qed.

(* ===================================================================== *)
(** ** Codec *)
(* ===================================================================== *)

Section CodecProperties.

Import Codec.

Lemma Uint8Array_from_fromCharCode (b : list Byte.byte) :
  Uint8Array_from (fromCharCode b) = b.
Proof.
  unfold Uint8Array_from, fromCharCode. rewrite map_map.
  rewrite <- (map_id b) at 2. apply map_ext. intros x.
  rewrite N.mod_small by (apply Byte.to_N_bounded
                          || (pose proof (Byte.to_N_bounded x); lia)).
  rewrite Byte.of_to_N. reflexivity.
Qed.

Lemma length_pos_nonempty {A} (l : list A) :
  (0 <? length l) = match l with [] => false | _ => true end.
Proof. destruct l; reflexivity. Qed.


Lemma fromCharCode_Uint8Array (s : jsstring) :
  Examples.latin1 s = true -> fromCharCode (Uint8Array_from s) = s.
Proof.
  unfold Examples.latin1, fromCharCode, Uint8Array_from.
  induction s as [|c s IH]; simpl; [reflexivity|].
  rewrite andb_true_iff, N.ltb_lt. intros [Hc Hs].
  rewrite IH by assumption. f_equal.
  rewrite N.mod_small by assumption.
  destruct (Byte.of_N c) as [b|] eqn:E.
  - apply Byte.to_of_N; assumption.
  - apply Byte.of_N_None_iff in E. lia.
Qed.

Lemma ascii7_latin1 (s : jsstring) :
  Examples.ascii7 s = true -> Examples.latin1 s = true.
Proof.
  unfold Examples.ascii7, Examples.latin1. rewrite !forallb_forall.
  intros H c Hc. specialize (H c Hc). rewrite N.ltb_lt in *. lia.
Qed.

Lemma latin1_fromCharCode (b : list Byte.byte) :
  Examples.latin1 (fromCharCode b) = true.
Proof.
  unfold Examples.latin1, fromCharCode. apply forallb_forall.
  intros c Hc. apply in_map_iff in Hc as [x [<- _]].
  apply N.ltb_lt. pose proof (Byte.to_N_bounded x). lia.
Qed.

Lemma standInLibs_lawful (parser : jsstring -> option XmlDocument) :
  Lawful (Examples.standInLibs parser).
Proof.
  constructor; simpl.
  - intros x e H. destruct (Examples.ascii7 x) eqn:E; [|discriminate].
    injection H as <-. rewrite E. reflexivity.
  - intros; discriminate.
  - intros x e b H Hb. destruct (Examples.ascii7 x) eqn:E; [|discriminate].
    injection H as <-. injection Hb as <-. split; [|discriminate].
    rewrite fromCharCode_Uint8Array by (apply ascii7_latin1; assumption).
    reflexivity.
  - intros b. rewrite latin1_fromCharCode. discriminate.
  - intros s p H. destruct (Examples.latin1 s) eqn:E; [|discriminate].
    injection H as <-. rewrite E. reflexivity.
Qed.

Lemma hexValue_hexDigit (n : N) :
  (n < 16)%N -> Examples.hexValue (Examples.hexDigit n) = Some n.
Proof.
  intros Hn. unfold Examples.hexValue, Examples.hexDigit.
  destruct (n <? 10)%N eqn:E.
  - apply N.ltb_lt in E.
    assert (E1 : ((48 <=? 48 + n) && (48 + n <=? 57))%N = true)
      by (apply andb_true_iff; split; apply N.leb_le; lia).
    rewrite E1. f_equal. lia.
  - apply N.ltb_ge in E.
    assert (E1 : ((48 <=? 87 + n) && (87 + n <=? 57))%N = false)
      by (apply andb_false_iff; right; apply N.leb_gt; lia).
    assert (E2 : ((97 <=? 87 + n) && (87 + n <=? 102))%N = true)
      by (apply andb_true_iff; split; apply N.leb_le; lia).
    rewrite E1, E2. f_equal. lia.
Qed.

Lemma hexDecode_hexEncode (s : jsstring) :
  Examples.latin1 s = true ->
  Examples.hexDecode (Examples.hexEncode s) = Some s.
Proof.
  unfold Examples.latin1. induction s as [|c s IH]; [reflexivity|].
  cbn [forallb]. rewrite andb_true_iff, N.ltb_lt. intros [Hc Hs].
  cbn [Examples.hexEncode Examples.hexDecode].
  rewrite !hexValue_hexDigit, (IH Hs).
  - f_equal. f_equal. rewrite (N.div_mod c 16) at 3 by lia. reflexivity.
  - apply N.mod_lt. lia.
  - apply N.Div0.div_lt_upper_bound. lia.
Qed.

Lemma hexLibs_lawful (parser : jsstring -> option XmlDocument) :
  Lawful (Examples.hexLibs parser).
Proof.
  pose proof (standInLibs_lawful parser) as HS.
  constructor; simpl.
  - apply (uri_inverse HS).
  - intros; discriminate.
  - apply (deflate_inverse HS).
  - intros b. rewrite latin1_fromCharCode. discriminate.
  - intros s p H. destruct (Examples.latin1 s) eqn:E; [|discriminate].
    injection H as <-. apply hexDecode_hexEncode. exact E.
Qed.

Lemma withArgumentsLimit_lawful (limit : N) (L : Libs) :
  Lawful L -> Lawful (Examples.withArgumentsLimit limit L).
Proof. intros [H1 H2 H3 H4 H5]. constructor; assumption. Qed.

(** Run the stages whose results are the given hypotheses. *)
Ltac stage H := rewrite H; cbv beta iota.

(** C7. A codec stage that throws makes the whole call return [null]
    (after the stage's diagnostic is logged), whatever the earlier stages
    produced; data is returned only when every enabled stage succeeded, and
    it is then the last stage's output. The deflate stage of the encoder
    throws when the deflater throws and also when the deflated bytes are
    more than one call of [String.fromCharCode] takes as arguments. The
    deflate stage is skipped on empty data: the inflater (deflater) is
    not consulted when the data reaching that stage is empty. *)
Theorem codec_stage_failure_returns_null
    (L : Libs) (data : jsstring) (options : option Options) :
  let o := match options with Some o => o | None => noOptions end in
  let b64 (d : jsstring) : option jsstring := if flag (base64 o) then atob L d else Some d in
  let inf (d : jsstring) : option jsstring := if flag (deflate o) && (0 <? length d)
               then inflateRaw L (Uint8Array_from d) else Some d in
  let url (d : jsstring) : option jsstring := if flag (urlEncode o) then decodeURIComponent L d
               else Some d in
  let enc (d : jsstring) : option jsstring := if flag (urlEncode o) then encodeURIComponent L d
               else Some d in
  let def (d : jsstring) : option jsstring := if flag (deflate o) && (0 <? length d)
               then match deflateRaw L d with
                    | Some bytes =>
                        fromCharCode_apply (argumentsLimit L) bytes
                    | None => None
                    end
               else Some d in
  let b64e (d : jsstring) : option jsstring := if flag (base64 o) then btoa L d else Some d in
  (* decodeDrawio *)
  (unwrapDocument L data = None ->
     decodeDrawio L data options = Null ParseXmlError) /\
  (forall d1, unwrapDocument L data = Some d1 -> b64 d1 = None ->
     decodeDrawio L data options = Null AtobFailed) /\
  (forall d1 d2, unwrapDocument L data = Some d1 -> b64 d1 = Some d2 ->
     inf d2 = None ->
     decodeDrawio L data options = Null InflateRawFailed) /\
  (forall d1 d2 d3, unwrapDocument L data = Some d1 -> b64 d1 = Some d2 ->
     inf d2 = Some d3 -> url d3 = None ->
     decodeDrawio L data options = Null DecodeURIComponentFailed) /\
  (forall r, decodeDrawio L data options = Returned r ->
     exists d1 d2 d3, unwrapDocument L data = Some d1 /\ b64 d1 = Some d2 /\
                      inf d2 = Some d3 /\ url d3 = Some r) /\
  (forall d1, unwrapDocument L data = Some d1 -> b64 d1 = Some [] ->
     forall f, decodeDrawio (withInflateRaw f L) data options
               = decodeDrawio L data options) /\
  (* encodeDrawio *)
  (enc data = None ->
     encodeDrawio L data options = Null EncodeURIComponentFailed) /\
  (forall e1, enc data = Some e1 -> def e1 = None ->
     encodeDrawio L data options = Null DeflateRawFailed) /\
  (forall e1, enc data = Some e1 -> flag (deflate o) = true -> e1 <> [] ->
     deflateRaw L e1 = None ->
     encodeDrawio L data options = Null DeflateRawFailed) /\
  (forall e1 bytes, enc data = Some e1 -> flag (deflate o) = true ->
     e1 <> [] -> deflateRaw L e1 = Some bytes ->
     (argumentsLimit L < N.of_nat (length bytes))%N ->
     encodeDrawio L data options = Null DeflateRawFailed) /\
  (forall e1 e2, enc data = Some e1 -> def e1 = Some e2 -> b64e e2 = None ->
     encodeDrawio L data options = Null BtoaFailed) /\
  (forall r, encodeDrawio L data options = Returned r ->
     exists e1 e2, enc data = Some e1 /\ def e1 = Some e2 /\
                   b64e e2 = Some r) /\
  (enc data = Some [] ->
     forall f, encodeDrawio (withDeflateRaw f L) data options
               = encodeDrawio L data options).
Proof.
  intros o b64 inf url enc def b64e.
  subst o b64 inf url enc def b64e.
  unfold decodeDrawio, encodeDrawio, try_stage. cbv beta zeta.
  set (o := match options with Some o => o | None => noOptions end).
  repeat split.
  - intros ->. reflexivity.
  - intros d1 H1 H2. stage H1. stage H2. reflexivity.
  - intros d1 d2 H1 H2 H3. stage H1. stage H2. stage H3. reflexivity.
  - intros d1 d2 d3 H1 H2 H3 H4. stage H1. stage H2. stage H3. stage H4.
    reflexivity.
  - intros r.
    destruct (unwrapDocument L data) as [d1|]; [|discriminate].
    destruct (if flag (base64 o) then atob L d1 else @Some jsstring d1)
      as [d2|] eqn:E2; [|discriminate].
    destruct (if flag (deflate o) && (0 <? length d2)
              then inflateRaw L (Uint8Array_from d2) else @Some jsstring d2)
      as [d3|] eqn:E3; [|discriminate].
    destruct (if flag (urlEncode o) then decodeURIComponent L d3
              else @Some jsstring d3) as [r'|] eqn:E4; [|discriminate].
    intros H; injection H as ->. exists d1, d2, d3. auto.
  - intros d1 H1 H2 f.
    change (unwrapDocument (withInflateRaw f L) data)
      with (unwrapDocument L data).
    rewrite H1. simpl atob. rewrite H2. simpl.
    rewrite andb_false_r. reflexivity.
  - intros ->. reflexivity.
  - intros e1 H1 H2. stage H1. stage H2. reflexivity.
  - intros e1 H1 Hd Hne H2. stage H1. rewrite Hd, H2.
    destruct e1; [congruence | reflexivity].
  - intros e1 bytes H1 Hd Hne H2 Hlong. stage H1. rewrite Hd, H2.
    unfold fromCharCode_apply. apply N.leb_gt in Hlong. rewrite Hlong.
    destruct e1; [congruence | reflexivity].
  - intros e1 e2 H1 H2 H3. stage H1. stage H2. stage H3. reflexivity.
  - intros r.
    destruct (if flag (urlEncode o) then encodeURIComponent L data
              else @Some jsstring data) as [e1|] eqn:E1; [|discriminate].
    destruct (if flag (deflate o) && (0 <? length e1)
              then match deflateRaw L e1 with
                   | Some bytes =>
                       fromCharCode_apply (argumentsLimit L) bytes
                   | None => None
                   end
              else @Some jsstring e1) as [e2|] eqn:E2; [|discriminate].
    destruct (if flag (base64 o) then btoa L e2 else @Some jsstring e2)
      as [r'|] eqn:E3; [|discriminate].
    intros H; injection H as ->. exists e1, e2. auto.
  - intros H f. simpl encodeURIComponent. rewrite H. simpl.
    rewrite andb_false_r. reflexivity.
Qed.

Lemma codec_stage_failure_witness :
  decodeDrawio Examples.brokenAtobLibs (js "SwQA") None = Null AtobFailed.
Proof.
  destruct (codec_stage_failure_returns_null Examples.brokenAtobLibs
              (js "SwQA") None) as (_ & H & _).
  apply (H (js "SwQA")); reflexivity.
Defined.

(** C1, as amended. With the default options, and libraries that satisfy
    their laws, a text that survives percent-encoding is encoded to a
    payload whenever the deflated bytes are few enough to be passed as the
    arguments of one call, and to [null] when they are too many. Decoding
    that payload returns the text, provided the document-unwrap stage
    hands the payload on unchanged (its XML parser accepts the payload
    without throwing and finds no [mxfile] root with a [diagram] in it);
    where the parser throws on the payload, decoding returns [null]. *)
Theorem roundtrip_when_unwrap_passes
    (L : Libs) (HL : Lawful L) (x e : jsstring) (b : list Byte.byte)
    (He : encodeURIComponent L x = Some e)
    (Hb : deflateRaw L e = Some b) :
  (e = [] \/ (N.of_nat (length b) <= argumentsLimit L)%N ->
   exists payload,
     encodeDrawio L x None = Returned payload /\
     (unwrapDocument L payload = Some payload ->
      decodeDrawio L payload None = Returned x) /\
     (parseXml L payload = None ->
      decodeDrawio L payload None = Null ParseXmlError)) /\
  (e <> [] -> (argumentsLimit L < N.of_nat (length b))%N ->
   encodeDrawio L x None = Null DeflateRawFailed).
Proof.
  assert (Hnull : forall payload, parseXml L payload = None ->
            decodeDrawio L payload None = Null ParseXmlError).
  { intros payload Hp. unfold decodeDrawio, try_stage, unwrapDocument.
    rewrite Hp. reflexivity. }
  split.
  - intros Hfit.
    unfold encodeDrawio, decodeDrawio, try_stage. simpl. rewrite He.
    destruct e as [|c e].
    + simpl.
      destruct (btoa L []) as [p|] eqn:Hp;
        [|exfalso; apply (btoa_total HL []); exact Hp].
      exists p. split; [reflexivity|]. split; [|apply Hnull].
      intros ->.
      rewrite (base64_inverse HL _ Hp). simpl.
      rewrite (uri_inverse HL _ He). reflexivity.
    + cbn [length Nat.ltb Nat.leb]. rewrite Hb.
      destruct Hfit as [Hnil|Hfit]; [discriminate|].
      unfold fromCharCode_apply. apply N.leb_le in Hfit. rewrite Hfit.
      cbv iota.
      destruct (btoa L (fromCharCode b)) as [p|] eqn:Hp;
        [|exfalso; apply (btoa_total HL b); exact Hp].
      exists p. split; [reflexivity|]. split; [|apply Hnull].
      intros ->.
      rewrite (base64_inverse HL _ Hp).
      destruct (deflate_inverse HL _ He Hb) as [Hi Hne].
      rewrite Uint8Array_from_fromCharCode, Hi.
      destruct b as [|b0 b]; [congruence|]. simpl.
      rewrite (uri_inverse HL _ He). reflexivity.
  - intros Hne Hlong.
    unfold encodeDrawio, try_stage. simpl. rewrite He.
    destruct e as [|c e]; [congruence|].
    cbn [length Nat.ltb Nat.leb]. rewrite Hb.
    unfold fromCharCode_apply. apply N.leb_gt in Hlong. rewrite Hlong.
    reflexivity.
Qed.

Lemma roundtrip_witness :
  encodeDrawio Examples.browserLibs (js "<mxGraphModel/>") None
    = Returned (0%N :: js "<mxGraphModel/>") /\
  decodeDrawio Examples.browserLibs (0%N :: js "<mxGraphModel/>") None
    = Returned (js "<mxGraphModel/>").
Proof.
  destruct (roundtrip_when_unwrap_passes Examples.browserLibs
              (standInLibs_lawful Examples.lenientParseXml)
              (js "<mxGraphModel/>") (js "<mxGraphModel/>")
              (Byte.x00 :: Uint8Array_from (js "<mxGraphModel/>"))
              eq_refl eq_refl) as [H _].
  destruct H as [p [He [Hd _]]].
  - right. vm_compute. discriminate.
  - assert (Hp : p = (0%N :: js "<mxGraphModel/>")).
    { vm_compute in He. injection He as <-. reflexivity. }
    subst p. split; [reflexivity | apply Hd; reflexivity].
Defined.

(** C1, as stated, fails where the XML parser of the unwrap stage throws
    on text that has no root element (the jsdom branch of [parseXml]): a
    markup text survives percent-encoding and is encoded to a payload of
    letters and digits, and decoding that payload returns [null]. It
    fails again where the deflated bytes are too many for one call:
    there the encoder itself returns [null]. *)
Lemma roundtrip_fails_under_strict_parser :
  (Lawful Examples.nodeLibs /\
   encodeURIComponent Examples.nodeLibs (js "<mxGraphModel/>") <> None /\
   exists payload,
     encodeDrawio Examples.nodeLibs (js "<mxGraphModel/>") None
     = Returned payload /\
     decodeDrawio Examples.nodeLibs payload None = Null ParseXmlError) /\
  (Lawful (Examples.withArgumentsLimit 8 Examples.browserLibs) /\
   encodeURIComponent (Examples.withArgumentsLimit 8 Examples.browserLibs)
     (js "<mxGraphModel/>") <> None /\
   encodeDrawio (Examples.withArgumentsLimit 8 Examples.browserLibs)
     (js "<mxGraphModel/>") None = Null DeflateRawFailed).
Proof.
  split.
  - split; [apply hexLibs_lawful|]. split; [discriminate|].
    eexists. split; vm_compute; reflexivity.
  - split; [apply withArgumentsLimit_lawful, standInLibs_lawful|].
    split; [discriminate | vm_compute; reflexivity].
Qed.

End CodecProperties.

(* ===================================================================== *)
(** ** Table flattener *)
(* ===================================================================== *)

Section FlattenerProperties.

Import Dom Parsers Transformers Exporters Spec.

Lemma flatMapRows_blocks fuel F qs m (l : list Assumption) rows :
  flatMapRows fuel F qs m l = Some rows ->
  exists blocks,
    Forall2 (fun a b => assumptionRows fuel F qs m a = Some b) l blocks /\
    rows = concat blocks.
Proof.
  revert rows; induction l as [|a l IH]; simpl; intros rows H.
  - injection H as <-. exists []. split; constructor.
  - destruct (assumptionRows fuel F qs m a) as [b|] eqn:Ea; [|discriminate].
    destruct (flatMapRows fuel F qs m l) as [rs|]; [|discriminate].
    injection H as <-. destruct (IH rs eq_refl) as [blocks [HF ->]].
    exists (b :: blocks). split; [constructor; assumption | reflexivity].
Qed.

Lemma flatMapRows_total fuel F qs m (l : list Assumption) :
  (forall a, In a l -> assumptionRows fuel F qs m a <> None) ->
  flatMapRows fuel F qs m l <> None.
Proof.
  induction l as [|a l IH]; simpl; intros H; [discriminate|].
  destruct (assumptionRows fuel F qs m a) eqn:Ea.
  - destruct (flatMapRows fuel F qs m l) eqn:El; [discriminate|].
    exfalso. apply IH; auto.
  - exfalso. apply (H a); auto.
Qed.

Lemma seq_rows_spec {A} (f : nat -> A) (pre texts : list jsstring) :
  Forall2 (fun it row =>
             row = f (fst it) /\
             nth_error (pre ++ texts) (fst it) = Some (snd it))
          (combine (seq (length pre) (length texts)) texts)
          (map f (seq (length pre) (length texts))).
Proof.
  revert pre; induction texts as [|t texts IH]; intros pre; simpl;
    constructor.
  - split; [reflexivity|]. simpl.
    rewrite nth_error_app2, Nat.sub_diag by lia. reflexivity.
  - specialize (IH (pre ++ [t])).
    rewrite length_app, Nat.add_1_r, <- app_assoc in IH. exact IH.
Qed.

Lemma Forall2_flat_map {A B C} (P : B -> C -> Prop)
    (f : A -> list B) (g : A -> list C) (l : list A) :
  (forall x, In x l -> Forall2 P (f x) (g x)) ->
  Forall2 P (flat_map f l) (flat_map g l).
Proof.
  induction l as [|x l IH]; simpl; intros H; [constructor|].
  apply Forall2_app; [apply H; auto | apply IH; auto].
Qed.

Lemma questionRows_pairs a cs linked :
  Forall2 (fun p row =>
             row = createRow a cs (Some (fst (fst p))) (Some (snd (fst p)))
             /\ nth_error (q_questions (fst (fst p))) (snd (fst p))
                = Some (snd p))
          (subquestionPairs linked)
          (flat_map (questionRows a cs) linked).
Proof.
  unfold subquestionPairs. apply Forall2_flat_map. intros q _.
  unfold questionRows.
  generalize (seq_rows_spec (fun i => createRow a cs (Some q) (Some i))
                [] (q_questions q)).
  simpl.
  generalize (combine (seq 0 (length (q_questions q))) (q_questions q)).
  generalize (map (fun i => createRow a cs (Some q) (Some i))
                  (seq 0 (length (q_questions q)))).
  intros rows its H. induction H as [|it row its rows [H1 H2] _ IH];
    simpl; constructor; auto.
Qed.

Lemma derefQuestions_count qs l linked :
  derefQuestions qs l = Some linked ->
  list_sum (map (fun q => length (q_questions q)) linked)
  = list_sum (map (fun i => match nth_error qs i with
                            | Some q => length (q_questions q)
                            | None => 0
                            end) l).
Proof.
  revert linked; induction l as [|i l IH]; simpl; intros linked H.
  - injection H as <-. reflexivity.
  - destruct (nth_error qs i) as [q|]; [|discriminate].
    destruct (derefQuestions qs l) as [r|]; [|discriminate].
    injection H as <-. simpl. rewrite (IH r eq_refl). reflexivity.
Qed.

Lemma flat_map_questionRows_length a cs linked :
  length (flat_map (questionRows a cs) linked)
  = list_sum (map (fun q => length (q_questions q)) linked).
Proof.
  induction linked as [|q linked IH]; simpl; [reflexivity|].
  rewrite length_app, IH. unfold questionRows.
  rewrite length_map, length_seq. reflexivity.
Qed.

Lemma assumptionRows_block fuel F qs m a block :
  assumptionRows fuel F qs m a = Some block -> blockOf qs a block.
Proof.
  unfold assumptionRows. intros H.
  destruct (containerChain fuel F (a_container a) []) as [chain|];
    [|discriminate].
  destruct (derefQuestions qs (a_questions a)) as [linked|] eqn:El;
    [|discriminate].
  injection H as <-.
  exists linked. eexists. eexists. split; [exact El|].
  split; [reflexivity|]. repeat (split; [reflexivity|]).
  split.
  - eapply Forall2_impl; [|apply questionRows_pairs].
    intros [[q i] t] row [-> Ht]. simpl in *. rewrite Ht.
    repeat split; reflexivity.
  - simpl. rewrite flat_map_questionRows_length. unfold rowCount.
    rewrite (derefQuestions_count _ _ _ El). reflexivity.
Qed.


Lemma Forall2_in_l {A B} (P Q : A -> B -> Prop) (l : list A) (l' : list B) :
  (forall a b, In a l -> P a b -> Q a b) ->
  Forall2 P l l' -> Forall2 Q l l'.
Proof.
  intros H HF. induction HF; constructor.
  - apply H; [left; reflexivity | assumption].
  - apply IHHF. intros a b Ha. apply H. right; assumption.
Qed.

Lemma blocks_length (qs : list Question) (l : list Assumption)
    (blocks : list (list Row)) :
  Forall2 (blockOf qs) l blocks ->
  length (concat blocks) = list_sum (map (rowCount qs) l).
Proof.
  induction 1 as [|a b l blocks Hb _ IH]; simpl; [reflexivity|].
  rewrite length_app, IH.
  destruct Hb as (linked & first & rest & _ & _ & _ & _ & _ & _ & _ & _ & Hl).
  rewrite Hl. reflexivity.
Qed.

Lemma doFormatCsv_no_containers (fuel : nat) (data : Data) :
  all (containers data) = [] -> doFormatCsv fuel data = Abrupt RangeError.
Proof.
  intros H. unfold doFormatCsv, maxContainerDepth. rewrite H. reflexivity.
Qed.

(** C3, as amended. A linked graph whose containers list is empty gives
    no row at all: the flattener throws a [RangeError]. For a linked
    graph with at least one tree node in that list: when the depth loop
    has produced [maxContainerDepth] (a number, which it is only when
    that list is not empty), that number is an array length, and the
    container chains and question references of the assumptions are
    finite and valid, the flattener returns the header followed, per
    assumption in iteration order, by one row with [questionId],
    [subquestionId] and [question] all [null], then one row per (linked
    question, sub-question index) pair in link order and parse order,
    whose [subquestionId] is
    ["<assumptionPrefix>(<assumptionId>):<questionPrefix>(<questionId>):<index+1>"];
    the number of data rows is the sum over the assumptions of one plus
    the sub-question counts of the linked questions. *)
Theorem flattening_rows (fuel : nat) (data : Data) :
  (all (containers data) = [] ->
   doFormatCsv fuel data = Abrupt RangeError) /\
  (forall m,
   maxContainerDepth fuel data = Normal (Num m) ->
   all (containers data) <> []) /\
  (forall m,
   maxContainerDepth fuel data = Normal (Num m) ->
   (N.of_nat m <= 4294967295)%N ->
   (forall a, In a (assumptions data) ->
      containerChain fuel (forest (containers data)) (a_container a) []
      <> None) ->
   (forall a, In a (assumptions data) ->
      derefQuestions (questions data) (a_questions a) <> None) ->
   exists header blocks,
     doFormatCsv fuel data = Normal (header :: concat blocks) /\
     Forall2 (blockOf (questions data)) (assumptions data) blocks /\
     length (concat blocks)
     = list_sum (map (rowCount (questions data)) (assumptions data))).
Proof.
  split; [apply doFormatCsv_no_containers|]. split.
  { intros m Hm E. unfold maxContainerDepth in Hm. rewrite E in Hm.
    discriminate. }
  intros m Hm Hsmall Hchain Hrefs. unfold doFormatCsv. rewrite Hm. simpl.
  unfold csvHeaders, Array_indices.
  apply N.leb_le in Hsmall. rewrite Hsmall. simpl.
  destruct (flatMapRows fuel (forest (containers data)) (questions data)
              (Num m) (assumptions data)) as [rows|] eqn:Er.
  - destruct (flatMapRows_blocks _ _ _ _ _ _ Er) as [blocks [HF ->]].
    assert (HB : Forall2 (blockOf (questions data)) (assumptions data)
                         blocks).
    { eapply Forall2_impl; [|exact HF].
      intros a b. apply assumptionRows_block. }
    eexists. exists blocks. split; [reflexivity|]. split; [exact HB|].
    apply blocks_length; assumption.
  - exfalso. revert Er. apply flatMapRows_total. intros a Ha.
    unfold assumptionRows.
    specialize (Hchain a Ha). specialize (Hrefs a Ha).
    destruct (containerChain fuel (forest (containers data))
                (a_container a) []); [|congruence].
    destruct (derefQuestions (questions data) (a_questions a));
      [discriminate | congruence].
Qed.

(** Conversely, whatever table the flattener returns has that layout. *)
Lemma returned_table_layout (fuel : nat) (data : Data) (table : list Row) :
  doFormatCsv fuel data = Normal table ->
  exists header blocks,
    table = header :: concat blocks /\
    Forall2 (blockOf (questions data)) (assumptions data) blocks /\
    length (concat blocks)
    = list_sum (map (rowCount (questions data)) (assumptions data)).
Proof.
  unfold doFormatCsv.
  destruct (maxContainerDepth fuel data) as [m|e| |k]; simpl; try discriminate.
  destruct (csvHeaders m) as [headers|e| |k]; simpl; try discriminate.
  destruct (flatMapRows fuel (forest (containers data)) (questions data)
              m (assumptions data)) as [rows|] eqn:Er; [|discriminate].
  intros H; injection H as <-.
  destruct (flatMapRows_blocks _ _ _ _ _ _ Er) as [blocks [HF ->]].
  assert (HB : Forall2 (blockOf (questions data)) (assumptions data) blocks).
  { eapply Forall2_impl; [|exact HF]. intros a b. apply assumptionRows_block. }
  exists headers, blocks. split; [reflexivity|]. split; [exact HB|].
  apply blocks_length; assumption.
Qed.

Lemma flattening_rows_witness :
  exists header blocks,
    doFormatCsv 10 (Docs.dataOf Docs.widget)
    = Normal (header :: concat blocks) /\
    Forall2 (blockOf (questions (Docs.dataOf Docs.widget)))
            (assumptions (Docs.dataOf Docs.widget)) blocks /\
    length (concat blocks) = 3.
Proof.
  apply (proj2 (proj2 (flattening_rows 10 (Docs.dataOf Docs.widget))) 1).
  - reflexivity.
  - vm_compute. discriminate.
  - intros a Ha. vm_compute in Ha.
    destruct Ha as [<-|[]]. vm_compute. discriminate.
  - intros a Ha. vm_compute in Ha.
    destruct Ha as [<-|[]]. vm_compute. discriminate.
Defined.

(** C3, as stated, fails for a linked graph without containers: the
    widget with its assumption and its question of two sub-questions,
    outside any container, should give three rows, but the flattener
    throws before it builds any row. *)
Lemma rows_are_missing_without_containers :
  list_sum (map (rowCount (questions (Docs.dataOf Docs.widgetNoContainer)))
                (assumptions (Docs.dataOf Docs.widgetNoContainer))) = 3 /\
  forall fuel,
    doFormatCsv fuel (Docs.dataOf Docs.widgetNoContainer)
    = Abrupt RangeError.
Proof.
  split; [vm_compute; reflexivity|].
  intros fuel. apply doFormatCsv_no_containers. vm_compute. reflexivity.
Qed.

(** C10. When the container extraction produced no tree node, the
    maximum over the empty list of depths is [-Infinity], which is not an
    array length: building the header throws a [RangeError] and no table
    is produced. *)
Theorem flattener_fails_without_containers (fuel : nat) (data : Data) :
  all (containers data) = [] ->
  maxContainerDepth fuel data = Normal NegInfinity /\
  csvHeaders NegInfinity = Abrupt RangeError /\
  doFormatCsv fuel data = Abrupt RangeError.
Proof.
  intros H. split; [|split].
  - unfold maxContainerDepth. rewrite H. reflexivity.
  - reflexivity.
  - apply doFormatCsv_no_containers. exact H.
Qed.

Lemma flattener_fails_without_containers_witness :
  doFormatCsv 10 (Docs.dataOf Docs.widgetNoContainer) = Abrupt RangeError.
Proof.
  apply (flattener_fails_without_containers 10
           (Docs.dataOf Docs.widgetNoContainer)).
  reflexivity.
Defined.

End FlattenerProperties.

(* ===================================================================== *)
(** ** Prefix extractor *)
(* ===================================================================== *)

Section IdGenerator.

Import Parsers.

Lemma set_has_In (x : jsstring) (s : list jsstring) :
  set_has x s = true <-> In x s.
Proof.
  unfold set_has. rewrite existsb_exists. split.
  - intros [y [Hy E]]. apply str_eqb_eq in E. subst. assumption.
  - intros H. exists x. split; [assumption | apply str_eqb_refl].
Qed.

Lemma set_has_add (x y : jsstring) (s : list jsstring) :
  set_has x (set_add y s) = str_eqb x y || set_has x s.
Proof.
  unfold set_add. destruct (set_has y s) eqn:E.
  - destruct (str_eqb x y) eqn:Exy; [|reflexivity].
    apply str_eqb_eq in Exy. subst. rewrite E. reflexivity.
  - unfold set_has. rewrite existsb_app. simpl.
    rewrite orb_false_r. apply orb_comm.
Qed.

Lemma js_injective (s t : string) : js s = js t -> s = t.
Proof.
  unfold js. intros H.
  rewrite <- (string_of_list_ascii_of_string s),
          <- (string_of_list_ascii_of_string t).
  f_equal. revert H.
  generalize (list_ascii_of_string s) (list_ascii_of_string t).
  induction l as [|a l IH]; intros [|b l']; simpl; try discriminate;
    [reflexivity|].
  intros H. injection H as Hab Hl. f_equal; [|apply IH; assumption].
  rewrite <- (ascii_N_embedding a), <- (ascii_N_embedding b), Hab.
  reflexivity.
Qed.

Lemma decimal_injective (n m : nat) : decimal n = decimal m -> n = m.
Proof.
  unfold decimal. intros H. apply js_injective in H.
  assert (E : Some (Nat.to_uint n) = Some (Nat.to_uint m)).
  { rewrite <- !NilEmpty.usu, H. reflexivity. }
  injection E as E.
  rewrite <- (DecimalNat.Unsigned.of_to n), <- (DecimalNat.Unsigned.of_to m), E.
  reflexivity.
Qed.

Lemma autoId_injective (n m : nat) : autoId n = autoId m -> n = m.
Proof.
  unfold autoId. intros H. apply app_inv_head in H.
  apply decimal_injective; assumption.
Qed.

Lemma genNextId_loop_none fuel idGenFn counter cache :
  genNextId_loop fuel idGenFn counter cache = None ->
  forall k, k < fuel -> In (idGenFn (counter + k)) cache.
Proof.
  revert counter; induction fuel as [|fuel IH]; intros counter H k Hk;
    [lia|].
  simpl in H. destruct (set_has (idGenFn counter) cache) eqn:E;
    [|discriminate].
  destruct k as [|k].
  - rewrite Nat.add_0_r. apply set_has_In; assumption.
  - replace (counter + S k) with (S counter + k) by lia.
    apply IH; [assumption | lia].
Qed.

Lemma genNextId_loop_some fuel idGenFn counter cache c n :
  genNextId_loop fuel idGenFn counter cache = Some (c, n) ->
  set_has c cache = false.
Proof.
  revert counter; induction fuel as [|fuel IH]; intros counter H;
    [discriminate|].
  simpl in H. destruct (set_has (idGenFn counter) cache) eqn:E.
  - eapply IH; eassumption.
  - injection H as <- _. assumption.
Qed.

(** The loop of the id generator terminates: among [length idCache + 1]
    consecutive candidates of an injective generator one is unused. *)
Lemma genNextId_loop_terminates idGenFn counter cache :
  (forall n m, idGenFn n = idGenFn m -> n = m) ->
  genNextId_loop (S (length cache)) idGenFn counter cache <> None.
Proof.
  intros Hinj H.
  pose proof (genNextId_loop_none _ _ _ _ H) as Hall.
  set (cands := map (fun k => idGenFn (counter + k))
                    (seq 0 (S (length cache)))).
  assert (Hnd : NoDup cands).
  { unfold cands. apply Finite.Injective_map_NoDup; [|apply seq_NoDup].
    intros a b E. apply Hinj in E. lia. }
  assert (Hincl : incl cands cache).
  { intros x Hx. unfold cands in Hx. apply in_map_iff in Hx.
    destruct Hx as [k [<- Hk]]. apply in_seq in Hk. apply Hall. lia. }
  pose proof (NoDup_incl_length Hnd Hincl) as Hlen.
  unfold cands in Hlen. rewrite length_map, length_seq in Hlen. lia.
Qed.

End IdGenerator.

Section PrefixExtractor.

Import Dom Parsers.

Variable htmlDecode : jsstring -> jsstring.

Lemma genNextId_spec st c st' :
  genNextId (S (length (seenIds st))) autoId st = Some (c, st') ->
  set_has c (seenIds st) = false /\
  seenIds st' = set_add c (seenIds st).
Proof.
  unfold genNextId.
  destruct (genNextId_loop (S (length (seenIds st))) autoId
              (autoIdCounter st) (seenIds st)) as [[c' n']|] eqn:E;
    [|discriminate].
  intros H. injection H as <- <-. split; [|reflexivity].
  eapply genNextId_loop_some; eassumption.
Qed.

Lemma genNextId_total st :
  genNextId (S (length (seenIds st))) autoId st <> None.
Proof.
  unfold genNextId.
  destruct (genNextId_loop (S (length (seenIds st))) autoId
              (autoIdCounter st) (seenIds st)) as [[c' n']|] eqn:E;
    [discriminate|].
  exfalso. revert E. apply genNextId_loop_terminates.
  exact autoId_injective.
Qed.

Lemma parseNode_spec prefix st n :
  ParseNodeSpec htmlDecode prefix st n (parseNode htmlDecode prefix st n).
Proof.
  unfold parseNode.
  set (x := extractPrefixFromNode htmlDecode n prefix).
  destruct (x_match x) eqn:Em; simpl; [|apply parse_no_match; assumption].
  destruct (x_prefixId x) as [pid|] eqn:Ep; simpl.
  - destruct (set_has pid (seenIds st)) eqn:Es; simpl.
    + apply parse_duplicate with (pid := pid); assumption.
    + destruct (truthy_str pid) eqn:Et; simpl.
      * apply parse_fresh; fold x; trivial; simpl.
        -- rewrite Ep. intros pid' H. injection H as <-.
           rewrite set_has_add, str_eqb_refl. auto.
        -- rewrite set_has_add, str_eqb_refl. reflexivity.
        -- intros y Hy. rewrite set_has_add, Hy. apply orb_true_r.
      * set (st1 := mkIdState (autoIdCounter st) (set_add pid (seenIds st))).
        destruct (genNextId _ autoId st1)
          as [[c st2]|] eqn:Eg;
          [|exfalso; exact (genNextId_total _ Eg)].
        simpl. destruct (genNextId_spec _ _ _ Eg) as [Hc Hs].
        unfold st1 in Hc, Hs; simpl in Hc, Hs.
        rewrite set_has_add in Hc. apply orb_false_iff in Hc as [_ Hc].
        apply parse_fresh; fold x; trivial.
        -- rewrite Ep. intros pid' H. injection H as <-.
           rewrite Hs, !set_has_add, str_eqb_refl, orb_true_r. auto.
        -- rewrite Hs, set_has_add, str_eqb_refl. reflexivity.
        -- intros y Hy. rewrite Hs, !set_has_add, Hy, !orb_true_r.
           reflexivity.
  - destruct (genNextId (S (length (seenIds st))) autoId st)
      as [[c st2]|] eqn:Eg;
      [|exfalso; exact (genNextId_total _ Eg)].
    simpl. destruct (genNextId_spec _ _ _ Eg) as [Hc Hs].
    apply parse_fresh; fold x; trivial.
    + rewrite Ep. discriminate.
    + rewrite Hs, set_has_add, str_eqb_refl. reflexivity.
    + intros y Hy. rewrite Hs, set_has_add, Hy. apply orb_true_r.
Qed.


Lemma findStep_abrupt prefix e n :
  findStep htmlDecode prefix (Abrupt e) n = Abrupt e.
Proof. reflexivity. Qed.

Lemma fold_findStep_abrupt prefix e l :
  fold_left (findStep htmlDecode prefix) l (Abrupt e) = Abrupt e.
Proof. induction l; simpl; auto. Qed.

Lemma findStep_skip prefix (acc : Completion (IdState * list PrefixedNode)) n :
  truthy_str (id n) = false -> findStep htmlDecode prefix acc n = acc.
Proof.
  intros H. unfold findStep. destruct acc as [[st agg]| | |]; simpl; trivial.
  rewrite H. reflexivity.
Qed.

Lemma fold_findStep_filter prefix l (acc : Completion (IdState * list PrefixedNode)) :
  fold_left (findStep htmlDecode prefix)
            (filter (fun n => truthy_str (id n)) l) acc
  = fold_left (findStep htmlDecode prefix) l acc.
Proof.
  revert acc; induction l as [|n l IH]; intros acc; simpl; [reflexivity|].
  destruct (truthy_str (id n)) eqn:E; simpl.
  - apply IH.
  - rewrite findStep_skip by assumption. apply IH.
Qed.

Lemma filter_comm {A} (p q : A -> bool) (l : list A) :
  filter p (filter q l) = filter q (filter p l).
Proof.
  induction l as [|x l IH]; simpl; [reflexivity|].
  destruct (p x) eqn:Ep, (q x) eqn:Eq; simpl;
    rewrite ?Ep, ?Eq, IH; reflexivity.
Qed.

Lemma FindInv_step prefix processed (acc : Completion (IdState * list PrefixedNode)) n :
  FindInv htmlDecode prefix processed acc ->
  FindInv htmlDecode prefix (processed ++ [n]) (findStep htmlDecode prefix acc n).
Proof.
  destruct acc as [[st agg]|e| |k]; simpl; [|auto|auto|auto].
  intros (Hnd & Hagg & Hseen).
  destruct (truthy_str (id n)) eqn:Eid; simpl.
  - destruct (parseNode_spec prefix st n)
      as [Hm | pid Hm Hp Hs | st' fid Hm Hexp Hfresh Hin Hmono]; simpl.
    + split; [assumption|]. split.
      * intros p Hp. destruct (Hagg p Hp) as (H1 & H2 & H3 & H4).
        repeat split; trivial. apply in_or_app; auto.
      * intros n' pid Hn' Hid Hm' Hp'. apply in_app_or in Hn' as [Hn'|Hn'].
        -- eapply Hseen; eassumption.
        -- destruct Hn' as [<-|[]]. congruence.
    + exists pid. reflexivity.
    + split; [|split].
      * rewrite map_app. simpl. apply NoDup_app; [assumption | | ].
        -- constructor; [intros [] | constructor].
        -- intros y Hy [<-|[]]. apply in_map_iff in Hy as [p [Ey Hp]].
           destruct (Hagg p Hp) as (H1 & _). simpl in Ey. congruence.
      * intros p Hp. apply in_app_or in Hp as [Hp|[<-|[]]].
        -- destruct (Hagg p Hp) as (H1 & H2 & H3 & H4).
           repeat split; trivial; [apply Hmono; assumption|].
           apply in_or_app; auto.
        -- simpl. repeat split; trivial. apply in_or_app; simpl; auto.
      * intros n' pid Hn' Hid Hm' Hp'. apply in_app_or in Hn' as [Hn'|Hn'].
        -- apply Hmono. eapply Hseen; eassumption.
        -- destruct Hn' as [<-|[]]. apply (Hexp pid Hp').
  - split; [assumption|]. split.
    + intros p Hp. destruct (Hagg p Hp) as (H1 & H2 & H3 & H4).
      repeat split; trivial. apply in_or_app; auto.
    + intros n' pid Hn' Hid Hm' Hp'. apply in_app_or in Hn' as [Hn'|Hn'].
      * eapply Hseen; eassumption.
      * destruct Hn' as [<-|[]]. congruence.
Qed.

Lemma FindInv_fold prefix l processed (acc : Completion (IdState * list PrefixedNode)) :
  FindInv htmlDecode prefix processed acc ->
  FindInv htmlDecode prefix (processed ++ l)
          (fold_left (findStep htmlDecode prefix) l acc).
Proof.
  revert processed acc; induction l as [|n l IH]; intros processed acc H;
    simpl.
  - rewrite app_nil_r. assumption.
  - replace (processed ++ n :: l) with ((processed ++ [n]) ++ l)
      by (rewrite <- app_assoc; reflexivity).
    apply IH. apply FindInv_step. assumption.
Qed.

Lemma FindInv_init prefix : FindInv htmlDecode prefix [] (Normal (initIdState, [])).
Proof.
  simpl. split; [constructor|]. split; [intros p []|intros n pid []].
Qed.

(** A second declaration of an explicit id makes the reducer throw. *)
Lemma findStep_duplicate prefix processed (acc : Completion (IdState * list PrefixedNode)) n1 n2 pid :
  FindInv htmlDecode prefix processed acc ->
  In n1 processed -> truthy_str (id n1) = true ->
  x_match (extractPrefixFromNode htmlDecode n1 prefix) = true ->
  x_prefixId (extractPrefixFromNode htmlDecode n1 prefix) = Some pid ->
  truthy_str (id n2) = true ->
  x_match (extractPrefixFromNode htmlDecode n2 prefix) = true ->
  x_prefixId (extractPrefixFromNode htmlDecode n2 prefix) = Some pid ->
  exists pid', findStep htmlDecode prefix acc n2
               = Abrupt (DuplicateNode prefix pid').
Proof.
  intros Hinv Hin Hid1 Hm1 Hp1 Hid2 Hm2 Hp2.
  destruct acc as [[st agg]|e| |k]; simpl in *.
  - destruct Hinv as (_ & _ & Hseen).
    pose proof (Hseen n1 pid Hin Hid1 Hm1 Hp1) as Hs.
    rewrite Hid2. simpl.
    destruct (parseNode_spec prefix st n2)
      as [Hm | pid' Hm Hp Hs' | st' fid Hm Hexp Hfresh Hin' Hmono]; simpl.
    + congruence.
    + exists pid'. reflexivity.
    + destruct (Hexp pid Hp2). congruence.
  - destruct Hinv as [pid' ->]. exists pid'. reflexivity.
  - contradiction.
  - contradiction.
Qed.


Lemma findPrefixedNodes_inv document prefix :
  FindInv htmlDecode prefix (querySelectorAll sel_value document)
    (fold_left (findStep htmlDecode prefix)
               (querySelectorAll sel_value document)
               (Normal (initIdState, []))).
Proof.
  apply (FindInv_fold prefix _ [] _ (FindInv_init prefix)).
Qed.

(** C9. An element without [id] (the attribute is missing or empty)
    yields no entity, whatever its value: removing such elements from the
    document does not change the result of [findPrefixedNodes] (no entity,
    no id consumed, no error), and every entity returned belongs to an
    element of the document that has an id, which is its [nodeId]. *)
Theorem idless_nodes_are_skipped (document : Document) (prefix : jsstring) :
  findPrefixedNodes htmlDecode document prefix
  = findPrefixedNodes htmlDecode
      (filter (fun n => truthy_str (id n)) document) prefix /\
  (forall ps, findPrefixedNodes htmlDecode document prefix = Normal ps ->
     forall p, In p ps ->
       truthy_str (id (p_node p)) = true /\
       In (p_node p) document /\
       p_nodeId p = id (p_node p)).
Proof.
  split.
  - unfold findPrefixedNodes, querySelectorAll.
    rewrite filter_comm, fold_findStep_filter. reflexivity.
  - intros ps H p Hp. unfold findPrefixedNodes in H.
    pose proof (findPrefixedNodes_inv document prefix) as Hinv.
    destruct (fold_left (findStep htmlDecode prefix)
                (querySelectorAll sel_value document)
                (Normal (initIdState, []))) as [[st agg]|e| |k];
      simpl in H; try discriminate.
    injection H as <-. destruct Hinv as (_ & Hagg & _).
    destruct (Hagg p Hp) as (_ & H2 & H3 & H4).
    repeat split; trivial.
    unfold querySelectorAll in H3. apply filter_In in H3. tauto.
Qed.

(** C4, as amended. The [prefixId] values returned by one call of
    [findPrefixedNodes] are pairwise distinct; if two nodes that both
    carry an [id] declare the same explicit id under the prefix, the call
    throws the duplicate-node error and returns no entity; and the call
    always finishes. *)
Theorem prefix_ids_are_unique (document : Document) (prefix : jsstring) :
  (forall ps, findPrefixedNodes htmlDecode document prefix = Normal ps ->
     NoDup (map p_prefixId ps)) /\
  (forall d1 n1 d2 n2 d3 pid,
     document = d1 ++ n1 :: d2 ++ n2 :: d3 ->
     declares htmlDecode prefix n1 pid -> truthy_str (id n1) = true ->
     declares htmlDecode prefix n2 pid -> truthy_str (id n2) = true ->
     exists pid', findPrefixedNodes htmlDecode document prefix
                  = Abrupt (DuplicateNode prefix pid')) /\
  findPrefixedNodes htmlDecode document prefix <> NoResult.
Proof.
  split; [|split].
  - intros ps H. unfold findPrefixedNodes in H.
    pose proof (findPrefixedNodes_inv document prefix) as Hinv.
    destruct (fold_left (findStep htmlDecode prefix)
                (querySelectorAll sel_value document)
                (Normal (initIdState, []))) as [[st agg]|e| |k];
      simpl in H; try discriminate.
    injection H as <-. apply Hinv.
  - intros d1 n1 d2 n2 d3 pid -> (Hv1 & Hm1 & Hp1) Hid1 (Hv2 & Hm2 & Hp2) Hid2.
    unfold findPrefixedNodes, querySelectorAll.
    rewrite filter_app. simpl. rewrite Hv1, filter_app. simpl. rewrite Hv2.
    set (l1 := filter sel_value d1). set (l2 := filter sel_value d2).
    set (l3 := filter sel_value d3).
    replace (l1 ++ n1 :: l2 ++ n2 :: l3)
      with ((l1 ++ n1 :: l2) ++ n2 :: l3)
      by (rewrite <- app_assoc; reflexivity).
    rewrite fold_left_app. simpl.
    pose proof (FindInv_fold prefix (l1 ++ n1 :: l2) [] _
                  (FindInv_init prefix)) as Hinv.
    simpl in Hinv.
    destruct (findStep_duplicate prefix _ _ n1 n2 pid Hinv) as [pid' E];
      trivial.
    { apply in_or_app. right. left. reflexivity. }
    rewrite E, fold_findStep_abrupt. exists pid'. reflexivity.
  - unfold findPrefixedNodes.
    pose proof (findPrefixedNodes_inv document prefix) as Hinv.
    destruct (fold_left (findStep htmlDecode prefix)
                (querySelectorAll sel_value document)
                (Normal (initIdState, []))) as [[st agg]|e| |k];
      simpl; try discriminate. contradiction.
Qed.

End PrefixExtractor.

Section PrefixExtractorExamples.

Import Dom Parsers.

Lemma idless_nodes_are_skipped_witness :
  exists p,
    findPrefixedNodes Docs.plainText Docs.anonymousDuplicate (js "A")
    = Normal [p] /\
    truthy_str (Dom.id (p_node p)) = true /\
    p_nodeId p = js "n2".
Proof.
  destruct (idless_nodes_are_skipped Docs.plainText Docs.anonymousDuplicate
              (js "A")) as [_ H].
  eexists. split; [reflexivity|].
  destruct (H _ eq_refl _ (or_introl eq_refl)) as (H1 & _ & H3).
  split; [exact H1 | reflexivity].
Defined.

Lemma prefix_ids_are_unique_witness :
  exists pid',
    findPrefixedNodes Docs.plainText Docs.duplicate (js "A")
    = Abrupt (DuplicateNode (js "A") pid').
Proof.
  destruct (prefix_ids_are_unique Docs.plainText Docs.duplicate (js "A"))
    as (_ & H & _).
  apply (H Docs.layers
           (Docs.cell "n1" None (Some "A(x): first"%string) (Some "1"%string))
           []
           (Docs.cell "n2" None (Some "A(x): second"%string) (Some "1"%string))
           [] (js "x")).
  - reflexivity.
  - repeat split; reflexivity.
  - reflexivity.
  - repeat split; reflexivity.
  - reflexivity.
Defined.

(** C4, as stated, fails: two nodes declare the explicit id [x] under
    the prefix [A], the first of them without [id] attribute, and the
    extraction returns an entity instead of failing. *)
Lemma duplicate_on_idless_node_is_not_detected :
  exists d1 n1 d2 n2 d3 p,
    Docs.anonymousDuplicate = d1 ++ n1 :: d2 ++ n2 :: d3 /\
    declares Docs.plainText (js "A") n1 (js "x") /\
    declares Docs.plainText (js "A") n2 (js "x") /\
    findPrefixedNodes Docs.plainText Docs.anonymousDuplicate (js "A")
    = Normal [p] /\
    p_prefixId p = js "x".
Proof.
  exists Docs.layers, (Docs.anonymous "A(x): first"), [],
         (Docs.cell "n2" None (Some "A(x): second"%string)
                    (Some "1"%string)), [].
  eexists. split; [reflexivity|].
  split; [repeat split; reflexivity|].
  split; [repeat split; reflexivity|].
  split; reflexivity.
Qed.

End PrefixExtractorExamples.

(* ===================================================================== *)
(** ** Objects used as maps *)
(* ===================================================================== *)

Section JsObjectFacts.

Context {V : Type}.

Lemma get_set (k k' : jsstring) (v : V) (o : JsObject.t V) :
  JsObject.get k (JsObject.set k' v o)
  = if str_eqb k k' then Some v else JsObject.get k o.
Proof.
  induction o as [|[k0 v0] o IH]; simpl.
  - rewrite (str_eqb_sym k k'). destruct (str_eqb k' k); reflexivity.
  - destruct (str_eqb k' k0) eqn:E0; simpl.
    + apply str_eqb_eq in E0. subst k0.
      destruct (str_eqb k k'); reflexivity.
    + rewrite IH. destruct (str_eqb k k0) eqn:E1; [|reflexivity].
      apply str_eqb_eq in E1. subst k0.
      rewrite str_eqb_sym, E0. reflexivity.
Qed.

Lemma get_update (k k' : jsstring) (f : V -> V) (o : JsObject.t V) :
  JsObject.get k (JsObject.update k' f o)
  = if str_eqb k k' then option_map f (JsObject.get k o)
    else JsObject.get k o.
Proof.
  induction o as [|[k0 v0] o IH]; simpl.
  - destruct (str_eqb k k'); reflexivity.
  - destruct (str_eqb k' k0) eqn:E0; simpl.
    + apply str_eqb_eq in E0. subst k0.
      destruct (str_eqb k k'); reflexivity.
    + rewrite IH. destruct (str_eqb k k0) eqn:E1; [|reflexivity].
      apply str_eqb_eq in E1. subst k0.
      rewrite str_eqb_sym, E0. reflexivity.
Qed.


Lemma get_In_keys (k : jsstring) (o : JsObject.t V) :
  JsObject.get k o <> None <-> In k (map fst o).
Proof.
  induction o as [|[k0 v0] o IH]; simpl; [tauto|].
  destruct (str_eqb k k0) eqn:E.
  - apply str_eqb_eq in E. subst. split; [auto | discriminate].
  - apply str_eqb_neq in E. rewrite IH. split; [auto|].
    intros [H|H]; [congruence | assumption].
Qed.

End JsObjectFacts.

Lemma nth_error_modify_nth {A} (f : A -> A) (l : list A) (i j : nat) :
  nth_error (Parsers.modify_nth i f l) j
  = if Nat.eqb i j then option_map f (nth_error l j) else nth_error l j.
Proof.
  revert i j; induction l as [|x l IH]; intros [|i] [|j]; simpl;
    try reflexivity.
  - destruct (Nat.eqb i j); reflexivity.
  - apply IH.
Qed.

Lemma length_modify_nth {A} (f : A -> A) (l : list A) (i : nat) :
  length (Parsers.modify_nth i f l) = length l.
Proof.
  revert i; induction l as [|x l IH]; intros [|i]; simpl; auto.
Qed.

(* ===================================================================== *)
(** ** The loops return what they give on own keys *)
(* ===================================================================== *)

Section OwnKeysAgree.

Import Dom Parsers Transformers.

Lemma forEach_fold {St A} (body : St -> A -> Completion St)
    (step : St -> A -> St) :
  (forall s x s', body s x = Normal s' -> s' = step s x) ->
  forall l s s', forEach body l s = Normal s' -> s' = fold_left step l s.
Proof.
  intros Hstep. induction l as [|x l IH]; intros s s'; simpl.
  - intros H; injection H as <-. reflexivity.
  - destruct (body s x) as [s1| | |] eqn:E; simpl; try discriminate.
    intros H. rewrite <- (Hstep _ _ _ E). apply IH. exact H.
Qed.




Lemma forEach_returns {St A} (body : St -> A -> Completion St) l s :
  (forall s x, body s x <> NoResult) -> forEach body l s <> NoResult.
Proof.
  intros Hb. revert s; induction l as [|x l IH]; intros s; simpl;
    [discriminate|].
  destruct (body s x) eqn:E; simpl; try discriminate; [apply IH|].
  exfalso. apply (Hb s x). exact E.
Qed.

Lemma read_get {V} (k : jsstring) (o : JsObject.t V) :
  JsObject.get k o
  = match JsObject.read k o with JsObject.Own v => Some v | _ => None end.
Proof.
  unfold JsObject.read. destruct (JsObject.get k o); [reflexivity|].
  destruct (JsObject.inherited k); reflexivity.
Qed.

Lemma ensure_own (k : jsstring) (F : Forest) :
  deref (ensure k F) (CacheRef k) <> None ->
  ensure k F = OwnKeys.ensure k F.
Proof.
  unfold ensure, OwnKeys.ensure, JsObject.read, JsObject.has.
  destruct (JsObject.get k (containerCache F)) eqn:E; [reflexivity|].
  destruct (JsObject.inherited k); [|reflexivity].
  simpl. rewrite E. congruence.
Qed.

Lemma addContainer_own ids F n F' :
  addContainer ids F n = Normal F' -> F' = OwnKeys.addContainer ids F n.
Proof.
  unfold addContainer, OwnKeys.addContainer.
  destruct (deref (ensure (id n) F) (CacheRef (id n))) eqn:E1;
    [|discriminate].
  rewrite <- (ensure_own (id n) F) by congruence.
  match goal with
  | |- match deref (ensure ?k ?G) _ with _ => _ end = _ -> _ =>
      destruct (deref (ensure k G) (CacheRef k)) eqn:E2; [|discriminate];
      rewrite <- (ensure_own k G) by congruence
  end.
  intros H; injection H as <-. reflexivity.
Qed.

Lemma parseContainers_own document C :
  parseContainers document = Normal C ->
  C = OwnKeys.parseContainers document.
Proof.
  unfold parseContainers, OwnKeys.parseContainers.
  destruct (forEach _ _ _) as [F| | |] eqn:E; simpl; try discriminate.
  intros H; injection H as <-.
  rewrite (forEach_fold _ _ (addContainer_own _) _ _ _ E). reflexivity.
Qed.

Lemma keyBy_from_own i qs o o' :
  keyBy_from i qs o = Some o' -> o' = OwnKeys.keyBy_from i qs o.
Proof.
  revert i o; induction qs as [|q qs IH]; intros i o; simpl.
  - intros H; injection H as <-. reflexivity.
  - unfold JsObject.assign. destruct (str_eqb _ _); [discriminate|].
    apply IH.
Qed.

Lemma addEdge_own qbn qs n qs' :
  addEdge qbn qs n = Normal qs' -> qs' = OwnKeys.addEdge qbn qs n.
Proof.
  unfold addEdge, OwnKeys.addEdge, edgeData, OwnKeys.edgeData.
  rewrite !read_get.
  destruct (JsObject.read (prop_key (attr_source n)) qbn) as [qi| |] eqn:Es;
    simpl.
  - rewrite Es. intros H; injection H as <-. reflexivity.
  - rewrite Es. discriminate.
  - destruct (JsObject.read (prop_key (attr_target n)) qbn) as [qi| |]
      eqn:Et; simpl.
    + rewrite Et. intros H; injection H as <-. reflexivity.
    + rewrite Et. discriminate.
    + intros H; injection H as <-. reflexivity.
Qed.

Lemma linkEdges_own qs edges qs' :
  linkEdges qs edges = Normal qs' -> qs' = OwnKeys.linkEdges qs edges.
Proof.
  unfold linkEdges, OwnKeys.linkEdges, keyBy, OwnKeys.keyBy.
  destruct (keyBy_from 0 qs []) as [qbn|] eqn:Ek; [|discriminate].
  rewrite <- (keyBy_from_own _ _ _ _ Ek).
  apply forEach_fold. apply addEdge_own.
Qed.

Lemma linkEdges_returns qs edges : linkEdges qs edges <> NoResult.
Proof.
  unfold linkEdges. destruct (keyBy qs); [|discriminate].
  apply forEach_returns. intros s n. unfold addEdge.
  destruct (edgeData _ _ _) as [[a b]|]; [|discriminate].
  destruct (JsObject.read _ _); discriminate.
Qed.

Lemma cacheBy_from_own {A} (key : A -> jsstring) i l o o' :
  cacheBy_from key i l o = Some o' -> o' = OwnKeys.cacheBy_from key i l o.
Proof.
  revert i o; induction l as [|x l IH]; intros i o; simpl.
  - intros H; injection H as <-. reflexivity.
  - unfold JsObject.assign. destruct (str_eqb _ _); [discriminate|].
    apply IH.
Qed.

Lemma connectTarget_own cache qi st t st' :
  connectTarget cache qi st t = Normal st' ->
  st' = OwnKeys.connectTarget cache qi st t.
Proof.
  unfold connectTarget, OwnKeys.connectTarget. rewrite read_get.
  destruct (JsObject.read (prop_key t) cache); try discriminate;
    intros H; injection H as <-; reflexivity.
Qed.

Lemma connectQuestions_from_own cache qi todo st st' :
  connectQuestions_from cache qi todo st = Normal st' ->
  st' = OwnKeys.connectQuestions_from cache qi todo st.
Proof.
  revert qi st; induction todo as [|q todo IH]; intros qi st; simpl.
  - intros H; injection H as <-. reflexivity.
  - destruct (forEach (connectTarget cache qi) (q_targetIds q) st)
      as [st1| | |] eqn:E; simpl; try discriminate.
    rewrite <- (forEach_fold _ _ (connectTarget_own cache qi) _ _ _ E).
    apply IH.
Qed.

Lemma transformConnectQuestions_own data data' :
  transformConnectQuestions data = Normal data' ->
  data' = OwnKeys.transformConnectQuestions data.
Proof.
  unfold transformConnectQuestions, connectQuestions,
    OwnKeys.transformConnectQuestions.
  destruct (cacheBy_from a_nodeId 0 (assumptions data) []) as [cache|]
    eqn:Ec; [|discriminate].
  rewrite <- (cacheBy_from_own _ _ _ _ _ Ec).
  destruct (connectQuestions_from cache 0 (questions data) _)
    as [st| | |] eqn:E; simpl; try discriminate.
  intros H; injection H as <-.
  rewrite <- (connectQuestions_from_own _ _ _ _ _ E). reflexivity.
Qed.

Lemma containerCache_from_own F l o o' :
  containerCache_from F l o = Some o' ->
  o' = OwnKeys.containerCache_from F l o.
Proof.
  revert o; induction l as [|r l IH]; intros o; simpl.
  - intros H; injection H as <-. reflexivity.
  - unfold JsObject.assign. destruct (str_eqb _ _); [discriminate|].
    apply IH.
Qed.

Lemma connectContainers_from_own cache ai todo F r :
  connectContainers_from cache ai todo F = Normal r ->
  r = OwnKeys.connectContainers_from cache ai todo F.
Proof.
  revert ai F r; induction todo as [|a todo IH]; intros ai F r; simpl.
  - intros H; injection H as <-. reflexivity.
  - rewrite read_get.
    destruct (JsObject.read (prop_key (a_parentId a)) cache) as [r0| |];
      try discriminate.
    + destruct (connectContainers_from cache (S ai) todo
                  (modify F r0 (push_held ai))) as [r1| | |] eqn:E;
        simpl; try discriminate.
      intros H; injection H as <-. rewrite <- (IH _ _ _ E).
      destruct r1; reflexivity.
    + destruct (connectContainers_from cache (S ai) todo F)
        as [r1| | |] eqn:E; simpl; try discriminate.
      intros H; injection H as <-. rewrite <- (IH _ _ _ E).
      destruct r1; reflexivity.
Qed.

Lemma transformConnectContainers_own data data' :
  transformConnectContainers data = Normal data' ->
  data' = OwnKeys.transformConnectContainers data.
Proof.
  unfold transformConnectContainers, OwnKeys.transformConnectContainers.
  destruct (containerCache_from (forest (containers data))
              (all (containers data)) []) as [cache|] eqn:Ec;
    [|discriminate].
  rewrite <- (containerCache_from_own _ _ _ _ Ec).
  destruct (connectContainers_from cache 0 (assumptions data)
              (forest (containers data))) as [r| | |] eqn:E; simpl;
    try discriminate.
  intros H; injection H as <-.
  rewrite <- (connectContainers_from_own _ _ _ _ _ E).
  destruct r; reflexivity.
Qed.

End OwnKeysAgree.

(* ===================================================================== *)
(** ** Question extractor: edges *)
(* ===================================================================== *)

Section EdgeResolution.

Import Dom Parsers Spec.

Lemma keyBy_from_get (k : jsstring) (qs : list Question) (i : nat)
    (o : JsObject.t nat) :
  JsObject.get k (OwnKeys.keyBy_from i qs o)
  = match questionFor_from i qs k with
    | Some j => Some j
    | None => JsObject.get k o
    end.
Proof.
  revert i o; induction qs as [|q qs IH]; intros i o; simpl; [reflexivity|].
  rewrite IH. destruct (questionFor_from (S i) qs k); [reflexivity|].
  rewrite get_set. destruct (str_eqb k (q_nodeId q)); reflexivity.
Qed.

Lemma keyBy_get (qs : list Question) (endpoint : option jsstring) :
  JsObject.get (prop_key endpoint) (OwnKeys.keyBy qs) = questionFor qs endpoint.
Proof.
  unfold OwnKeys.keyBy, questionFor. rewrite keyBy_from_get.
  destruct (questionFor_from 0 qs (prop_key endpoint)); reflexivity.
Qed.

Lemma questionFor_from_sound (qs : list Question) (k : jsstring) i j :
  questionFor_from i qs k = Some j ->
  exists q, nth_error qs (j - i) = Some q /\ q_nodeId q = k /\ i <= j.
Proof.
  revert i; induction qs as [|q qs IH]; intros i; simpl; [discriminate|].
  destruct (questionFor_from (S i) qs k) as [j'|] eqn:E.
  - intros H; injection H as ->. destruct (IH _ E) as [q' (Hq & Hk & Hle)].
    exists q'. replace (j - i) with (S (j - S i)) by lia. simpl.
    repeat split; trivial. lia.
  - destruct (str_eqb k (q_nodeId q)) eqn:Ek; [|discriminate].
    intros H; injection H as <-. exists q. rewrite Nat.sub_diag. simpl.
    apply str_eqb_eq in Ek. auto.
Qed.

Lemma questionFor_from_none (qs : list Question) (k : jsstring) i :
  questionFor_from i qs k = None <->
  (forall q, In q qs -> q_nodeId q <> k).
Proof.
  revert i; induction qs as [|q qs IH]; intros i; simpl.
  - split; [intros _ q [] | reflexivity].
  - destruct (questionFor_from (S i) qs k) as [j|] eqn:E.
    + split; [discriminate|]. intros H. exfalso.
      assert (E' : questionFor_from (S i) qs k = None)
        by (apply IH; intros q' Hq'; apply H; auto).
      congruence.
    + destruct (str_eqb k (q_nodeId q)) eqn:Ek.
      * split; [discriminate|]. intros H. exfalso.
        apply str_eqb_eq in Ek. apply (H q); auto.
      * split; [|reflexivity]. intros _ q' [<-|Hq'].
        -- apply str_eqb_neq in Ek. congruence.
        -- revert q' Hq'. apply (IH (S i)). assumption.
Qed.

Lemma appendTargets_nil (q : Question) : appendTargets [] q = q.
Proof. destruct q; unfold appendTargets; simpl. rewrite app_nil_r. reflexivity. Qed.

Lemma appendTargets_app (a b : list (option jsstring)) (q : Question) :
  appendTargets b (appendTargets a q) = appendTargets (a ++ b) q.
Proof. unfold appendTargets; simpl. rewrite app_assoc. reflexivity. Qed.

Lemma addEdge_nth (qs cur : list Question) (n : Element) (i : nat) :
  nth_error (OwnKeys.addEdge (OwnKeys.keyBy qs) cur n) i
  = option_map (appendTargets (recordedBy qs i n)) (nth_error cur i).
Proof.
  unfold OwnKeys.addEdge, OwnKeys.edgeData, recordedBy. rewrite !keyBy_get.
  assert (Hid : forall o : option Question,
            o = option_map (appendTargets []) o).
  { intros [q|]; simpl; [rewrite appendTargets_nil|]; reflexivity. }
  destruct (questionFor qs (attr_source n)) as [j|].
  - rewrite nth_error_modify_nth. destruct (Nat.eqb j i); [reflexivity|].
    apply Hid.
  - destruct (questionFor qs (attr_target n)) as [j|]; [|apply Hid].
    rewrite nth_error_modify_nth. destruct (Nat.eqb j i); [reflexivity|].
    apply Hid.
Qed.

Lemma fold_addEdge_nth (qs : list Question) (edges : list Element)
    (cur : list Question) (i : nat) :
  nth_error (fold_left (OwnKeys.addEdge (OwnKeys.keyBy qs)) edges cur) i
  = option_map (appendTargets (flat_map (recordedBy qs i) edges))
               (nth_error cur i).
Proof.
  revert cur; induction edges as [|n edges IH]; intros cur; simpl.
  - destruct (nth_error cur i); simpl; [rewrite appendTargets_nil|];
      reflexivity.
  - rewrite IH, addEdge_nth. destruct (nth_error cur i); simpl;
      [rewrite appendTargets_app|]; reflexivity.
Qed.


Lemma keyBy_from_some (qs : list Question) (i : nat) (o : JsObject.t nat) :
  (forall q, In q qs -> q_nodeId q <> js "__proto__") ->
  keyBy_from i qs o <> None.
Proof.
  revert i o; induction qs as [|q qs IH]; intros i o Hq; simpl;
    [discriminate|].
  unfold JsObject.assign.
  destruct (str_eqb (q_nodeId q) (js "__proto__")) eqn:E.
  - apply str_eqb_eq in E. exfalso. apply (Hq q); [left; reflexivity|].
    exact E.
  - apply IH. intros q' Hq'. apply Hq. right. exact Hq'.
Qed.

Lemma forEach_addEdge_returns (qbn : JsObject.t nat) (edges : list Element)
    (cur : list Question) :
  (forall n, In n edges ->
     JsObject.inherited (prop_key (attr_source n)) = false /\
     JsObject.inherited (prop_key (attr_target n)) = false) ->
  exists qs', forEach (addEdge qbn) edges cur = Normal qs'.
Proof.
  revert cur; induction edges as [|n edges IH]; intros cur He; simpl.
  - exists cur. reflexivity.
  - destruct (He n (or_introl eq_refl)) as [Hs Ht].
    assert (Hn : exists cur', addEdge qbn cur n = Normal cur').
    { unfold addEdge, edgeData, JsObject.read. rewrite Hs, Ht.
      destruct (JsObject.get (prop_key (attr_source n)) qbn) as [qi|] eqn:Es;
        simpl.
      - rewrite Es. eexists. reflexivity.
      - destruct (JsObject.get (prop_key (attr_target n)) qbn) as [qi|]
          eqn:Et; simpl.
        + rewrite Et. eexists. reflexivity.
        + eexists. reflexivity. }
    destruct Hn as [cur' ->]. simpl. apply IH.
    intros m Hm. apply He. right. exact Hm.
Qed.




End EdgeResolution.

(* ===================================================================== *)
(** ** Prefix extractor: the cleanup *)
(* ===================================================================== *)

Section Cleanup.

Import Regex Parsers.

Lemma match_lit_length ci lit s r :
  match_lit ci lit s = Some r -> length r + length lit = length s.
Proof.
  revert s; induction lit as [|l lit IH]; intros [|c s]; simpl;
    try discriminate.
  - intros H; injection H as <-. reflexivity.
  - intros H; injection H as <-. simpl. lia.
  - destruct (if ci then _ else _); [|discriminate].
    intros H. apply IH in H. simpl. lia.
Qed.

Lemma drop_while_length p s : length (drop_while p s) <= length s.
Proof.
  induction s as [|c s IH]; simpl; [lia|].
  destruct (p c); simpl; lia.
Qed.

Lemma take_drop_while p s : take_while p s ++ drop_while p s = s.
Proof.
  induction s as [|c s IH]; simpl; [reflexivity|].
  destruct (p c); simpl; [rewrite IH|]; reflexivity.
Qed.

Lemma scan_to_gt_length s r : scan_to_gt s = Some r -> length r < length s.
Proof.
  revert r; induction s as [|c s IH]; intros r; simpl; [discriminate|].
  destruct (c =? chr_gt)%N.
  - intros H; injection H as <-. lia.
  - destruct (is_line_terminator c); [discriminate|].
    intros H. apply IH in H. lia.
Qed.

Lemma match_tag_name_length s r :
  match_tag_name s = Some r -> length r < length s.
Proof.
  unfold match_tag_name.
  destruct (match match_lit false (js "font") s with
            | Some r0 => Some r0
            | None => match_lit false (js "span") s
            end) as [s1|] eqn:E; [|discriminate].
  intros H. apply scan_to_gt_length in H.
  pose proof (drop_while_length is_space s1).
  assert (length s1 <= length s).
  { destruct (match_lit false (js "font") s) eqn:E1.
    - injection E as <-. apply match_lit_length in E1. lia.
    - apply match_lit_length in E. lia. }
  lia.
Qed.

Lemma match_tag_at_length s r :
  match_tag_at s = Some r -> length r < length s.
Proof.
  unfold match_tag_at. destruct s as [|c s1]; [discriminate|].
  destruct (c =? chr_lt)%N; [|discriminate].
  destruct (match s1 with
            | [] => None
            | d :: s2 => if (d =? chr_slash)%N then match_tag_name s2
                         else None
            end) as [r0|] eqn:E.
  - intros H; injection H as <-. destruct s1 as [|d s2]; [discriminate|].
    destruct (d =? chr_slash)%N; [|discriminate].
    apply match_tag_name_length in E. simpl. lia.
  - intros H. apply match_tag_name_length in H. simpl. lia.
Qed.

Lemma strip_tags_fuel_length fuel s :
  length (strip_tags_fuel fuel s) <= length s.
Proof.
  revert s; induction fuel as [|fuel IH]; intros s; simpl; [lia|].
  destruct (match_tag_at s) as [r|] eqn:E.
  - apply match_tag_at_length in E. specialize (IH r). lia.
  - destruct s as [|c s]; simpl; [lia|]. specialize (IH s). lia.
Qed.

(** More fuel than characters changes nothing. *)
Lemma strip_tags_fuel_stable fuel fuel' s :
  length s < fuel -> length s < fuel' ->
  strip_tags_fuel fuel s = strip_tags_fuel fuel' s.
Proof.
  revert fuel' s; induction fuel as [|fuel IH]; intros [|fuel'] s H H';
    try lia.
  simpl. destruct (match_tag_at s) as [r|] eqn:E.
  - apply match_tag_at_length in E. apply IH; lia.
  - destruct s as [|c s]; [reflexivity|]. simpl in *. f_equal.
    apply IH; lia.
Qed.

Lemma has_tag_unfold s :
  has_tag s = match match_tag_at s with
              | Some _ => true
              | None => match s with
                        | [] => false
                        | _ :: s1 => has_tag s1
                        end
              end.
Proof. destruct s; reflexivity. Qed.

Lemma strip_tags_no_tag fuel s :
  has_tag s = false -> strip_tags_fuel fuel s = s.
Proof.
  revert s; induction fuel as [|fuel IH]; intros s H; simpl; [reflexivity|].
  rewrite has_tag_unfold in H.
  destruct (match_tag_at s); [discriminate|].
  destruct s as [|c s]; [reflexivity|].
  rewrite IH by assumption. reflexivity.
Qed.

Lemma strip_tags_with_tag fuel s :
  length s < fuel -> has_tag s = true ->
  length (strip_tags_fuel fuel s) < length s.
Proof.
  revert s; induction fuel as [|fuel IH]; intros s Hf H; [lia|]. simpl.
  rewrite has_tag_unfold in H.
  destruct (match_tag_at s) as [r|] eqn:E.
  - apply match_tag_at_length in E.
    pose proof (strip_tags_fuel_length fuel r). lia.
  - destruct s as [|c s]; [discriminate|].
    simpl in *. specialize (IH s ltac:(lia) H). lia.
Qed.

Lemma match_colon_length s r : match_colon s = Some r -> length r < length s.
Proof.
  unfold match_colon. destruct s as [|c s]; [discriminate|].
  destruct (c =? chr_colon)%N; [|discriminate].
  intros H; injection H as <-.
  pose proof (drop_while_length is_space s). simpl. lia.
Qed.

Lemma match_id_group_length s id r :
  match_id_group s = Some (id, r) -> length r < length s.
Proof.
  unfold match_id_group. destruct s as [|c s]; [discriminate|].
  destruct (c =? chr_lpar)%N; [|discriminate].
  pose proof (drop_while_length is_word s).
  destruct (take_while is_word s); [discriminate|].
  destruct (drop_while is_word s) as [|d s2]; [discriminate|].
  destruct (d =? chr_rpar)%N; [|discriminate].
  intros H'; injection H' as _ <-. simpl in *. lia.
Qed.

Lemma match_prefix_body_length prefix s id r :
  match_prefix_body prefix s = Some (id, r) -> length r < length s.
Proof.
  unfold match_prefix_body.
  destruct (match_lit true prefix s) as [s1|] eqn:E1; [|discriminate].
  apply match_lit_length in E1.
  destruct (match match_id_group s1 with
            | Some (id0, s2) =>
                match match_colon s2 with
                | Some rest => Some (Some id0, rest)
                | None => None
                end
            | None => None
            end) as [[id' r']|] eqn:E2.
  - intros H; injection H as <- <-.
    destruct (match_id_group s1) as [[id0 s2]|] eqn:E3; [|discriminate].
    destruct (match_colon s2) as [rest|] eqn:E4; [|discriminate].
    injection E2 as _ <-.
    apply match_id_group_length in E3. apply match_colon_length in E4. lia.
  - destruct (match_colon s1) as [rest|] eqn:E4; [|discriminate].
    intros H; injection H as _ <-. apply match_colon_length in E4. lia.
Qed.

Lemma match_prefix_at_length b prefix s id r :
  match_prefix_at b prefix s = Some (id, r) -> length r < length s.
Proof.
  unfold match_prefix_at.
  destruct (if b then match_prefix_body prefix s else None)
    as [[id' r']|] eqn:E.
  - intros H; injection H as <- <-. destruct b; [|discriminate].
    eapply match_prefix_body_length; eassumption.
  - destruct s as [|c s1]; [discriminate|].
    destruct (c =? chr_gt)%N; [|discriminate].
    intros H. apply match_prefix_body_length in H. simpl. lia.
Qed.

Lemma exec_prefix_from_length b prefix s pre id r :
  exec_prefix_from b prefix s = Some (pre, id, r) ->
  length pre + length r < length s.
Proof.
  revert b pre; induction s as [|c s IH]; intros b pre; simpl.
  - destruct (match_prefix_at b prefix []) as [[id' r']|] eqn:E;
      [|discriminate].
    apply match_prefix_at_length in E. simpl in E. lia.
  - destruct (match_prefix_at b prefix (c :: s)) as [[id' r']|] eqn:E.
    + intros H; injection H as <- <- <-.
      apply match_prefix_at_length in E. simpl in *. lia.
    + destruct (exec_prefix_from false prefix s) as [[[pre' id'] r']|] eqn:E';
        [|discriminate].
      intros H; injection H as <- <- <-.
      apply IH in E'. simpl. lia.
Qed.

Lemma replace_prefix_length prefix s :
  length (replace_prefix prefix s) <= length s.
Proof.
  unfold replace_prefix, exec_prefix.
  destruct (exec_prefix_from true prefix s) as [[[pre id] r]|] eqn:E; [|lia].
  apply exec_prefix_from_length in E. rewrite length_app. lia.
Qed.

Lemma scan_to_gt_minus_length s r :
  scan_to_gt_minus s = Some r -> length r < length s.
Proof.
  revert r; induction s as [|c s IH]; intros r; simpl; [discriminate|].
  destruct (if (c =? chr_gt)%N
            then match s with
                 | [] => None
                 | d :: s2 => if (d =? chr_minus)%N then Some s2 else None
                 end
            else None) as [r0|] eqn:E.
  - intros H; injection H as <-.
    destruct (c =? chr_gt)%N; [|discriminate].
    destruct s as [|d s2]; [discriminate|].
    destruct (d =? chr_minus)%N; [|discriminate].
    injection E as <-. simpl. lia.
  - destruct (is_line_terminator c); [discriminate|].
    intros H. apply IH in H. lia.
Qed.

Lemma match_br_at_length s r : match_br_at s = Some r -> length r < length s.
Proof.
  unfold match_br_at.
  destruct (match_lit false (js "<br") s) as [s1|] eqn:E1; [|discriminate].
  destruct (scan_to_gt_minus s1) as [s2|] eqn:E2; [|discriminate].
  intros H; injection H as <-.
  apply match_lit_length in E1. apply scan_to_gt_minus_length in E2.
  pose proof (drop_while_length is_space s2). lia.
Qed.

(** More fuel than characters changes nothing in the split either. *)
Lemma split_br_fuel_stable fuel fuel' cur s :
  length s < fuel -> length s < fuel' ->
  split_br_fuel fuel cur s = split_br_fuel fuel' cur s.
Proof.
  revert fuel' cur s; induction fuel as [|fuel IH];
    intros [|fuel'] cur s H H'; try lia.
  simpl. destruct s as [|c s]; [reflexivity|].
  destruct (match_br_at (c :: s)) as [r|] eqn:E.
  - apply match_br_at_length in E. f_equal. apply IH; simpl in *; lia.
  - apply IH; simpl in *; lia.
Qed.

(** C8, as amended. Applying the cleanup to an already-cleaned value
    returns it unchanged exactly when the cleaned value holds no further
    font/span tag and no further prefix token. *)
Theorem cleanup_idempotent_iff (prefix value : jsstring) :
  cleanup prefix (cleanup prefix value) = cleanup prefix value <->
  has_tag (cleanup prefix value) = false /\
  has_prefix prefix (cleanup prefix value) = false.
Proof.
  generalize (cleanup prefix value). intros w.
  unfold cleanup, strip_tags, has_prefix. split.
  - intros H. destruct (has_tag w) eqn:Et.
    + exfalso.
      pose proof (strip_tags_with_tag (S (length w)) w
                    (Nat.lt_succ_diag_r _) Et) as H1.
      pose proof (replace_prefix_length prefix
                    (strip_tags_fuel (S (length w)) w)) as H2.
      rewrite H in H2. lia.
    + split; [reflexivity|].
      rewrite (strip_tags_no_tag _ _ Et) in H.
      unfold replace_prefix, exec_prefix in *.
      destruct (exec_prefix_from true prefix w) as [[[pre id] r]|] eqn:E;
        [|reflexivity].
      exfalso. apply exec_prefix_from_length in E.
      apply (f_equal (@length N)) in H. rewrite length_app in H. lia.
  - intros [Ht Hp]. rewrite (strip_tags_no_tag _ _ Ht).
    unfold replace_prefix.
    destruct (exec_prefix prefix w); [discriminate | reflexivity].
Qed.

Lemma cleanup_idempotent_witness :
  cleanup (js "A") (cleanup (js "A") (js "<font size=1>A(1): x</font>"))
  = cleanup (js "A") (js "<font size=1>A(1): x</font>").
Proof.
  apply (proj2 (cleanup_idempotent_iff (js "A")
                  (js "<font size=1>A(1): x</font>"))).
  split; reflexivity.
Defined.

(** C8, as stated, fails: the prefix token is removed once per cleanup,
    so a value with two tokens is cleaned to a value that the cleanup
    changes again. *)
Lemma cleanup_is_not_idempotent :
  cleanup (js "A") (js "A: A: x") = js "A: x" /\
  cleanup (js "A") (js "A: x") = js "x" /\
  cleanup (js "A") (cleanup (js "A") (js "A: A: x"))
  <> cleanup (js "A") (js "A: A: x").
Proof.
  split; [reflexivity|]. split; [reflexivity|]. vm_compute. discriminate.
Qed.

End Cleanup.

(* ===================================================================== *)
(** ** Container extractor *)
(* ===================================================================== *)

Section ContainerExtractor.

Import Dom Parsers Spec.

Lemma ref_eqb_eq (a b : ref) : ref_eqb a b = true <-> a = b.
Proof.
  destruct a as [|k], b as [|k']; simpl; try (split; congruence).
  rewrite str_eqb_eq. split; congruence.
Qed.

Lemma ref_eqb_refl (a : ref) : ref_eqb a a = true.
Proof. apply ref_eqb_eq; reflexivity. Qed.

Lemma deref_modify (F : Forest) (r : ref) (f : TreeNode -> TreeNode)
    (r' : ref) :
  deref (modify F r f) r'
  = if ref_eqb r' r then option_map f (deref F r') else deref F r'.
Proof.
  destruct r as [|k], r' as [|k']; simpl; try reflexivity.
  apply get_update.
Qed.

Lemma deref_ensure (F : Forest) (k : jsstring) (r' : ref) :
  deref (OwnKeys.ensure k F) r'
  = match deref F r' with
    | Some t => Some t
    | None => if ref_eqb r' (CacheRef k) then Some createNode else None
    end.
Proof.
  unfold OwnKeys.ensure, JsObject.has.
  destruct (JsObject.get k (containerCache F)) as [t|] eqn:E.
  - destruct (deref F r') as [t'|] eqn:E'; [reflexivity|].
    destruct r' as [|k']; simpl in *; [discriminate|].
    destruct (str_eqb k' k) eqn:Ek; [|reflexivity].
    apply str_eqb_eq in Ek. congruence.
  - destruct r' as [|k']; simpl; [reflexivity|].
    rewrite get_set. destruct (str_eqb k' k) eqn:Ek.
    + apply str_eqb_eq in Ek. subst. rewrite E. reflexivity.
    + destruct (JsObject.get k' (containerCache F)); reflexivity.
Qed.

Lemma deref_connectNodes (F : Forest) (p c r : ref) :
  deref (connectNodes F p c) r
  = option_map (fun t => if ref_eqb r c then set_parent p t else t)
      (option_map (fun t => if ref_eqb r p then push_child c t else t)
                  (deref F r)).
Proof.
  unfold connectNodes. rewrite !deref_modify.
  destruct (ref_eqb r c), (ref_eqb r p), (deref F r); reflexivity.
Qed.

(** The tree node behind [r] after one step of the loop. *)
Lemma deref_addContainer (ids : list jsstring) (F : Forest) (n : Element)
    (r : ref) :
  let curr := CacheRef (id n) in
  let par := CacheRef (prop_key (attr_parent n)) in
  deref (OwnKeys.addContainer ids F n) r
  = match (match deref F r with
           | Some t => Some t
           | None => if ref_eqb r curr || ref_eqb r par
                     then Some createNode else None
           end) with
    | None => None
    | Some t =>
        let t1 := if ref_eqb r curr then populate n t else t in
        let t2 := if ref_eqb r RootRef && negb (resolves ids n)
                  then push_child curr t1 else t1 in
        let t3 := if ref_eqb r par then push_child curr t2 else t2 in
        Some (if ref_eqb r curr then set_parent par t3 else t3)
    end.
Proof.
  intros curr par. unfold OwnKeys.addContainer. fold curr. fold par.
  rewrite deref_connectNodes, deref_ensure.
  assert (Hres : negb (truthy (attr_parent n))
                 || negb (ids_has ids (attr_parent n))
                 = negb (resolves ids n)).
  { unfold resolves. destruct (truthy _), (ids_has _ _); reflexivity. }
  rewrite Hres.
  destruct (negb (resolves ids n)).
  - rewrite deref_connectNodes, deref_modify, deref_ensure.
    destruct r as [|k]; simpl.
    + reflexivity.
    + fold curr par.
      destruct (JsObject.get k (containerCache F)) as [t|];
        destruct (str_eqb k (id n)) eqn:E1;
        destruct (str_eqb k (prop_key (attr_parent n))) eqn:E2;
        simpl; rewrite ?E1, ?E2; reflexivity.
  - rewrite deref_modify, deref_ensure.
    destruct r as [|k]; simpl.
    + reflexivity.
    + destruct (JsObject.get k (containerCache F)) as [t|];
        destruct (str_eqb k (id n)) eqn:E1;
        destruct (str_eqb k (prop_key (attr_parent n))) eqn:E2;
        simpl; rewrite ?E1, ?E2; reflexivity.
Qed.


Lemma deref_root_addContainer_some ids F n :
  deref (OwnKeys.addContainer ids F n) RootRef <> None.
Proof. rewrite deref_addContainer. simpl. discriminate. Qed.

Lemma childrenOf_addContainer ids F n r :
  childrenOf (OwnKeys.addContainer ids F n) r = childrenOf F r ++ attached ids r n.
Proof.
  unfold childrenOf, attached. rewrite deref_addContainer.
  destruct r as [|k]; simpl.
  - destruct (negb (resolves ids n)); simpl; rewrite ?app_nil_r; reflexivity.
  - destruct (JsObject.get k (containerCache F)) as [t|];
      destruct (str_eqb k (id n)) eqn:E1;
      destruct (str_eqb k (prop_key (attr_parent n))) eqn:E2;
      simpl; rewrite ?app_nil_r; reflexivity.
Qed.

Lemma parentOf_addContainer ids F n r :
  parentOf (OwnKeys.addContainer ids F n) r
  = if ref_eqb r (CacheRef (id n))
    then Some (CacheRef (prop_key (attr_parent n)))
    else parentOf F r.
Proof.
  unfold parentOf. rewrite deref_addContainer.
  destruct r as [|k]; simpl.
  - destruct (negb (resolves ids n)); reflexivity.
  - destruct (JsObject.get k (containerCache F)) as [t|];
      destruct (str_eqb k (id n)) eqn:E1;
      destruct (str_eqb k (prop_key (attr_parent n))) eqn:E2;
      reflexivity.
Qed.

Lemma nodeIdOf_addContainer ids F n r :
  nodeIdOf (OwnKeys.addContainer ids F n) r
  = if ref_eqb r (CacheRef (id n)) then Some (id n) else nodeIdOf F r.
Proof.
  unfold nodeIdOf. rewrite deref_addContainer.
  destruct r as [|k]; simpl.
  - destruct (negb (resolves ids n)); reflexivity.
  - destruct (JsObject.get k (containerCache F)) as [t|];
      destruct (str_eqb k (id n)) eqn:E1;
      destruct (str_eqb k (prop_key (attr_parent n))) eqn:E2;
      reflexivity.
Qed.

Lemma childrenOf_fold ids nodes F r :
  childrenOf (fold_left (OwnKeys.addContainer ids) nodes F) r
  = childrenOf F r ++ flat_map (attached ids r) nodes.
Proof.
  revert F; induction nodes as [|n nodes IH]; intros F; simpl.
  - rewrite app_nil_r. reflexivity.
  - rewrite IH, childrenOf_addContainer, app_assoc. reflexivity.
Qed.

Lemma parentOf_fold ids nodes F k :
  parentOf (fold_left (OwnKeys.addContainer ids) nodes F) (CacheRef k)
  = match lastElement k nodes with
    | Some n => Some (CacheRef (prop_key (attr_parent n)))
    | None => parentOf F (CacheRef k)
    end.
Proof.
  revert F; induction nodes as [|n nodes IH]; intros F; simpl;
    [reflexivity|].
  rewrite IH. destruct (lastElement k nodes); [reflexivity|].
  rewrite parentOf_addContainer. simpl.
  destruct (str_eqb k (id n)); reflexivity.
Qed.

Lemma nodeIdOf_fold ids nodes F k :
  nodeIdOf (fold_left (OwnKeys.addContainer ids) nodes F) (CacheRef k)
  = match lastElement k nodes with
    | Some n => Some k
    | None => nodeIdOf F (CacheRef k)
    end.
Proof.
  revert F; induction nodes as [|n nodes IH]; intros F; simpl;
    [reflexivity|].
  rewrite IH. destruct (lastElement k nodes); [reflexivity|].
  rewrite nodeIdOf_addContainer. simpl.
  destruct (str_eqb k (id n)) eqn:E; [|reflexivity].
  apply str_eqb_eq in E. congruence.
Qed.

Lemma lastElement_some k nodes :
  (exists m, In m nodes /\ id m = k) -> lastElement k nodes <> None.
Proof.
  induction nodes as [|n nodes IH]; simpl; intros [m [Hm Hk]]; [tauto|].
  destruct (lastElement k nodes) eqn:E; [discriminate|].
  destruct Hm as [<-|Hm].
  - subst k. rewrite str_eqb_refl. discriminate.
  - exfalso. apply IH; [exists m; auto | reflexivity].
Qed.

Lemma lastElement_In k nodes m :
  lastElement k nodes = Some m -> In m nodes /\ id m = k.
Proof.
  induction nodes as [|a nodes IH]; simpl; [discriminate|].
  destruct (lastElement k nodes) as [m'|] eqn:E.
  - intros H; injection H as ->. destruct (IH eq_refl). auto.
  - destruct (str_eqb k (id a)) eqn:Ea; [|discriminate].
    intros H; injection H as ->. apply str_eqb_eq in Ea. auto.
Qed.

Lemma lastElement_unique k nodes n :
  NoDup (map id nodes) -> In n nodes -> id n = k ->
  lastElement k nodes = Some n.
Proof.
  induction nodes as [|m nodes IH]; simpl; intros Hnd Hin Hk; [tauto|].
  inversion Hnd as [|? ? Hnotin Hnd']; subst.
  destruct Hin as [->|Hin].
  - destruct (lastElement (id n) nodes) as [m'|] eqn:E.
    + exfalso. apply Hnotin.
      destruct (lastElement_In _ _ _ E) as [Hx Hi].
      rewrite <- Hi. apply in_map. assumption.
    + rewrite str_eqb_refl. reflexivity.
  - rewrite (IH Hnd' Hin eq_refl). reflexivity.
Qed.

Lemma ids_has_In ids p :
  ids_has ids (Some p) = true <-> In p ids.
Proof. apply set_has_In. Qed.

Lemma count_flat_map {A} (c : ref) (g : A -> list ref) (l : list A) :
  length (filter (ref_eqb c) (flat_map g l))
  = list_sum (map (fun m => length (filter (ref_eqb c) (g m))) l).
Proof.
  induction l as [|x l IH]; simpl; [reflexivity|].
  rewrite filter_app, length_app, IH. reflexivity.
Qed.

Lemma sum_single (f : Element -> nat) (nodes : list Element) (n : Element) :
  NoDup (map id nodes) -> In n nodes ->
  (forall m, id m <> id n -> f m = 0) ->
  list_sum (map f nodes) = f n.
Proof.
  induction nodes as [|m nodes IH]; simpl; intros Hnd Hin Hz; [tauto|].
  inversion Hnd as [|? ? Hnotin Hnd']; subst.
  destruct Hin as [->|Hin].
  - assert (E : list_sum (map f nodes) = 0).
    { clear -Hnotin Hz. induction nodes as [|a nodes IH]; simpl;
        [reflexivity|].
      rewrite IH by (intros H; apply Hnotin; simpl; auto).
      rewrite Hz; [reflexivity|].
      intros H. apply Hnotin. simpl. auto. }
    rewrite E. lia.
  - rewrite (IH Hnd' Hin Hz), Hz; [reflexivity|].
    intros H. apply Hnotin. rewrite H. apply in_map. assumption.
Qed.

Lemma count_attached ids r n m :
  length (filter (ref_eqb (CacheRef (id n))) (attached ids r m))
  = if str_eqb (id n) (id m)
    then (if ref_eqb r RootRef && negb (resolves ids m) then 1 else 0)
         + (if ref_eqb r (CacheRef (prop_key (attr_parent m))) then 1 else 0)
    else 0.
Proof.
  unfold attached. rewrite filter_app, length_app.
  destruct (ref_eqb r RootRef && negb (resolves ids m));
    destruct (ref_eqb r (CacheRef (prop_key (attr_parent m))));
    simpl; destruct (str_eqb (id n) (id m)); reflexivity.
Qed.

Lemma countChild_parseContainers document r n :
  NoDup (map id (containerNodes document)) ->
  In n (containerNodes document) ->
  countChild (forest (OwnKeys.parseContainers document)) r (CacheRef (id n))
  = (if ref_eqb r RootRef
        && negb (resolves (map id (containerNodes document)) n)
     then 1 else 0)
    + (if ref_eqb r (CacheRef (prop_key (attr_parent n))) then 1 else 0).
Proof.
  intros Hnd Hin. unfold countChild, OwnKeys.parseContainers. simpl.
  rewrite childrenOf_fold.
  assert (E : childrenOf emptyForest r = []) by (destruct r; reflexivity).
  rewrite E. simpl. rewrite count_flat_map.
  rewrite (sum_single _ _ n Hnd Hin).
  - rewrite count_attached, str_eqb_refl. reflexivity.
  - intros m Hm. rewrite count_attached.
    destruct (str_eqb (id n) (id m)) eqn:Ee; [|reflexivity].
    apply str_eqb_eq in Ee. congruence.
Qed.

(** C5, as amended. When the extractor returns and the container ids of
    the document are distinct: a container whose declared parent id is
    the id of a container of the set has that container's tree node as
    its parent and is listed once among the children of that node and of
    no other node (the root included); a container with no parent id, or
    with a parent id that is not a container's, is listed once among the
    children of the synthetic root, and once more among the children of
    the tree node cached under its parent attribute, to which (not to the
    root) its [parent] field points. *)
Theorem container_forest_parents
    (document : Document) (C : Containers) (n : Element) :
  parseContainers document = Normal C ->
  NoDup (map id (containerNodes document)) ->
  In n (containerNodes document) ->
  let ids := map id (containerNodes document) in
  let F := forest C in
  (resolves ids n = true ->
     exists p,
       attr_parent n = Some p /\
       parentOf F (CacheRef (id n)) = Some (CacheRef p) /\
       nodeIdOf F (CacheRef p) = Some p /\
       forall r, countChild F r (CacheRef (id n))
                 = if ref_eqb r (CacheRef p) then 1 else 0) /\
  (resolves ids n = false ->
     In (CacheRef (id n)) (childrenOf F RootRef) /\
     parentOf F (CacheRef (id n))
     = Some (CacheRef (prop_key (attr_parent n))) /\
     forall r, countChild F r (CacheRef (id n))
               = (if ref_eqb r RootRef then 1 else 0)
                 + (if ref_eqb r (CacheRef (prop_key (attr_parent n)))
                    then 1 else 0)).
Proof.
  intros HC Hnd Hin ids F. subst F.
  rewrite (parseContainers_own _ _ HC).
  set (F := forest (OwnKeys.parseContainers document)).
  assert (Hpar : parentOf F (CacheRef (id n))
                 = Some (CacheRef (prop_key (attr_parent n)))).
  { unfold F, OwnKeys.parseContainers. simpl. rewrite parentOf_fold.
    rewrite (lastElement_unique (id n) _ n Hnd Hin eq_refl). reflexivity. }
  split.
  - intros Hres. unfold resolves in Hres.
    apply andb_true_iff in Hres as [Ht Hhas].
    destruct (attr_parent n) as [p|] eqn:Ep; [|discriminate].
    exists p. split; [reflexivity|]. split; [exact Hpar|]. split.
    + unfold F, OwnKeys.parseContainers. simpl. rewrite nodeIdOf_fold.
      destruct (lastElement p (containerNodes document)) eqn:E;
        [reflexivity|].
      exfalso. revert E. apply lastElement_some.
      apply ids_has_In in Hhas. apply in_map_iff in Hhas.
      destruct Hhas as [m [Hm Hin']]. exists m. auto.
    + intros r. unfold F. rewrite (countChild_parseContainers _ _ _ Hnd Hin).
      unfold resolves. rewrite Ep. fold ids. rewrite Ht, Hhas. simpl.
      rewrite andb_false_r. reflexivity.
  - intros Hres.
    assert (Hcount : forall r, countChild F r (CacheRef (id n))
              = (if ref_eqb r RootRef then 1 else 0)
                + (if ref_eqb r (CacheRef (prop_key (attr_parent n)))
                   then 1 else 0)).
    { intros r. unfold F.
      rewrite (countChild_parseContainers _ _ _ Hnd Hin).
      fold ids. rewrite Hres. rewrite andb_true_r. reflexivity. }
    split; [|split; [exact Hpar | exact Hcount]].
    pose proof (Hcount RootRef) as Hc. simpl in Hc.
    unfold countChild in Hc.
    destruct (filter (ref_eqb (CacheRef (id n))) (childrenOf F RootRef))
      as [|c l] eqn:Ef; [discriminate|].
    assert (Hc' : In c (filter (ref_eqb (CacheRef (id n)))
                               (childrenOf F RootRef)))
      by (rewrite Ef; left; reflexivity).
    apply filter_In in Hc' as [Hc1 Hc2]. apply ref_eqb_eq in Hc2.
    subst c. exact Hc1.
Qed.

Lemma container_forest_parents_witness :
  exists p,
    attr_parent (Docs.cell "C2" (Some "swimlane;container=1;"%string)
                           (Some "Inner"%string) (Some "C1"%string))
    = Some p /\
    parentOf (forest (Docs.containersOf Docs.nested)) (CacheRef (js "C2"))
    = Some (CacheRef p) /\
    nodeIdOf (forest (Docs.containersOf Docs.nested)) (CacheRef p) = Some p /\
    forall r, countChild (forest (Docs.containersOf Docs.nested)) r
                         (CacheRef (js "C2"))
              = if ref_eqb r (CacheRef p) then 1 else 0.
Proof.
  refine (proj1 (container_forest_parents Docs.nested
                   (Docs.containersOf Docs.nested)
                   (Docs.cell "C2" (Some "swimlane;container=1;"%string)
                              (Some "Inner"%string) (Some "C1"%string))
                   _ _ _) _).
  - vm_compute. reflexivity.
  - vm_compute. repeat constructor; simpl; intuition discriminate.
  - vm_compute. right. left. reflexivity.
  - reflexivity.
Defined.

(** C5, as stated, fails in two ways. Of two container elements with one
    id, each inside another container, the extractor makes one tree node
    and lists it among the children of both parents. And a container
    whose parent is no container (the widget's [C1], whose parent is the
    layer [1]) is listed under the root, but its [parent] field points to
    the placeholder made for the layer's id, which lists it too. *)
Lemma container_with_two_parents :
  (resolves (map id (containerNodes Docs.repeatedContainer))
            (Docs.cell "C" (Some "swimlane;container=1;"%string)
                       (Some "First"%string) (Some "P1"%string)) = true /\
   exists C,
     parseContainers Docs.repeatedContainer = Normal C /\
     countChild (forest C) (CacheRef (js "P1")) (CacheRef (js "C")) = 1 /\
     countChild (forest C) (CacheRef (js "P2")) (CacheRef (js "C")) = 1 /\
     parentOf (forest C) (CacheRef (js "C")) = Some (CacheRef (js "P2"))) /\
  (resolves (map id (containerNodes Docs.widget))
            (Docs.cell "C1" (Some "swimlane;container=1;"%string)
                       (Some "Group"%string) (Some "1"%string)) = false /\
   exists C,
     parseContainers Docs.widget = Normal C /\
     In (CacheRef (js "C1")) (childrenOf (forest C) RootRef) /\
     parentOf (forest C) (CacheRef (js "C1")) = Some (CacheRef (js "1")) /\
     nodeIdOf (forest C) (CacheRef (js "1")) = None /\
     countChild (forest C) (CacheRef (js "1")) (CacheRef (js "C1")) = 1).
Proof.
  split; (split; [vm_compute; reflexivity|]); eexists;
    (split; [vm_compute; reflexivity|]).
  - repeat split; vm_compute; reflexivity.
  - split; [vm_compute; left; reflexivity|].
    repeat split; vm_compute; reflexivity.
Qed.

End ContainerExtractor.

(* ===================================================================== *)
(** ** Table flattener: container depth *)
(* ===================================================================== *)

Section ContainerDepth.

Import Dom Parsers Transformers Exporters Spec.

Lemma depthOf_upward fuel F r d :
  depthOf fuel F r = Some d ->
  exists nodes, upward fuel F (Some r) = Some nodes /\ length nodes = S d.
Proof.
  revert r d; induction fuel as [|fuel IH]; intros r d; simpl;
    [discriminate|].
  destruct (deref F r) as [t|]; [|discriminate].
  destruct (parent t) as [p|] eqn:Ep.
  - destruct (depthOf fuel F p) as [d'|] eqn:Ed; [|discriminate].
    intros H; injection H as <-.
    destruct (IH p d' Ed) as [nodes [Hu Hl]].
    rewrite Hu. exists (t :: nodes). simpl. auto.
  - intros H; injection H as <-. exists [t].
    destruct fuel; simpl; auto.
Qed.

Lemma chainValues_cons t nodes :
  chainValues (t :: nodes)
  = chainValues nodes ++ (if isContainer t then [cell_of (value t)] else []).
Proof.
  unfold chainValues. simpl. destruct (isContainer t); simpl;
    [reflexivity | rewrite app_nil_r; reflexivity].
Qed.

Lemma upward_chain fuel F o nodes acc :
  upward fuel F o = Some nodes ->
  containerChain fuel F o acc = Some (chainValues nodes ++ acc).
Proof.
  revert o nodes acc; induction fuel as [|fuel IH]; intros [r|] nodes acc;
    simpl; try discriminate;
    try (intros H; injection H as <-; reflexivity).
  destruct (deref F r) as [t|]; [|discriminate].
  destruct (upward fuel F (parent t)) as [rest|] eqn:Er; [|discriminate].
  intros H; injection H as <-.
  rewrite (IH _ _ _ Er), chainValues_cons.
  unfold isContainer. destruct (truthy (nodeId t)); simpl;
    rewrite <- app_assoc; reflexivity.
Qed.

(** In a well-formed forest the nodes from a node upwards are containers
    up to the topmost one, which is not. *)
Lemma upward_shape fuel F r nodes :
  wellFormed F ->
  upward fuel F (Some r) = Some nodes ->
  exists init top,
    nodes = init ++ [top] /\
    filter isContainer init = init /\
    isContainer top = false.
Proof.
  intros HW. revert r nodes; induction fuel as [|fuel IH]; intros r nodes;
    simpl; [discriminate|].
  destruct (deref F r) as [t|] eqn:Et; [|discriminate].
  destruct (parent t) as [p|] eqn:Ep.
  - destruct (upward fuel F (Some p)) as [rest|] eqn:Er; [|discriminate].
    intros H; injection H as <-.
    destruct (IH p rest Er) as (init & top & -> & Hi & Ht).
    exists (t :: init), top. split; [reflexivity|]. split; [|assumption].
    simpl. rewrite (inner_named HW _ Et) by congruence.
    rewrite Hi. reflexivity.
  - destruct fuel; simpl; intros H; injection H as <-;
      exists [], t; repeat split;
      apply (tops_anonymous HW _ Et Ep).
Qed.

Lemma filter_app_last (init : list TreeNode) top :
  filter isContainer init = init -> isContainer top = false ->
  filter isContainer (init ++ [top]) = init.
Proof.
  intros Hi Ht. rewrite filter_app, Hi. simpl. rewrite Ht.
  apply app_nil_r.
Qed.

Lemma Math_max_bound ds m :
  Math_max ds = Num m ->
  (forall d, In d ds -> d <= m) /\ In m ds.
Proof.
  revert m; induction ds as [|d ds IH]; intros m; simpl; [discriminate|].
  destruct (Math_max ds) as [|m'] eqn:E.
  - intros H; injection H as <-. destruct ds as [|d' ds'].
    + split; [intros x [<-|[]]; lia | auto].
    + simpl in E. destruct (Math_max ds'); discriminate.
  - intros H; injection H as <-. destruct (IH m' eq_refl) as [Hb Hin].
    split.
    + intros x [<-|Hx]; [lia|]. specialize (Hb x Hx). lia.
    + destruct (Nat.max_spec d m') as [[_ ->]|[_ ->]]; auto.
Qed.

Lemma depths_Forall2 fuel F l ds :
  depths fuel F l = Some ds ->
  Forall2 (fun r d => depthOf fuel F r = Some d) l ds.
Proof.
  revert ds; induction l as [|r l IH]; intros ds; simpl.
  - intros H; injection H as <-. constructor.
  - destruct (depthOf fuel F r) as [d|] eqn:Ed; [|discriminate].
    destruct (depths fuel F l) as [ds'|]; [|discriminate].
    intros H; injection H as <-. constructor; auto.
Qed.

Lemma Forall2_In_l {A B} (P : A -> B -> Prop) l l' a :
  Forall2 P l l' -> In a l -> exists b, In b l' /\ P a b.
Proof.
  induction 1 as [|x y l l' Hxy _ IH]; intros Hin; [destruct Hin|].
  destruct Hin as [<-|Hin].
  - exists y. simpl. auto.
  - destruct (IH Hin) as [b [Hb Hp]]. exists b. simpl. auto.
Qed.

Lemma Forall2_In_r {A B} (P : A -> B -> Prop) l l' b :
  Forall2 P l l' -> In b l' -> exists a, In a l /\ P a b.
Proof.
  induction 1 as [|x y l l' Hxy _ IH]; intros Hin; [destruct Hin|].
  destruct Hin as [<-|Hin].
  - exists x. simpl. auto.
  - destruct (IH Hin) as [a [Ha Hp]]. exists a. simpl. auto.
Qed.

Lemma block_depthEntries fuel F qs m a block row :
  assumptionRows fuel F qs m a = Some block ->
  In row block ->
  exists chain,
    containerChain fuel F (a_container a) [] = Some chain /\
    depthEntries row = padContainers m chain.
Proof.
  unfold assumptionRows.
  destruct (containerChain fuel F (a_container a) []) as [chain|];
    [|discriminate].
  destruct (derefQuestions qs (a_questions a)) as [linked|]; [|discriminate].
  intros H; injection H as <-. intros Hin. exists chain.
  split; [reflexivity|].
  destruct Hin as [<-|Hin]; [reflexivity|].
  apply in_flat_map in Hin as [q [_ Hq]].
  unfold questionRows in Hq. apply in_map_iff in Hq as (j & <- & _).
  reflexivity.
Qed.


(** More fuel does not change what a loop returns. *)
Lemma depthOf_mono fuel fuel' F r d :
  depthOf fuel F r = Some d -> fuel <= fuel' -> depthOf fuel' F r = Some d.
Proof.
  revert fuel' r d; induction fuel as [|fuel IH]; intros [|fuel'] r d;
    simpl; try discriminate; try lia.
  destruct (deref F r) as [t|]; [|discriminate].
  destruct (parent t) as [p|]; [|auto].
  destruct (depthOf fuel F p) as [d'|] eqn:E; [|discriminate].
  intros H Hle. rewrite (IH fuel' p d' E) by lia. exact H.
Qed.

Lemma depths_mono fuel fuel' F l ds :
  depths fuel F l = Some ds -> fuel <= fuel' -> depths fuel' F l = Some ds.
Proof.
  revert ds; induction l as [|r l IH]; intros ds; simpl; [auto|].
  destruct (depthOf fuel F r) as [d|] eqn:Ed; [|discriminate].
  destruct (depths fuel F l) as [ds'|]; [|discriminate].
  intros H Hle. rewrite (depthOf_mono _ _ _ _ _ Ed Hle), (IH ds' eq_refl Hle).
  exact H.
Qed.

Lemma containerChain_mono fuel fuel' F o acc chain :
  containerChain fuel F o acc = Some chain -> fuel <= fuel' ->
  containerChain fuel' F o acc = Some chain.
Proof.
  revert fuel' o acc; induction fuel as [|fuel IH];
    intros [|fuel'] [r|] acc; simpl; try discriminate; try lia; auto.
  destruct (deref F r) as [t|]; [|discriminate].
  intros H Hle. apply IH; [exact H | lia].
Qed.




Lemma flatMapRows_mono fuel fuel' F qs m l rows :
  flatMapRows fuel F qs m l = Some rows -> fuel <= fuel' ->
  flatMapRows fuel' F qs m l = Some rows.
Proof.
  intros H Hle. revert rows H; induction l as [|a l IH]; intros rows; simpl;
    [auto|].
  unfold assumptionRows.
  destruct (containerChain fuel F (a_container a) []) as [chain|] eqn:Ec;
    [|discriminate].
  rewrite (containerChain_mono _ _ _ _ _ _ Ec Hle).
  destruct (derefQuestions qs (a_questions a)); [|discriminate].
  destruct (flatMapRows fuel F qs m l) as [rs|]; [|discriminate].
  rewrite (IH rs eq_refl). auto.
Qed.

(** A table or an exception obtained with some fuel is obtained with any
    larger fuel. *)
Lemma doFormatCsv_mono fuel fuel' data :
  doFormatCsv fuel data <> NoResult -> fuel <= fuel' ->
  doFormatCsv fuel' data = doFormatCsv fuel data.
Proof.
  unfold doFormatCsv, maxContainerDepth. intros H Hle.
  destruct (depths fuel (forest (containers data)) (all (containers data)))
    as [ds|] eqn:Ed; [|exfalso; apply H; reflexivity].
  rewrite (depths_mono _ _ _ _ _ Ed Hle). simpl in *.
  destruct (csvHeaders (Math_max ds)) as [headers|e| |k]; simpl in *; trivial.
  destruct (flatMapRows fuel (forest (containers data)) (questions data)
              (Math_max ds) (assumptions data)) as [rows|] eqn:Er;
    [|exfalso; apply H; reflexivity].
  rewrite (flatMapRows_mono _ _ _ _ _ _ _ Er Hle). reflexivity.
Qed.

Lemma padContainers_length m chain :
  length chain <= m -> length (padContainers (Num m) chain) = m.
Proof.
  intros H. unfold padContainers. rewrite length_app, repeat_length. lia.
Qed.

(** C2, as amended. The header has [maxContainerDepth] depth columns,
    where [maxContainerDepth] is the greatest number of tree nodes above
    any tree node of [all]; above a container these are its container
    ancestors and one more node, the placeholder its outermost ancestor
    hangs from. Every data row of an assumption has [maxContainerDepth]
    depth entries: the values of the assumption's container and of that
    container's ancestors, outermost first, then empty strings. *)
Theorem depth_columns_follow_parent_links
    (fuel : nat) (data : Data) (m : nat) :
  let F := forest (containers data) in
  maxContainerDepth fuel data = Normal (Num m) ->
  (N.of_nat m <= 4294967295)%N ->
  wellFormed F ->
  (forall a r, In a (assumptions data) -> a_container a = Some r ->
     In r (all (containers data))) ->
  (forall a, In a (assumptions data) ->
     derefQuestions (questions data) (a_questions a) <> None) ->
  exists header blocks,
    doFormatCsv fuel data = Normal (header :: concat blocks) /\
    depthEntries header
    = map (fun i => CStr (js "container_depth" ++ decimal (i + 1)))
          (seq 0 m) /\
    (forall r, In r (all (containers data)) ->
       exists t above,
         upward fuel F (Some r) = Some (t :: above) /\
         length above <= m /\
         (isContainer t = true ->
          length above = S (length (filter isContainer above)))) /\
    (exists r t above,
       In r (all (containers data)) /\
       upward fuel F (Some r) = Some (t :: above) /\
       length above = m) /\
    Forall2
      (fun a block =>
         exists nodes,
           upward fuel F (a_container a) = Some nodes /\
           block <> [] /\
           forall row, In row block ->
             depthEntries row
             = chainValues nodes ++
               repeat (CStr []) (m - length (chainValues nodes)) /\
             length (depthEntries row) = m)
      (assumptions data) blocks.
Proof.
  intros F Hm Hsmall HW Hall Hrefs.
  unfold maxContainerDepth in Hm. fold F in Hm.
  destruct (depths fuel F (all (containers data))) as [ds|] eqn:Eds;
    [|discriminate].
  injection Hm as Hmax.
  pose proof (depths_Forall2 _ _ _ _ Eds) as HF2.
  destruct (Math_max_bound _ _ Hmax) as [Hbound Hin].
  (* the nodes above a node of [all] *)
  assert (Hup : forall r, In r (all (containers data)) ->
            exists d t above,
              In d ds /\ depthOf fuel F r = Some d /\
              upward fuel F (Some r) = Some (t :: above) /\
              length above = d /\
              length (filter isContainer (t :: above)) = d).
  { intros r Hr. destruct (Forall2_In_l _ _ _ _ HF2 Hr) as [d [Hd Hdep]].
    destruct (depthOf_upward _ _ _ _ Hdep) as [nodes [Hu Hl]].
    destruct (upward_shape _ _ _ _ HW Hu) as (init & top & -> & Hi & Ht).
    rewrite length_app in Hl. simpl in Hl.
    destruct init as [|t init'].
    - exists d, top, []. simpl. rewrite Ht. simpl in *.
      repeat split; trivial; lia.
    - exists d, t, (init' ++ [top]).
      change (t :: init' ++ [top]) with ((t :: init') ++ [top]).
      rewrite (filter_app_last _ _ Hi Ht).
      repeat split; trivial; simpl in *; rewrite ?length_app; simpl; lia. }
  (* the chain of an assumption *)
  assert (Hchain : forall a, In a (assumptions data) ->
            exists nodes,
              upward fuel F (a_container a) = Some nodes /\
              containerChain fuel F (a_container a) []
              = Some (chainValues nodes) /\
              length (chainValues nodes) <= m).
  { intros a Ha. destruct (a_container a) as [r|] eqn:Ec.
    - destruct (Hup r (Hall a r Ha Ec)) as (d & t & above & Hd & _ & Hu & _ & Hf).
      exists (t :: above). split; [exact Hu|]. split.
      + rewrite (upward_chain _ _ _ _ [] Hu), app_nil_r. reflexivity.
      + unfold chainValues. rewrite length_rev, length_map, Hf.
        apply Hbound; assumption.
    - exists []. destruct fuel; simpl; repeat split; lia. }
  unfold doFormatCsv, maxContainerDepth. fold F. rewrite Eds, Hmax. simpl.
  unfold csvHeaders, Array_indices.
  apply N.leb_le in Hsmall. rewrite Hsmall. simpl.
  destruct (flatMapRows fuel F (questions data) (Num m) (assumptions data))
    as [rows|] eqn:Er.
  - destruct (flatMapRows_blocks _ _ _ _ _ _ Er) as [blocks [HF ->]].
    eexists. exists blocks. split; [reflexivity|].
    split; [reflexivity|]. split; [|split].
    + intros r Hr.
      destruct (Hup r Hr) as (d & t & above & Hd & _ & Hu & Hl & Hf).
      exists t, above. split; [exact Hu|]. split.
      * rewrite Hl. apply Hbound; assumption.
      * intros Ht. simpl in Hf. rewrite Ht in Hf. simpl in Hf. lia.
    + destruct (Forall2_In_r _ _ _ _ HF2 Hin) as [r [Hr Hdep]].
      destruct (Hup r Hr) as (d & t & above & _ & Hdep' & Hu & Hl & _).
      exists r, t, above. repeat split; trivial. congruence.
    + eapply Forall2_in_l; [|exact HF].
      intros a block Ha Hb. destruct (Hchain a Ha) as (nodes & Hu & Hc & Hle).
      exists nodes. split; [exact Hu|]. split.
      * unfold assumptionRows in Hb. rewrite Hc in Hb.
        destruct (derefQuestions (questions data) (a_questions a));
          [|discriminate].
        injection Hb as <-. discriminate.
      * intros row Hrow.
        destruct (block_depthEntries _ _ _ _ _ _ _ Hb Hrow)
          as (chain & Hc' & ->).
        rewrite Hc in Hc'. injection Hc' as <-.
        split; [reflexivity | apply padContainers_length; assumption].
  - exfalso. revert Er. apply flatMapRows_total. intros a Ha.
    unfold assumptionRows.
    destruct (Hchain a Ha) as (nodes & _ & Hc & _). rewrite Hc.
    specialize (Hrefs a Ha).
    destruct (derefQuestions (questions data) (a_questions a));
      [discriminate | congruence].
Qed.

End ContainerDepth.

(* ===================================================================== *)
(** ** What the extractors and the linker hand to the flattener *)
(* ===================================================================== *)

Section Pipeline.

Import Dom Parsers Transformers Exporters Spec.

Lemma parentOf_fold_root ids nodes F :
  parentOf (fold_left (OwnKeys.addContainer ids) nodes F) RootRef
  = parentOf F RootRef.
Proof.
  revert F; induction nodes as [|n nodes IH]; intros F; simpl;
    [reflexivity|].
  rewrite IH, parentOf_addContainer. reflexivity.
Qed.

Lemma nodeIdOf_fold_root ids nodes F :
  nodeIdOf (fold_left (OwnKeys.addContainer ids) nodes F) RootRef
  = nodeIdOf F RootRef.
Proof.
  revert F; induction nodes as [|n nodes IH]; intros F; simpl;
    [reflexivity|].
  rewrite IH, nodeIdOf_addContainer. reflexivity.
Qed.

Lemma containerNodes_truthy document n :
  In n (containerNodes document) -> truthy_str (id n) = true.
Proof. unfold containerNodes. intros H. apply filter_In in H. tauto. Qed.

(** The container extractor builds well-formed forests. *)
Lemma parseContainers_wellFormed (document : Document) :
  wellFormed (forest (OwnKeys.parseContainers document)).
Proof.
  unfold OwnKeys.parseContainers. simpl.
  set (nodes := containerNodes document).
  set (F := fold_left (OwnKeys.addContainer (map id nodes)) nodes emptyForest).
  constructor; intros r t Hd Hp; unfold isContainer.
  - assert (Hpar : parentOf F r = None) by (unfold parentOf; rewrite Hd; exact Hp).
    assert (Hid : nodeIdOf F r = nodeId t) by (unfold nodeIdOf; rewrite Hd; reflexivity).
    rewrite <- Hid. destruct r as [|k]; unfold F in *.
    + rewrite nodeIdOf_fold_root. reflexivity.
    + rewrite parentOf_fold in Hpar. rewrite nodeIdOf_fold.
      destruct (lastElement k nodes); [discriminate | reflexivity].
  - assert (Hpar : parentOf F r <> None) by (unfold parentOf; rewrite Hd; exact Hp).
    assert (Hid : nodeIdOf F r = nodeId t) by (unfold nodeIdOf; rewrite Hd; reflexivity).
    rewrite <- Hid. destruct r as [|k]; unfold F in *.
    + rewrite parentOf_fold_root in Hpar. exfalso. apply Hpar. reflexivity.
    + rewrite parentOf_fold in Hpar. rewrite nodeIdOf_fold.
      destruct (lastElement k nodes) as [n|] eqn:E.
      * destruct (lastElement_In _ _ _ E) as [Hin <-]. simpl.
        apply (containerNodes_truthy document). exact Hin.
      * exfalso. apply Hpar. reflexivity.
Qed.

Lemma connectContainers_shape cache todo ai F r :
  option_map shape (deref (snd (OwnKeys.connectContainers_from cache ai todo F)) r)
  = option_map shape (deref F r).
Proof.
  revert ai F; induction todo as [|a todo IH]; intros ai F; simpl;
    [reflexivity|].
  destruct (JsObject.get (prop_key (a_parentId a)) cache) as [r'|].
  - specialize (IH (S ai) (modify F r' (push_held ai))).
    destruct (OwnKeys.connectContainers_from cache (S ai) todo
                (modify F r' (push_held ai))) as [done F'].
    simpl in *. rewrite IH, deref_modify.
    destruct (ref_eqb r r'), (deref F r); reflexivity.
  - specialize (IH (S ai) F).
    destruct (OwnKeys.connectContainers_from cache (S ai) todo F) as [done F'].
    simpl in *. exact IH.
Qed.

Lemma wellFormed_shape F F' :
  (forall r, option_map shape (deref F' r) = option_map shape (deref F r)) ->
  wellFormed F -> wellFormed F'.
Proof.
  intros Hs HW. constructor; intros r t' Hd Hp; specialize (Hs r);
    rewrite Hd in Hs; destruct (deref F r) as [t|] eqn:Et;
    try discriminate; simpl in Hs; injection Hs as H1 H2 H3;
    unfold isContainer in *; rewrite H2.
  - apply (tops_anonymous HW _ Et). congruence.
  - apply (inner_named HW _ Et). congruence.
Qed.

Lemma containerCache_from_values F l o k r :
  JsObject.get k (OwnKeys.containerCache_from F l o) = Some r ->
  In r l \/ JsObject.get k o = Some r.
Proof.
  revert o; induction l as [|x l IH]; intros o; simpl; [auto|].
  intros H. apply IH in H as [H|H]; [auto|].
  rewrite get_set in H.
  destruct (str_eqb k _); [injection H as <-|]; auto.
Qed.

Lemma connectContainers_container cache todo ai F l :
  (forall k r, JsObject.get k cache = Some r -> In r l) ->
  (forall a r, In a todo -> a_container a = Some r -> In r l) ->
  forall a r, In a (fst (OwnKeys.connectContainers_from cache ai todo F)) ->
              a_container a = Some r -> In r l.
Proof.
  intros Hc. revert ai F; induction todo as [|x todo IH]; intros ai F Ht a r;
    simpl; [tauto|].
  destruct (JsObject.get (prop_key (a_parentId x)) cache) as [r'|] eqn:Eg.
  - specialize (IH (S ai) (modify F r' (push_held ai))).
    destruct (OwnKeys.connectContainers_from cache (S ai) todo
                (modify F r' (push_held ai))) as [done F'].
    simpl in *. intros [<-|Hin] Hr.
    + simpl in Hr. injection Hr as <-. eapply Hc; eassumption.
    + eapply IH; eauto.
  - specialize (IH (S ai) F).
    destruct (OwnKeys.connectContainers_from cache (S ai) todo F) as [done F'].
    simpl in *. intros [<-|Hin] Hr; [eapply Ht; eauto | eapply IH; eauto].
Qed.

Lemma connectContainers_questions cache todo ai F a :
  In a (fst (OwnKeys.connectContainers_from cache ai todo F)) ->
  exists a0, In a0 todo /\ a_questions a = a_questions a0.
Proof.
  revert ai F; induction todo as [|x todo IH]; intros ai F; simpl; [tauto|].
  destruct (JsObject.get (prop_key (a_parentId x)) cache) as [r'|].
  - specialize (IH (S ai) (modify F r' (push_held ai))).
    destruct (OwnKeys.connectContainers_from cache (S ai) todo
                (modify F r' (push_held ai))) as [done F'].
    simpl in *. intros [<-|Hin]; [exists x; auto|].
    destruct (IH Hin) as [a0 [H0 H1]]. exists a0. auto.
  - specialize (IH (S ai) F).
    destruct (OwnKeys.connectContainers_from cache (S ai) todo F) as [done F'].
    simpl in *. intros [<-|Hin]; [exists x; auto|].
    destruct (IH Hin) as [a0 [H0 H1]]. exists a0. auto.
Qed.


Lemma In_modify_nth {A} (f : A -> A) (l : list A) (i : nat) (x : A) :
  In x (modify_nth i f l) -> In x l \/ exists y, In y l /\ x = f y.
Proof.
  revert i; induction l as [|y l IH]; intros [|i]; simpl; try tauto.
  - intros [<-|H]; [right; exists y; auto | auto].
  - intros [<-|H]; [auto|].
    destruct (IH i H) as [H'|[z [Hz ->]]]; [auto|].
    right. exists z. auto.
Qed.

Lemma connectTarget_valid cache qi st t :
  qi < length (snd st) ->
  validRefs (length (snd st)) (fst st) ->
  length (snd (OwnKeys.connectTarget cache qi st t)) = length (snd st) /\
  validRefs (length (snd st)) (fst (OwnKeys.connectTarget cache qi st t)).
Proof.
  intros Hq Hv. unfold OwnKeys.connectTarget.
  destruct (JsObject.get (prop_key t) cache) as [ai|]; simpl; [|auto].
  split; [apply length_modify_nth|].
  intros a i Ha Hi. apply In_modify_nth in Ha as [Ha|[y [Hy ->]]].
  - eapply Hv; eassumption.
  - simpl in Hi. apply in_app_or in Hi as [Hi|[<-|[]]]; [|assumption].
    eapply Hv; eassumption.
Qed.

Lemma fold_connectTarget_valid cache qi ts st :
  qi < length (snd st) ->
  validRefs (length (snd st)) (fst st) ->
  length (snd (fold_left (OwnKeys.connectTarget cache qi) ts st)) = length (snd st) /\
  validRefs (length (snd st)) (fst (fold_left (OwnKeys.connectTarget cache qi) ts st)).
Proof.
  revert st; induction ts as [|t ts IH]; intros st Hq Hv; simpl; [auto|].
  destruct (connectTarget_valid cache qi st t Hq Hv) as [Hl Hv'].
  destruct (IH (OwnKeys.connectTarget cache qi st t)) as [Hl2 Hv2].
  - rewrite Hl. assumption.
  - rewrite Hl. assumption.
  - rewrite Hl in *. auto.
Qed.

Lemma connectQuestions_valid cache todo qi st :
  qi + length todo <= length (snd st) ->
  validRefs (length (snd st)) (fst st) ->
  length (snd (OwnKeys.connectQuestions_from cache qi todo st)) = length (snd st) /\
  validRefs (length (snd st)) (fst (OwnKeys.connectQuestions_from cache qi todo st)).
Proof.
  revert qi st; induction todo as [|q todo IH]; intros qi st Hq Hv; simpl;
    [auto|].
  simpl in Hq.
  destruct (fold_connectTarget_valid cache qi (q_targetIds q) st) as [Hl Hv'];
    [lia | assumption |].
  destruct (IH (S qi) (fold_left (OwnKeys.connectTarget cache qi) (q_targetIds q) st))
    as [Hl2 Hv2].
  - rewrite Hl. lia.
  - rewrite Hl. assumption.
  - rewrite Hl in *. auto.
Qed.

Lemma derefQuestions_valid qs l :
  (forall i, In i l -> i < length qs) -> derefQuestions qs l <> None.
Proof.
  induction l as [|i l IH]; simpl; intros H; [discriminate|].
  destruct (nth_error qs i) eqn:E.
  - destruct (derefQuestions qs l) eqn:E'; [discriminate|].
    exfalso. apply IH; auto.
  - apply nth_error_None in E. specialize (H i (or_introl eq_refl)). lia.
Qed.

(** The data the [parse] command hands to the flattener satisfies what
    the flattener's properties assume. *)
(** When the [parse] command gets as far as the flattener, the three
    parsers and the two transformers have returned, and the data is what
    the loops give on own keys. *)
Lemma transformedData_own (htmlDecode : jsstring -> jsstring)
    (document : Document) (data : Data) :
  Cli.transformedData htmlDecode document = Normal data ->
  exists as0 qs0,
    parseAssumptions htmlDecode document = Normal as0 /\
    parseQuestions htmlDecode document = Normal qs0 /\
    parseContainers document = Normal (OwnKeys.parseContainers document) /\
    data = OwnKeys.transformConnectContainers
             (OwnKeys.transformConnectQuestions
                (mkData (OwnKeys.parseContainers document) as0 qs0)).
Proof.
  unfold Cli.transformedData.
  destruct (parseAssumptions htmlDecode document) as [as0|e| |k] eqn:Ea;
    destruct (parseQuestions htmlDecode document) as [qs0|e'| |k'] eqn:Eq;
    try discriminate.
  destruct (parseContainers document) as [c|e| |k] eqn:Ec;
    try discriminate.
  - pose proof (parseContainers_own _ _ Ec) as ->.
    destruct (transformConnectQuestions _) as [d1| | |] eqn:E1; simpl;
      try discriminate.
    intros E2. exists as0, qs0.
    rewrite <- (transformConnectQuestions_own _ _ E1).
    rewrite <- (transformConnectContainers_own _ _ E2). auto.
  - destruct (connectQuestions as0 qs0); discriminate.
Qed.

Lemma transformedData_ready (htmlDecode : jsstring -> jsstring)
    (document : Document) (data : Data) :
  Cli.transformedData htmlDecode document = Normal data ->
  wellFormed (forest (containers data)) /\
  (forall a r, In a (assumptions data) -> a_container a = Some r ->
     In r (all (containers data))) /\
  (forall a, In a (assumptions data) ->
     derefQuestions (questions data) (a_questions a) <> None).
Proof.
  intros Hd.
  destruct (transformedData_own _ _ _ Hd) as (as0 & qs0 & Ea & Eq & _ & ->).
  assert (Hinit : forall a, In a as0 ->
            a_questions a = [] /\ a_container a = None).
  { unfold parseAssumptions in Ea.
    destruct (findPrefixedNodes htmlDecode document (js "A")) as [ps| | |];
      simpl in Ea; try discriminate.
    injection Ea as <-. intros a Ha. apply in_map_iff in Ha as [p [<- _]].
    split; reflexivity. }
  set (d0 := mkData (OwnKeys.parseContainers document) as0 qs0).
  assert (Hq : length (questions (OwnKeys.transformConnectQuestions d0)) = length qs0
               /\ validRefs (length qs0)
                            (assumptions (OwnKeys.transformConnectQuestions d0))).
  { unfold OwnKeys.transformConnectQuestions. simpl.
    apply (connectQuestions_valid _ qs0 0 (as0, qs0)); simpl; [lia|].
    intros a i Ha Hi. destruct (Hinit a Ha) as [E _]. rewrite E in Hi.
    destruct Hi. }
  destruct Hq as [Hlen Hvalid].
  assert (Hcont : forall a, In a (assumptions (OwnKeys.transformConnectQuestions d0))
                    -> a_container a = None).
  { unfold OwnKeys.transformConnectQuestions. simpl.
    assert (G : forall cache todo qi st,
              (forall a, In a (fst st) -> a_container a = None) ->
              forall a, In a (fst (OwnKeys.connectQuestions_from cache qi todo st)) ->
                        a_container a = None).
    { intros cache todo. induction todo as [|q todo IH]; intros qi st Hst;
        simpl; [exact Hst|].
      apply IH. clear IH. revert st Hst.
      induction (q_targetIds q) as [|t ts IHt]; intros st Hst; simpl;
        [exact Hst|].
      apply IHt. unfold OwnKeys.connectTarget.
      destruct (JsObject.get (prop_key t) cache); [|exact Hst].
      simpl. intros a Ha. apply In_modify_nth in Ha as [Ha|[y [Hy ->]]];
        [auto|]. simpl. auto. }
    apply G. simpl. intros a Ha. apply (Hinit a Ha). }
  unfold OwnKeys.transformConnectContainers.
  set (d1 := OwnKeys.transformConnectQuestions d0) in *.
  assert (Hc1 : containers d1 = OwnKeys.parseContainers document) by reflexivity.
  set (cache := OwnKeys.containerCache_from (forest (containers d1))
                  (all (containers d1)) []).
  pose proof (connectContainers_shape cache (assumptions d1) 0
                (forest (containers d1))) as Hshape.
  pose proof (connectContainers_container cache (assumptions d1) 0
                (forest (containers d1)) (all (containers d1))) as Hin.
  pose proof (connectContainers_questions cache (assumptions d1) 0
                (forest (containers d1))) as Hqs.
  destruct (OwnKeys.connectContainers_from cache 0 (assumptions d1)
              (forest (containers d1))) as [assumps F'].
  cbn [fst snd] in Hshape, Hin, Hqs.
  cbn [forest containers all assumptions questions].
  split; [|split].
  - apply (wellFormed_shape _ _ Hshape). rewrite Hc1.
    apply parseContainers_wellFormed.
  - apply Hin.
    + intros k r Hg. unfold cache in Hg.
      apply containerCache_from_values in Hg as [Hg|Hg];
        [assumption | discriminate].
    + intros a r Ha Hr. rewrite (Hcont a Ha) in Hr. discriminate.
  - intros a Ha. destruct (Hqs a Ha) as [a0 [Ha0 E]]. rewrite E.
    apply derefQuestions_valid. intros i Hi. rewrite Hlen.
    eapply Hvalid; eassumption.
Qed.


Lemma depth_columns_follow_parent_links_witness :
  exists header blocks,
    doFormatCsv 10 (Docs.dataOf Docs.nested)
    = Normal (header :: concat blocks) /\
    depthEntries header
    = [CStr (js "container_depth1"); CStr (js "container_depth2")] /\
    length blocks = 2.
Proof.
  destruct (transformedData_ready Docs.plainText Docs.nested
              (Docs.dataOf Docs.nested) eq_refl) as (HW & Hall & Hrefs).
  destruct (depth_columns_follow_parent_links 10 (Docs.dataOf Docs.nested) 2
              eq_refl ltac:(vm_compute; discriminate) HW Hall Hrefs)
    as (header & blocks & Hcsv & Hhead & _ & _ & Hrows).
  exists header, blocks. split; [exact Hcsv|]. split; [exact Hhead|].
  apply Forall2_length in Hrows. rewrite <- Hrows. reflexivity.
Defined.

(** C2, as stated, fails: with a single top-level container the
    greatest number of container ancestors above a container node is 0,
    and the table has one [container_depth] column. *)
Lemma depth_columns_exceed_container_ancestors :
  exists header rows,
    doFormatCsv 10 (Docs.dataOf Docs.widget) = Normal (header :: rows) /\
    length (depthEntries header) = 1 /\
    greatestContainerAncestors 10
      (forest (containers (Docs.dataOf Docs.widget)))
      (all (containers (Docs.dataOf Docs.widget))) = Some 0.
Proof.
  eexists. eexists. split; [vm_compute; reflexivity|].
  split; vm_compute; reflexivity.
Qed.

End Pipeline.

(* ===================================================================== *)
(** ** The order of [Object.values] *)
(* ===================================================================== *)

Section ObjectKeys.

Lemma insert_by_index_In n k l x :
  In x (JsObject.insert_by_index n k l) <-> x = (n, k) \/ In x l.
Proof.
  induction l as [|[m k'] l IH]; simpl.
  - split; intros [H|H]; auto.
  - destruct (n <=? m)%N; simpl; [split; intros [H|H]; auto|].
    rewrite IH. split; intros H; intuition auto.
Qed.

Lemma index_keys_In ks k :
  In k (map snd (JsObject.index_keys ks)) <->
  In k ks /\ JsObject.is_index k = true.
Proof.
  unfold JsObject.is_index. induction ks as [|k0 ks IH]; simpl; [tauto|].
  destruct (JsObject.array_index k0) as [n|] eqn:E.
  - rewrite in_map_iff. split.
    + intros [[m k'] [Hk Hin]]. simpl in Hk. subst k'.
      apply insert_by_index_In in Hin as [Hin|Hin].
      * injection Hin as -> ->. rewrite E. auto.
      * assert (H : In k (map snd (JsObject.index_keys ks)))
          by (apply in_map_iff; exists (m, k); auto).
        apply IH in H. tauto.
    + intros [[->|Hin] Hi].
      * exists (n, k). split; [reflexivity|].
        apply insert_by_index_In. auto.
      * assert (H : In k (map snd (JsObject.index_keys ks)))
          by (apply IH; auto).
        apply in_map_iff in H as [[m k'] [Hk Hin']]. simpl in Hk. subst k'.
        exists (m, k). split; [reflexivity|].
        apply insert_by_index_In. auto.
  - rewrite IH. split.
    + intros [Hin Hi]. auto.
    + intros [[->|Hin] Hi]; [rewrite E in Hi; discriminate | auto].
Qed.

(** [Object.values] lists every own property, whatever the order. *)
Lemma keys_of_In ks k : In k (JsObject.keys_of ks) <-> In k ks.
Proof.
  unfold JsObject.keys_of. rewrite in_app_iff, index_keys_In, filter_In.
  destruct (JsObject.is_index k); simpl; intuition auto; discriminate.
Qed.

End ObjectKeys.

Section NoContainers.

Import Dom Parsers Transformers Exporters Spec.

Lemma transformConnectContainers_all data :
  all (containers (OwnKeys.transformConnectContainers data)) = all (containers data).
Proof.
  unfold OwnKeys.transformConnectContainers.
  destruct (OwnKeys.connectContainers_from _ 0 (assumptions data)
              (forest (containers data))) as [assumps F'].
  reflexivity.
Qed.

(** The extractor's [all] is empty exactly when the document has no
    container with an id. *)
Lemma parseContainers_all_nil (document : Document) :
  all (OwnKeys.parseContainers document) = [] <-> containerNodes document = [].
Proof.
  unfold OwnKeys.parseContainers. simpl. split.
  - intros H. destruct (containerNodes document) as [|n nodes] eqn:E;
      [reflexivity|]. exfalso.
    set (F := fold_left (OwnKeys.addContainer (map id (n :: nodes))) (n :: nodes)
                        emptyForest) in *.
    assert (Hn : nodeIdOf F (CacheRef (id (last (n :: nodes) n))) <> None).
    { unfold F. rewrite nodeIdOf_fold.
      destruct (lastElement (id (last (n :: nodes) n)) (n :: nodes)) eqn:El;
        [discriminate|].
      exfalso. revert El. apply lastElement_some.
      exists (last (n :: nodes) n). split; [|reflexivity].
      destruct (exists_last (l := n :: nodes)) as [l' [a Ha]];
        [discriminate|].
      rewrite Ha, last_last. apply in_or_app. right. left. reflexivity. }
    unfold nodeIdOf, deref in Hn.
    destruct (JsObject.get (id (last (n :: nodes) n)) (containerCache F))
      eqn:Eg; [|apply Hn; reflexivity].
    assert (Hk : In (id (last (n :: nodes) n))
                    (JsObject.keys (containerCache F))).
    { unfold JsObject.keys. apply keys_of_In. apply get_In_keys.
      rewrite Eg. discriminate. }
    unfold values in H. destruct (JsObject.keys (containerCache F));
      [destruct Hk | discriminate].
  - intros ->. reflexivity.
Qed.

(** The [parse] command on a document without containers ends in the
    [RangeError] of the header construction. *)
Lemma parse_without_containers (htmlDecode : jsstring -> jsstring)
    (fuel : nat) (document : Document) (data : Data) :
  containerNodes document = [] ->
  Cli.transformedData htmlDecode document = Normal data ->
  Cli.parseToTable htmlDecode fuel document = Abrupt RangeError.
Proof.
  intros Hc Hd. unfold Cli.parseToTable. rewrite Hd. simpl.
  apply doFormatCsv_no_containers.
  destruct (transformedData_own _ _ _ Hd) as (as0 & qs0 & _ & _ & _ & ->).
  rewrite transformConnectContainers_all. simpl.
  apply parseContainers_all_nil. exact Hc.
Qed.

End NoContainers.

(* ===================================================================== *)
(** ** The embedding on concrete inputs *)
(* ===================================================================== *)

Section Tests.

Import Dom Parsers Transformers Exporters.

Example prefix_after_tag :
  Regex.exec_prefix (js "A") (js "foo>a(7):  bar")
  = Some (js "foo", Some (js "7"), js "bar").
Proof. reflexivity. Qed.

Example prefix_needs_closed_id :
  Regex.exec_prefix (js "A") (js "A(7: bar") = None.
Proof. reflexivity. Qed.

Example prefix_not_inside_word :
  Regex.exec_prefix (js "A") (js "xA: bar >A:z")
  = Some (js "xA: bar ", None, js "z").
Proof. reflexivity. Qed.

Example tags_are_stripped :
  Regex.strip_tags (js "<font color=red>A: x</font> <spanner>y</span><b>")
  = js "A: x y<b>".
Proof. reflexivity. Qed.

Example cleanup_of_tagged_value :
  cleanup (js "Q") (js "<span>q(x_1):</span> What?") = js "What?".
Proof. reflexivity. Qed.

Example subquestions_of_value :
  subquestions
    (js "Q: Header<br>- Does it scale?<br/>-Is it fast? <br>-  <br>x")
  = [js "Does it scale?"; js "Is it fast?"; js "<br>x"].
Proof. reflexivity. Qed.

Example object_keys_order :
  JsObject.keys_of [js "C1"; js "10"; js "2"; js "01"; js "b"]
  = [js "2"; js "10"; js "C1"; js "01"; js "b"].
Proof. reflexivity. Qed.

Example auto_ids_skip_reserved :
  option_map (map p_prefixId)
    (match findPrefixedNodes Docs.plainText
             [Docs.cell "n1" None (Some "A(auto_1): a"%string) None;
              Docs.cell "n2" None (Some "A: b"%string) None;
              Docs.cell "n3" None (Some "a: c"%string) None]
             (js "A") with
     | Normal ps => Some ps
     | _ => None
     end)
  = Some [js "auto_1"; js "auto_2"; js "auto_3"].
Proof. reflexivity. Qed.

(** The end-to-end example of the specification, with generated ids. *)
Example table_of_widget :
  Cli.parseToTable Docs.plainText 10 Docs.widget
  = Normal
      [map (fun s => CStr (js s))
         ["assumptionId"; "questionId"; "subquestionId"; "assumption";
          "question"; "container"; "container_depth1"]%string;
       [CStr (js "auto_1"); CNull; CNull; CStr (js "Widget works"); CNull;
        CStr (js "Group"); CStr (js "Group")];
       [CStr (js "auto_1"); CStr (js "auto_1");
        CStr (js "A(auto_1):Q(auto_1):1"); CStr (js "Widget works");
        CStr (js "Does it scale?"); CStr (js "Group"); CStr (js "Group")];
       [CStr (js "auto_1"); CStr (js "auto_1");
        CStr (js "A(auto_1):Q(auto_1):2"); CStr (js "Widget works");
        CStr (js "Is it fast?"); CStr (js "Group"); CStr (js "Group")]].
Proof. reflexivity. Qed.

Example table_of_nested :
  Cli.parseToTable Docs.plainText 10 Docs.nested
  = Normal
      [map (fun s => CStr (js s))
         ["assumptionId"; "questionId"; "subquestionId"; "assumption";
          "question"; "container"; "container_depth1";
          "container_depth2"]%string;
       [CStr (js "a1"); CNull; CNull; CStr (js "Deep"); CNull;
        CStr (js "Outer / Inner"); CStr (js "Outer"); CStr (js "Inner")];
       [CStr (js "auto_1"); CNull; CNull; CStr (js "Shallow"); CNull;
        CStr (js "Outer"); CStr (js "Outer"); CStr []]].
Proof. reflexivity. Qed.

End Tests.

(* ===================================================================== *)
(** ** Termination of the depth loops on extracted forests *)
(* ===================================================================== *)

Section Termination.

Import Dom Parsers Transformers Exporters Spec.

Lemma deref_addContainer_some ids F n r :
  deref (OwnKeys.addContainer ids F n) r <> None <->
  deref F r <> None \/ r = CacheRef (id n)
  \/ r = CacheRef (prop_key (attr_parent n)).
Proof.
  rewrite deref_addContainer. cbv zeta.
  destruct (deref F r) as [t|] eqn:E.
  - split; [intros _; left; discriminate | intros _; discriminate].
  - destruct (ref_eqb r (CacheRef (id n))) eqn:E1;
      destruct (ref_eqb r (CacheRef (prop_key (attr_parent n)))) eqn:E2;
      simpl.
    + apply ref_eqb_eq in E1. split; [auto | discriminate].
    + apply ref_eqb_eq in E1. split; [auto | discriminate].
    + apply ref_eqb_eq in E2. split; [auto | discriminate].
    + split; [congruence|]. intros [H|[H|H]]; [congruence| |].
      * apply ref_eqb_eq in H. congruence.
      * apply ref_eqb_eq in H. congruence.
Qed.

Lemma deref_fold_some ids nodes F r :
  deref (fold_left (OwnKeys.addContainer ids) nodes F) r <> None <->
  deref F r <> None \/
  exists n, In n nodes /\
    (r = CacheRef (id n) \/ r = CacheRef (prop_key (attr_parent n))).
Proof.
  revert F; induction nodes as [|n nodes IH]; intros F; simpl.
  - split; [auto | intros [H|[n [[] _]]]; assumption].
  - rewrite IH, deref_addContainer_some. split.
    + intros [[H|H]|[m [Hm H]]]; [auto | | right; exists m; auto].
      right. exists n. auto.
    + intros [H|[m [[<-|Hm] H]]]; [auto | auto | right; exists m; auto].
Qed.

Lemma deref_emptyForest_cache k : deref emptyForest (CacheRef k) = None.
Proof. reflexivity. Qed.






End Termination.

(* ===================================================================== *)
(** * Further properties of the code *)
(* ===================================================================== *)

(** ** Codec: other options, whole files *)

Section CodecMore.

Import Codec.

(** X1. Encoding and decoding with the same options round-trips for every
    option setting that keeps percent-encoding on or switches deflate
    off: whenever [encodeDrawio] returns a payload that the unwrap stage
    hands on unchanged, [decodeDrawio] returns the text. *)
Theorem roundtrip_same_options
    (L : Libs) (HL : Lawful L) (o : Options) (x payload : jsstring) :
  flag (urlEncode o) = true \/ flag (deflate o) = false ->
  encodeDrawio L x (Some o) = Returned payload ->
  unwrapDocument L payload = Some payload ->
  decodeDrawio L payload (Some o) = Returned x.
Proof.
  intros Hopt Henc Hun.
  unfold encodeDrawio, decodeDrawio, try_stage in *. rewrite Hun.
  destruct (flag (urlEncode o)) eqn:Eu.
  - destruct (encodeURIComponent L x) as [e|] eqn:He; [|discriminate].
    destruct (flag (deflate o)) eqn:Ed; simpl andb in *.
    + destruct e as [|c e].
      * simpl in Henc.
        destruct (flag (base64 o)).
        -- destruct (btoa L []) as [p|] eqn:Hp; [|discriminate].
           injection Henc as <-. rewrite (base64_inverse HL _ Hp). simpl.
           rewrite (uri_inverse HL _ He). reflexivity.
        -- injection Henc as <-. simpl.
           rewrite (uri_inverse HL _ He). reflexivity.
      * cbn [length Nat.ltb Nat.leb] in Henc.
        destruct (deflateRaw L (c :: e)) as [b|] eqn:Hb; [|discriminate].
        unfold fromCharCode_apply in Henc.
        destruct (N.of_nat (length b) <=? argumentsLimit L)%N;
          [|discriminate].
        cbv iota in Henc.
        destruct (deflate_inverse HL _ He Hb) as [Hi Hne].
        assert (Hinf : forall d, d = fromCharCode b ->
                  (if (0 <? length d)
                   then inflateRaw L (Uint8Array_from d) else Some d)
                  = Some (c :: e)).
        { intros d ->. rewrite Uint8Array_from_fromCharCode, Hi.
          destruct b; [congruence | reflexivity]. }
        destruct (flag (base64 o)).
        -- destruct (btoa L (fromCharCode b)) as [p|] eqn:Hp;
             [|discriminate].
           injection Henc as <-. rewrite (base64_inverse HL _ Hp).
           cbv beta iota. rewrite (Hinf _ eq_refl).
           cbv beta iota. rewrite (uri_inverse HL _ He). reflexivity.
        -- injection Henc as <-. cbv beta iota. rewrite (Hinf _ eq_refl).
           cbv beta iota. rewrite (uri_inverse HL _ He). reflexivity.
    + destruct (flag (base64 o)).
      * destruct (btoa L e) as [p|] eqn:Hp; [|discriminate].
        injection Henc as <-. rewrite (base64_inverse HL _ Hp).
        cbv beta iota. rewrite (uri_inverse HL _ He). reflexivity.
      * injection Henc as <-. cbv beta iota.
        rewrite (uri_inverse HL _ He). reflexivity.
  - destruct Hopt as [Hopt|Hopt]; [discriminate|]. rewrite Hopt in *.
    simpl andb in *. cbv beta iota in *.
    destruct (flag (base64 o)).
    + destruct (btoa L x) as [p|] eqn:Hp; [|discriminate].
      injection Henc as <-. rewrite (base64_inverse HL _ Hp). reflexivity.
    + injection Henc as <-. reflexivity.
Qed.

Lemma roundtrip_same_options_witness :
  decodeDrawio Examples.browserLibs (More.stored (js "a%20b"))
    (Some (mkOptions (Some false) None None))
  = Returned (js "a%20b").
Proof.
  apply (roundtrip_same_options Examples.browserLibs
           (standInLibs_lawful Examples.lenientParseXml)
           (mkOptions (Some false) None None) (js "a%20b")).
  - left. reflexivity.
  - vm_compute. reflexivity.
  - vm_compute. reflexivity.
Defined.

(** X2. Decoding a whole [mxfile] document is decoding the text of its
    first [diagram] element; further diagrams are ignored. *)
Theorem decode_mxfile_is_decode_first_diagram
    (L : Libs) (file : jsstring) (o : option Options)
    (root : XmlElement) (first : jsstring) (others : list jsstring) :
  parseXml L file = Some (mkXmlDocument (Some root)) ->
  nodeName root = js "mxfile" ->
  diagramTexts root = first :: others ->
  unwrapDocument L first = Some first ->
  decodeDrawio L file o = decodeDrawio L first o.
Proof.
  intros Hp Hn Hd Hf. unfold decodeDrawio.
  assert (Hu : unwrapDocument L file = Some first).
  { unfold unwrapDocument. rewrite Hp. simpl. rewrite Hn, Hd.
    rewrite str_eqb_refl. reflexivity. }
  rewrite Hu, Hf. reflexivity.
Qed.

Lemma decode_mxfile_is_decode_first_diagram_witness :
  decodeDrawio More.fileLibs More.mxfileText None = Returned (js "abc").
Proof.
  rewrite (decode_mxfile_is_decode_first_diagram More.fileLibs
             More.mxfileText None
             (mkXmlElement (js "mxfile")
                [More.stored (js "abc"); More.stored (js "xyz")])
             (More.stored (js "abc")) [More.stored (js "xyz")]).
  - vm_compute. reflexivity.
  - vm_compute. reflexivity.
  - reflexivity.
  - reflexivity.
  - vm_compute. reflexivity.
Defined.

End CodecMore.

(** ** Container extractor: the tree nodes *)

Section ContainerTree.

Import Dom Parsers Spec More.

Lemma headerOf_addContainer ids F n r :
  headerOf (OwnKeys.addContainer ids F n) r
  = if ref_eqb r (CacheRef (id n)) then Some (containerHeader n)
    else match headerOf F r with
         | Some h => Some h
         | None => if ref_eqb r (CacheRef (prop_key (attr_parent n)))
                   then Some (header createNode) else None
         end.
Proof.
  unfold headerOf. rewrite deref_addContainer.
  destruct r as [|k]; simpl.
  - destruct (negb (resolves ids n)); reflexivity.
  - destruct (JsObject.get k (containerCache F)) as [t|];
      destruct (str_eqb k (id n)) eqn:E1;
      destruct (str_eqb k (prop_key (attr_parent n))) eqn:E2;
      try reflexivity;
      apply str_eqb_eq in E1; subst k; reflexivity.
Qed.

Lemma headerOf_fold ids nodes F k :
  headerOf (fold_left (OwnKeys.addContainer ids) nodes F) (CacheRef k)
  = match lastElement k nodes with
    | Some n => Some (containerHeader n)
    | None =>
        match headerOf F (CacheRef k) with
        | Some h => Some h
        | None => if namedAsParent k nodes
                  then Some (header createNode) else None
        end
    end.
Proof.
  revert F; induction nodes as [|n nodes IH]; intros F; simpl.
  - destruct (headerOf F (CacheRef k)); reflexivity.
  - rewrite IH. destruct (lastElement k nodes) as [m|]; [reflexivity|].
    rewrite headerOf_addContainer. simpl.
    destruct (str_eqb k (id n)); [reflexivity|].
    destruct (headerOf F (CacheRef k)); [reflexivity|].
    destruct (str_eqb k (prop_key (attr_parent n))); simpl;
      [destruct (namedAsParent k nodes)|]; reflexivity.
Qed.

Lemma headerOf_fold_root ids nodes F :
  headerOf (fold_left (OwnKeys.addContainer ids) nodes F) RootRef
  = headerOf F RootRef.
Proof.
  revert F; induction nodes as [|n nodes IH]; intros F; simpl;
    [reflexivity|].
  rewrite IH, headerOf_addContainer. simpl. reflexivity.
Qed.

Lemma assumptions_addContainer ids F n :
  (forall r t, deref F r = Some t -> Parsers.assumptions t = None) ->
  forall r t, deref (OwnKeys.addContainer ids F n) r = Some t ->
              Parsers.assumptions t = None.
Proof.
  intros HF r t. rewrite deref_addContainer. cbv zeta.
  assert (Hold : forall t0,
            match deref F r with
            | Some t => Some t
            | None => if ref_eqb r (CacheRef (id n))
                         || ref_eqb r (CacheRef (prop_key (attr_parent n)))
                      then Some createNode else None
            end = Some t0 -> Parsers.assumptions t0 = None).
  { intros t0. destruct (deref F r) as [t1|] eqn:E.
    - intros H; injection H as <-. eapply HF; eassumption.
    - destruct (_ || _); [|discriminate].
      intros H; injection H as <-. reflexivity. }
  destruct (match deref F r with Some _ => _ | None => _ end) as [t0|];
    [|discriminate].
  specialize (Hold t0 eq_refl). intros H; injection H as <-.
  destruct (ref_eqb r (CacheRef (id n)));
    destruct (ref_eqb r RootRef && negb (resolves ids n));
    destruct (ref_eqb r (CacheRef (prop_key (attr_parent n))));
    exact Hold.
Qed.

Lemma assumptions_fold ids nodes F :
  (forall r t, deref F r = Some t -> Parsers.assumptions t = None) ->
  forall r t, deref (fold_left (OwnKeys.addContainer ids) nodes F) r = Some t ->
              Parsers.assumptions t = None.
Proof.
  revert F; induction nodes as [|n nodes IH]; intros F HF; simpl;
    [exact HF|].
  apply IH. apply assumptions_addContainer. exact HF.
Qed.

(** X3. When the container extractor returns, every tree node of its
    forest is either the node of a container element, carrying that
    element, its id, its value (the empty text when the attribute is
    missing) and a parent link to the node cached under its parent
    attribute, or a blank placeholder with none of these; of several
    containers with one id the last one is kept. The root is blank, and
    no node lists assumptions yet. *)
Theorem tree_nodes_are_containers_or_placeholders
    (document : Document) (C : Containers) (r : ref) (t : TreeNode) :
  parseContainers document = Normal C ->
  deref (forest C) r = Some t ->
  header t
  = match r with
    | RootRef => header createNode
    | CacheRef k =>
        match lastElement k (containerNodes document) with
        | Some n => containerHeader n
        | None => header createNode
        end
    end
  /\ Parsers.assumptions t = None.
Proof.
  intros HC Ht. rewrite (parseContainers_own _ _ HC) in Ht. clear HC.
  split.
  - unfold OwnKeys.parseContainers in Ht. simpl in Ht. destruct r as [|k].
    + pose proof (headerOf_fold_root
                    (map id (containerNodes document))
                    (containerNodes document) emptyForest) as H.
      change (headerOf emptyForest RootRef)
        with (Some (header createNode)) in H.
      unfold headerOf in H. rewrite Ht in H. cbn [option_map] in H.
      congruence.
    + pose proof (headerOf_fold
                    (map id (containerNodes document))
                    (containerNodes document) emptyForest k) as H.
      change (headerOf emptyForest (CacheRef k)) with (@None
        (option Element * option jsstring * option jsstring * option ref))
        in H.
      unfold headerOf in H. rewrite Ht in H. cbn [option_map] in H.
      destruct (lastElement k (containerNodes document)).
      * congruence.
      * destruct (namedAsParent k (containerNodes document));
          [congruence | discriminate].
  - unfold OwnKeys.parseContainers in Ht. simpl in Ht.
    eapply assumptions_fold; [|exact Ht].
    intros [|k] t0; simpl; [|discriminate].
    intros H; injection H as <-. reflexivity.
Qed.

End ContainerTree.

Section ContainerTreeExamples.

Import Dom Parsers Spec More.

Lemma tree_nodes_are_containers_or_placeholders_witness :
  header (mkTreeNode
            (Some (Docs.cell "C2" (Some "swimlane;container=1;"%string)
                             (Some "Inner"%string) (Some "C1"%string)))
            (Some (js "C2")) (Some (CacheRef (js "C1"))) []
            (Some (js "Inner")) None)
  = containerHeader
      (Docs.cell "C2" (Some "swimlane;container=1;"%string)
                 (Some "Inner"%string) (Some "C1"%string))
  /\ Parsers.assumptions
       (mkTreeNode
          (Some (Docs.cell "C2" (Some "swimlane;container=1;"%string)
                           (Some "Inner"%string) (Some "C1"%string)))
          (Some (js "C2")) (Some (CacheRef (js "C1"))) []
          (Some (js "Inner")) None) = None.
Proof.
  apply (tree_nodes_are_containers_or_placeholders Docs.nested
           (Docs.containersOf Docs.nested) (CacheRef (js "C2")));
    vm_compute; reflexivity.
Defined.

End ContainerTreeExamples.

(** ** Container extractor: links and listing *)

Section ContainerLinks.

Import Dom Parsers Spec More.

Lemma flat_map_optional {A B} (b : A -> bool) (g : A -> B) (l : list A) :
  flat_map (fun x => if b x then [g x] else []) l = map g (filter b l).
Proof.
  induction l as [|x l IH]; simpl; [reflexivity|].
  rewrite IH. destruct (b x); reflexivity.
Qed.

Lemma childrenOf_emptyForest r : childrenOf emptyForest r = [].
Proof. destruct r; reflexivity. Qed.

(** X4. When the container extractor returns, its children lists are in
    document order: the root lists the containers whose parent attribute
    names no container, and the node cached under a key lists the
    containers whose parent attribute is that key, each in the order of
    the document. *)
Theorem children_are_in_document_order
    (document : Document) (C : Containers) :
  parseContainers document = Normal C ->
  let nodes := containerNodes document in
  let F := forest C in
  childrenOf F RootRef
  = map (fun n => CacheRef (id n))
        (filter (fun n => negb (resolves (map id nodes) n)) nodes)
  /\ forall k,
       childrenOf F (CacheRef k)
       = map (fun n => CacheRef (id n))
           (filter (fun n => str_eqb k (prop_key (attr_parent n))) nodes).
Proof.
  intros HC nodes F. subst F. rewrite (parseContainers_own _ _ HC).
  unfold OwnKeys.parseContainers. fold nodes. simpl.
  split; [|intros k]; rewrite childrenOf_fold, childrenOf_emptyForest;
    simpl; unfold attached; simpl.
  - rewrite <- flat_map_optional. apply flat_map_ext. intros n.
    rewrite app_nil_r. reflexivity.
  - rewrite <- flat_map_optional. apply flat_map_ext. intros n.
    reflexivity.
Qed.

(** X5. When the container extractor returns, a parent link always leads
    to a tree node of the cache, never to the root, and that node lists
    the child among its children. *)
Theorem parent_links_are_matched_by_child_links
    (document : Document) (C : Containers) (r p : ref) :
  parseContainers document = Normal C ->
  let F := forest C in
  parentOf F r = Some p ->
  p <> RootRef /\ deref F p <> None /\ In r (childrenOf F p).
Proof.
  intros HC F. subst F. rewrite (parseContainers_own _ _ HC).
  unfold OwnKeys.parseContainers. simpl. intros Hp.
  destruct r as [|k].
  - rewrite parentOf_fold_root in Hp. discriminate.
  - rewrite parentOf_fold in Hp.
    destruct (lastElement k (containerNodes document)) as [n|] eqn:El;
      [|cbv in Hp; discriminate].
    injection Hp as <-.
    destruct (lastElement_In _ _ _ El) as [Hin Hid].
    split; [discriminate|]. split.
    + apply deref_fold_some. right. exists n. auto.
    + rewrite childrenOf_fold. apply in_or_app. right.
      apply in_flat_map. exists n. split; [assumption|].
      unfold attached. apply in_or_app. right.
      rewrite ref_eqb_refl. rewrite Hid. simpl. auto.
Qed.





Lemma all_cached_nodes (document : Document) (r : ref) :
  In r (all (OwnKeys.parseContainers document)) <->
  exists n, In n (containerNodes document) /\
    (r = CacheRef (id n) \/ r = CacheRef (prop_key (attr_parent n))).
Proof.
  unfold OwnKeys.parseContainers. simpl. unfold values, JsObject.keys.
  rewrite in_map_iff. split.
  - intros [k [<- Hk]]. apply (proj1 (keys_of_In _ _)) in Hk.
    apply (proj2 (get_In_keys _ _)) in Hk.
    apply (deref_fold_some _ _ _ (CacheRef k)) in Hk as [Hk|Hk];
      [simpl in Hk; congruence | exact Hk].
  - intros Hn.
    assert (H : deref (fold_left
                         (OwnKeys.addContainer (map id (containerNodes document)))
                         (containerNodes document) emptyForest) r
                <> None)
      by (apply deref_fold_some; right; exact Hn).
    destruct Hn as [n [_ [-> | ->]]]; eexists; (split; [reflexivity|]);
      apply (proj2 (keys_of_In _ _)), (proj1 (get_In_keys _ _));
      exact H.
Qed.


End ContainerLinks.

Section ContainerLinksExamples.

Import Dom Parsers Spec More.

Lemma children_are_in_document_order_witness :
  childrenOf (forest (Docs.containersOf Docs.nested)) RootRef
  = map (fun n => CacheRef (id n))
        (filter (fun n => negb (resolves (map id (containerNodes Docs.nested))
                                         n))
                (containerNodes Docs.nested))
  /\ forall k,
       childrenOf (forest (Docs.containersOf Docs.nested)) (CacheRef k)
       = map (fun n => CacheRef (id n))
           (filter (fun n => str_eqb k (prop_key (attr_parent n)))
                   (containerNodes Docs.nested)).
Proof.
  apply (children_are_in_document_order Docs.nested
           (Docs.containersOf Docs.nested)).
  vm_compute. reflexivity.
Defined.

Lemma parent_links_are_matched_by_child_links_witness :
  CacheRef (js "C1") <> RootRef /\
  deref (forest (Docs.containersOf Docs.nested)) (CacheRef (js "C1")) <> None
  /\ In (CacheRef (js "C2"))
        (childrenOf (forest (Docs.containersOf Docs.nested))
                    (CacheRef (js "C1"))).
Proof.
  apply (parent_links_are_matched_by_child_links Docs.nested
           (Docs.containersOf Docs.nested)
           (CacheRef (js "C2")) (CacheRef (js "C1")));
    vm_compute; reflexivity.
Defined.


End ContainerLinksExamples.

(** ** The depth loop: when it ends *)

Section DepthLoop.

Import Dom Parsers Transformers Exporters Spec More.

Variable htmlDecode : jsstring -> jsstring.

(** The transformers leave the list [all] and the parent links, ids and
    values of the tree nodes as the container extractor built them. *)
Lemma transformedData_shape (document : Document) (data : Data) :
  Cli.transformedData htmlDecode document = Normal data ->
  all (containers data) = all (OwnKeys.parseContainers document) /\
  forall r, option_map shape (deref (forest (containers data)) r)
          = option_map shape (deref (forest (OwnKeys.parseContainers document)) r).
Proof.
  intros Hd.
  destruct (transformedData_own _ _ _ Hd) as (as0 & qs0 & _ & _ & _ & ->).
  unfold OwnKeys.transformConnectContainers.
  set (d1 := OwnKeys.transformConnectQuestions
               (mkData (OwnKeys.parseContainers document) as0 qs0)).
  set (cache := OwnKeys.containerCache_from _ _ _).
  pose proof (connectContainers_shape cache (assumptions d1) 0
                (forest (containers d1))) as Hs.
  destruct (OwnKeys.connectContainers_from cache 0 (assumptions d1)
              (forest (containers d1))) as [assumps F'].
  split; [reflexivity | exact Hs].
Qed.


Lemma depthOf_closed (F : Forest) (onCycle : ref -> Prop) :
  (forall r, onCycle r -> exists t p,
     deref F r = Some t /\ parent t = Some p /\ onCycle p) ->
  forall fuel r, onCycle r -> depthOf fuel F r = None.
Proof.
  intros Hclosed. induction fuel as [|fuel IH]; intros r Hr; simpl;
    [reflexivity|].
  destruct (Hclosed r Hr) as [t [p [Ht [Hp HS]]]].
  rewrite Ht, Hp, (IH p HS). reflexivity.
Qed.

Lemma depths_member_none fuel F l r :
  In r l -> depthOf fuel F r = None -> depths fuel F l = None.
Proof.
  induction l as [|x l IH]; simpl; [tauto|].
  intros [->|Hin] Hr.
  - rewrite Hr. reflexivity.
  - rewrite (IH Hin Hr). destruct (depthOf fuel F x); reflexivity.
Qed.

(** X8. When the parsers and the linkers of the [parse] command return
    and some containers (with distinct ids) name each other as parents in
    a circle, the depth loop of the flattener never ends: the command
    returns nothing, however long it runs. *)
Theorem parse_never_ends_on_cyclic_containers
    (document : Document) (data : Data) (cycle : list Element) :
  NoDup (map id (containerNodes document)) ->
  cycle <> [] ->
  incl cycle (containerNodes document) ->
  (forall n, In n cycle ->
     exists m, In m cycle /\ attr_parent n = Some (id m)) ->
  Cli.transformedData htmlDecode document = Normal data ->
  forall fuel, Cli.parseToTable htmlDecode fuel document = NoResult.
Proof.
  intros Hnd Hne Hincl Hcyc Hd fuel.
  destruct (transformedData_shape document data Hd) as [Hall Hshape].
  set (onCycle := fun r => exists n, In n cycle /\ r = CacheRef (id n)).
  assert (Hclosed : forall r, onCycle r -> exists t p,
            deref (forest (containers data)) r = Some t /\
            parent t = Some p /\ onCycle p).
  { intros r [n [Hn ->]]. destruct (Hcyc n Hn) as [m [Hm Hpar]].
    pose proof (parentOf_fold (map id (containerNodes document))
                  (containerNodes document) emptyForest (id n)) as Hp.
    rewrite (lastElement_unique (id n) (containerNodes document) n Hnd
               (Hincl n Hn) eq_refl) in Hp.
    rewrite Hpar in Hp. simpl in Hp.
    specialize (Hshape (CacheRef (id n))).
    unfold parentOf in Hp. unfold OwnKeys.parseContainers in Hshape.
    cbn [forest] in Hshape.
    destruct (deref (fold_left
                       (OwnKeys.addContainer (map id (containerNodes document)))
                       (containerNodes document) emptyForest)
                    (CacheRef (id n))) as [t0|]; [|discriminate].
    destruct (deref (forest (containers data)) (CacheRef (id n)))
      as [t|]; [|discriminate].
    simpl in Hshape. unfold shape in Hshape.
    exists t, (CacheRef (id m)). split; [reflexivity|].
    split; [congruence|]. exists m. auto. }
  destruct cycle as [|n0 cycle']; [congruence|].
  assert (Hin : In (CacheRef (id n0)) (all (containers data))).
  { rewrite Hall.
    apply (proj2 (all_cached_nodes document (CacheRef (id n0)))).
    exists n0. split; [apply Hincl; left; reflexivity | left; reflexivity]. }
  unfold Cli.parseToTable. rewrite Hd. simpl.
  unfold doFormatCsv, maxContainerDepth.
  rewrite (depths_member_none fuel _ _ _ Hin
             (depthOf_closed _ onCycle Hclosed fuel _
                (ex_intro _ n0 (conj (or_introl eq_refl) eq_refl)))).
  reflexivity.
Qed.

End DepthLoop.

Section DepthLoopExamples.

Import Dom Parsers Transformers Exporters Spec More.


Lemma parse_never_ends_on_cyclic_containers_witness :
  Cli.parseToTable Docs.plainText 1000 selfContained = NoResult.
Proof.
  refine (parse_never_ends_on_cyclic_containers Docs.plainText selfContained
            (Docs.dataOf selfContained)
            [Docs.cell "C1" (Some "swimlane;container=1;"%string)
                       (Some "Loop"%string) (Some "C1"%string)]
            _ _ _ _ _ 1000).
  - vm_compute. repeat constructor. simpl. tauto.
  - discriminate.
  - intros n [<-|[]]. vm_compute. auto.
  - intros n [<-|[]]. eexists. split; [left; reflexivity|].
    vm_compute. reflexivity.
  - vm_compute. reflexivity.
Defined.

End DepthLoopExamples.

(** ** Flattener: the container columns *)

Section ContainerColumns.

Import Dom Parsers Transformers Exporters Spec More.

Lemma block_rows fuel F qs m a block row :
  assumptionRows fuel F qs m a = Some block ->
  In row block ->
  exists chain q index,
    containerChain fuel F (a_container a) [] = Some chain /\
    row = createRow a (padContainers m chain) q index.
Proof.
  unfold assumptionRows.
  destruct (containerChain fuel F (a_container a) []) as [chain|];
    [|discriminate].
  destruct (derefQuestions qs (a_questions a)) as [linked|]; [|discriminate].
  intros H; injection H as <-. intros Hin. exists chain.
  destruct Hin as [<-|Hin]; [exists None, None; auto|].
  apply in_flat_map in Hin as [q [_ Hq]].
  unfold questionRows in Hq. apply in_map_iff in Hq as (j & <- & _).
  exists (Some q), (Some j). auto.
Qed.

Lemma filter_padding k : filter cell_truthy (repeat (CStr []) k) = [].
Proof. induction k; simpl; auto. Qed.

Lemma containerKey_padContainers m chain :
  containerKey (padContainers m chain) = containerKey chain.
Proof.
  unfold containerKey, padContainers. destruct m as [|m]; [reflexivity|].
  rewrite filter_app, filter_padding, app_nil_r. reflexivity.
Qed.

Lemma chain_upward fuel F o acc chain :
  containerChain fuel F o acc = Some chain ->
  exists nodes, upward fuel F o = Some nodes.
Proof.
  revert o acc; induction fuel as [|fuel IH]; intros [r|] acc; simpl;
    try discriminate; try (intros _; exists []; reflexivity).
  destruct (deref F r) as [t|]; [|discriminate].
  intros H. destruct (IH _ _ H) as [above ->]. eexists. reflexivity.
Qed.

Lemma upward_Enclosing fuel F o nodes :
  upward fuel F o = Some nodes -> Enclosing F o nodes.
Proof.
  revert o nodes; induction fuel as [|fuel IH]; intros [r|] nodes; simpl;
    try discriminate;
    try (intros H; injection H as <-; constructor).
  destruct (deref F r) as [t|] eqn:Et; [|discriminate].
  destruct (upward fuel F (parent t)) as [above|] eqn:Ea; [|discriminate].
  intros H; injection H as <-. econstructor; [exact Et | auto].
Qed.

Lemma Enclosing_unique F o nodes nodes' :
  Enclosing F o nodes -> Enclosing F o nodes' -> nodes' = nodes.
Proof.
  intros H; revert nodes'.
  induction H as [|r t above Ht _ IH]; intros nodes' H'; inversion H';
    subst; [reflexivity|].
  assert (t0 = t) by congruence. subst t0. f_equal. auto.
Qed.

(** X9. The [container] column of every row of an assumption is the
    values of its enclosing containers, outermost first, joined by
    [" / "]: the tree nodes met from the assumption's container upwards
    along the parent links, of which those without id (placeholders) are
    left out, their values taken in reverse. Containers with an empty
    value are left out, and the padding of the depth columns never shows
    in it. *)
Theorem container_column_joins_nonempty_values
    (fuel : nat) (F : Forest) (qs : list Question) (m : jsnum)
    (a : Assumption) (block : list Row) (row : Row) :
  assumptionRows fuel F qs m a = Some block ->
  In row block ->
  exists nodes,
    Enclosing F (a_container a) nodes /\
    (forall nodes', Enclosing F (a_container a) nodes' -> nodes' = nodes) /\
    col 5 row
    = Some (CStr (join (js " / ")
                    (filter cell_truthy
                       (rev (map (fun t => cell_of (value t))
                                 (filter isContainer nodes)))))).
Proof.
  intros Hb Hin.
  destruct (block_rows _ _ _ _ _ _ _ Hb Hin) as (chain & q & i & Hc & ->).
  destruct (chain_upward _ _ _ _ _ Hc) as [nodes Hu].
  rewrite (upward_chain _ _ _ _ [] Hu), app_nil_r in Hc.
  injection Hc as <-.
  pose proof (upward_Enclosing _ _ _ _ Hu) as He.
  exists nodes. split; [exact He|]. split.
  - intros nodes' H'. exact (Enclosing_unique _ _ _ _ He H').
  - unfold col, createRow. cbn [nth_error app].
    rewrite containerKey_padContainers. reflexivity.
Qed.



End ContainerColumns.

Section ContainerColumnsExamples.

Import Dom Parsers Transformers Exporters Spec More.

Lemma container_column_joins_nonempty_values_witness :
  exists nodes,
    Enclosing nestedForest (a_container deepAssumption) nodes /\
    (forall nodes', Enclosing nestedForest (a_container deepAssumption) nodes'
                    -> nodes' = nodes) /\
    col 5 (nth 0 deepBlock [])
    = Some (CStr (join (js " / ")
                    (filter cell_truthy
                       (rev (map (fun t => cell_of (value t))
                                 (filter isContainer nodes)))))).
Proof.
  apply (container_column_joins_nonempty_values 10 nestedForest [] (Num 2)
           deepAssumption deepBlock).
  - vm_compute. reflexivity.
  - vm_compute. left. reflexivity.
Defined.


End ContainerColumnsExamples.

(** ** Prefix pattern: what a match looks like *)

Section PrefixGrammar.

Import Regex More.

Lemma match_lit_split lit s r :
  match_lit true lit s = Some r ->
  exists name, s = name ++ r /\
    map canonicalize name = map canonicalize lit.
Proof.
  revert s; induction lit as [|l lit IH]; intros s; simpl.
  - intros H; injection H as <-. exists []. auto.
  - destruct s as [|c s]; [discriminate|].
    destruct (canonicalize l =? canonicalize c)%N eqn:E; [|discriminate].
    intros H. destruct (IH s H) as [name [-> Hn]].
    apply N.eqb_eq in E. exists (c :: name). simpl. split; congruence.
Qed.

Lemma take_while_all p s : forallb p (take_while p s) = true.
Proof.
  induction s as [|c s IH]; simpl; [reflexivity|].
  destruct (p c) eqn:E; simpl; [rewrite E, IH|]; reflexivity.
Qed.

Lemma drop_while_head p s :
  match drop_while p s with c :: _ => p c | [] => false end = false.
Proof.
  induction s as [|c s IH]; simpl; [reflexivity|].
  destruct (p c) eqn:E; [exact IH | exact E].
Qed.

Lemma match_id_group_split s i s2 :
  match_id_group s = Some (i, s2) ->
  s = idText (Some i) ++ s2 /\ i <> [] /\ forallb is_word i = true.
Proof.
  unfold match_id_group. destruct s as [|c s1]; [discriminate|].
  destruct (c =? chr_lpar)%N eqn:Ec; [|discriminate].
  apply N.eqb_eq in Ec. subst c.
  pose proof (take_drop_while is_word s1) as Hs.
  pose proof (take_while_all is_word s1) as Hw.
  destruct (take_while is_word s1) as [|w ws]; [discriminate|].
  destruct (drop_while is_word s1) as [|d s2']; [discriminate|].
  destruct (d =? chr_rpar)%N eqn:Ed; [|discriminate].
  apply N.eqb_eq in Ed. subst d.
  intros H; injection H as <- <-. split; [|split; [discriminate|exact Hw]].
  simpl. rewrite <- Hs. simpl. rewrite <- app_assoc. reflexivity.
Qed.

Lemma match_colon_split s rest :
  match_colon s = Some rest ->
  exists ws, s = chr_colon :: ws ++ rest /\
    forallb is_space ws = true /\ starts_with_space rest = false.
Proof.
  unfold match_colon. destruct s as [|c s1]; [discriminate|].
  destruct (c =? chr_colon)%N eqn:Ec; [|discriminate].
  apply N.eqb_eq in Ec. subst c. intros H; injection H as <-.
  exists (take_while is_space s1). rewrite take_drop_while.
  split; [reflexivity|]. split; [apply take_while_all|].
  apply drop_while_head.
Qed.

Lemma match_prefix_body_split prefix s oid rest :
  match_prefix_body prefix s = Some (oid, rest) ->
  exists name ws,
    s = name ++ idText oid ++ chr_colon :: ws ++ rest /\
    map canonicalize name = map canonicalize prefix /\
    match oid with
    | Some i => i <> [] /\ forallb is_word i = true
    | None => True
    end /\
    forallb is_space ws = true /\ starts_with_space rest = false.
Proof.
  unfold match_prefix_body.
  destruct (match_lit true prefix s) as [s1|] eqn:El; [|discriminate].
  destruct (match_lit_split _ _ _ El) as [name [-> Hn]].
  destruct (match_id_group s1) as [[i s2]|] eqn:Eg.
  - destruct (match_colon s2) as [rest'|] eqn:Ec.
    + intros H; injection H as <- <-.
      destruct (match_id_group_split _ _ _ Eg) as [-> [Hi Hw]].
      destruct (match_colon_split _ _ Ec) as [ws [-> [Hs Hr]]].
      exists name, ws. auto.
    + destruct (match_colon s1) as [rest'|] eqn:Ec1; [|discriminate].
      intros H; injection H as <- <-.
      destruct (match_colon_split _ _ Ec1) as [ws [-> [Hs Hr]]].
      exists name, ws. simpl. auto.
  - destruct (match_colon s1) as [rest'|] eqn:Ec1; [|discriminate].
    intros H; injection H as <- <-.
    destruct (match_colon_split _ _ Ec1) as [ws [-> [Hs Hr]]].
    exists name, ws. simpl. auto.
Qed.

Lemma exec_prefix_from_split at_start prefix s pre oid rest :
  exec_prefix_from at_start prefix s = Some (pre, oid, rest) ->
  exists lead name ws,
    s = pre ++ lead ++ name ++ idText oid ++ chr_colon :: ws ++ rest /\
    (lead = [] /\ pre = [] /\ at_start = true \/ lead = [chr_gt]) /\
    map canonicalize name = map canonicalize prefix /\
    match oid with
    | Some i => i <> [] /\ forallb is_word i = true
    | None => True
    end /\
    forallb is_space ws = true /\ starts_with_space rest = false.
Proof.
  revert at_start pre; induction s as [|c s IH]; intros at_start pre.
  - simpl. unfold match_prefix_at.
    destruct at_start; [|discriminate].
    destruct (match_prefix_body prefix []) as [[o r]|] eqn:E;
      [|discriminate].
    intros H; injection H as <- <- <-.
    destruct (match_prefix_body_split _ _ _ _ E)
      as (name & ws & Hs & Hn & Ho & Hw & Hr).
    exists [], name, ws. simpl. rewrite <- Hs. auto 10.
  - cbn [exec_prefix_from]. unfold match_prefix_at.
    destruct (if at_start then match_prefix_body prefix (c :: s) else None)
      as [[o r]|] eqn:E.
    + destruct at_start; [|discriminate].
      intros H; injection H as <- <- <-.
      destruct (match_prefix_body_split _ _ _ _ E)
        as (name & ws & Hs & Hn & Ho & Hw & Hr).
      exists [], name, ws. simpl. rewrite <- Hs. auto 10.
    + destruct (c =? chr_gt)%N eqn:Ec.
      * apply N.eqb_eq in Ec. subst c.
        destruct (match_prefix_body prefix s) as [[o r]|] eqn:E2.
        -- intros H; injection H as <- <- <-.
           destruct (match_prefix_body_split _ _ _ _ E2)
             as (name & ws & Hs & Hn & Ho & Hw & Hr).
           exists [chr_gt], name, ws. simpl. rewrite <- Hs. auto 10.
        -- destruct (exec_prefix_from false prefix s)
             as [[[pre' o] r]|] eqn:E3; [|discriminate].
           intros H; injection H as <- <- <-.
           destruct (IH _ _ E3) as (lead & name & ws & Hs & Hl & Hrest).
           exists lead, name, ws. simpl. rewrite <- Hs.
           split; [reflexivity|]. split; [|exact Hrest].
           destruct Hl as [(_ & _ & Hf)|Hl]; [discriminate | auto].
      * destruct (exec_prefix_from false prefix s)
          as [[[pre' o] r]|] eqn:E3; [|discriminate].
        intros H; injection H as <- <- <-.
        destruct (IH _ _ E3) as (lead & name & ws & Hs & Hl & Hrest).
        exists lead, name, ws. simpl. rewrite <- Hs.
        split; [reflexivity|]. split; [|exact Hrest].
        destruct Hl as [(_ & _ & Hf)|Hl]; [discriminate | auto].
Qed.

(** X11. What the prefix pattern matches: the prefix, in either case,
    stands at the very start of the text or right after a [>]; it is
    followed by an optional id in parentheses, a non-empty run of word
    characters, then by a colon and all the white space after it. *)
Theorem prefix_match_shape
    (prefix s pre : jsstring) (prefixId : option jsstring)
    (rest : jsstring) :
  exec_prefix prefix s = Some (pre, prefixId, rest) ->
  prefixMatch prefix pre prefixId rest s.
Proof.
  intros H. unfold exec_prefix in H.
  destruct (exec_prefix_from_split _ _ _ _ _ _ H)
    as (lead & name & ws & Hs & Hl & Hrest).
  exists lead, name, ws. split; [exact Hs|]. split; [|exact Hrest].
  destruct Hl as [(Hl & Hp & _)|Hl]; auto.
Qed.

Lemma prefix_match_shape_witness :
  prefixMatch (js "A") (js "<b") (Some (js "x1")) (js "text")
              (js "<b>a(x1):  text").
Proof.
  apply (prefix_match_shape (js "A") (js "<b>a(x1):  text")).
  vm_compute. reflexivity.
Defined.

End PrefixGrammar.

(** ** Prefix extractor: the entities *)

Section Entities.

Import Dom Parsers Regex More.

Variable htmlDecode : jsstring -> jsstring.

Lemma genNextId_loop_least fuel idGenFn counter cache c n :
  genNextId_loop fuel idGenFn counter cache = Some (c, n) ->
  exists k, counter <= k /\ c = idGenFn k /\ n = S k /\
    set_has c cache = false /\
    forall j, counter <= j < k -> set_has (idGenFn j) cache = true.
Proof.
  revert counter; induction fuel as [|fuel IH]; intros counter; simpl;
    [discriminate|].
  destruct (set_has (idGenFn counter) cache) eqn:E.
  - intros H. destruct (IH _ H) as (k & Hk & Hc & Hn & Hf & Hj).
    exists k. repeat split; try assumption; [lia|].
    intros j Hjk. destruct (Nat.eq_dec j counter) as [->|Hne];
      [exact E | apply Hj; lia].
  - intros H; injection H as <- <-. exists counter.
    repeat split; [lia | exact E | intros j Hj; lia].
Qed.

Lemma declaredId_nonempty prefix n pid :
  declaredId htmlDecode prefix n = Some pid -> truthy_str pid = true.
Proof.
  unfold declaredId, extractPrefixFromNode.
  destruct (exec_prefix prefix _) as [[[pre o] rest]|] eqn:E;
    [|discriminate].
  simpl. intros ->.
  destruct (exec_prefix_from_split _ _ _ _ _ _ E)
    as (lead & name & ws & _ & _ & _ & [Hi _] & _).
  destruct pid; [congruence | reflexivity].
Qed.

Lemma extract_record prefix n :
  x_match (extractPrefixFromNode htmlDecode n prefix) = true ->
  x_rawValue (extractPrefixFromNode htmlDecode n prefix) = rawValueOf n /\
  x_value (extractPrefixFromNode htmlDecode n prefix)
  = cleanup prefix (htmlDecode (rawValueOf n)).
Proof.
  unfold extractPrefixFromNode, rawValueOf.
  destruct (exec_prefix prefix _) as [[[pre o] rest]|];
    [simpl; auto | discriminate].
Qed.

Lemma findStep_entity prefix st agg n st' agg' :
  findStep htmlDecode prefix (Normal (st, agg)) n = Normal (st', agg') ->
  1 <= autoIdCounter st ->
  1 <= autoIdCounter st' /\
  exists new,
    agg' = agg ++ new /\
    map p_node new = filter (matches htmlDecode prefix) [n] /\
    forall p, In p new ->
      recordOf htmlDecode prefix p /\ idOrigin htmlDecode prefix p.
Proof.
  unfold findStep, matches. simpl.
  destruct (truthy_str (id n)) eqn:Eid; simpl.
  2:{ intros H Hc; injection H as <- <-. split; [exact Hc|].
      exists []. rewrite app_nil_r. simpl. tauto. }
  unfold parseNode.
  destruct (x_match (extractPrefixFromNode htmlDecode n prefix)) eqn:Em;
    simpl.
  2:{ intros H Hc; injection H as <- <-. split; [exact Hc|].
      exists []. rewrite app_nil_r. simpl. tauto. }
  destruct (extract_record prefix n Em) as [Hraw Hval].
  destruct (x_prefixId (extractPrefixFromNode htmlDecode n prefix))
    as [pid|] eqn:Ep.
  - pose proof (declaredId_nonempty prefix n pid Ep) as Ht.
    destruct (set_has pid (seenIds st)); simpl; [discriminate|].
    rewrite Ht. simpl.
    intros H Hc; injection H as <- <-. split; [exact Hc|].
    eexists [_]. split; [reflexivity|]. split; [reflexivity|].
    intros p [<-|[]]. split.
    + unfold recordOf. simpl. auto.
    + unfold idOrigin, declaredId. simpl. rewrite Ep. reflexivity.
  - simpl. unfold genNextId.
    destruct (genNextId_loop (S (length (seenIds st))) autoId
                (autoIdCounter st) (seenIds st)) as [[c k']|] eqn:Eg;
      simpl; [|discriminate].
    destruct (genNextId_loop_least _ _ _ _ _ _ Eg)
      as (k & Hk & Hc' & Hn & _).
    intros H Hc; injection H as <- <-. simpl. split; [lia|].
    eexists [_]. split; [reflexivity|]. split; [reflexivity|].
    intros p [<-|[]]. split.
    + unfold recordOf. simpl. auto.
    + unfold idOrigin, declaredId. simpl. rewrite Ep.
      exists k. split; [lia | exact Hc'].
Qed.

Lemma fold_findStep_noresult prefix l :
  fold_left (findStep htmlDecode prefix) l NoResult = NoResult.
Proof. induction l; simpl; auto. Qed.

Lemma fold_findStep_builtin prefix l k :
  fold_left (findStep htmlDecode prefix) l (Builtin k) = Builtin k.
Proof. induction l; simpl; auto. Qed.

Lemma fold_findStep_entities prefix l st agg st' agg' :
  fold_left (findStep htmlDecode prefix) l (Normal (st, agg))
  = Normal (st', agg') ->
  1 <= autoIdCounter st ->
  exists new,
    agg' = agg ++ new /\
    map p_node new = filter (matches htmlDecode prefix) l /\
    forall p, In p new ->
      recordOf htmlDecode prefix p /\ idOrigin htmlDecode prefix p.
Proof.
  revert st agg; induction l as [|n l IH]; intros st agg.
  - simpl. intros H _; injection H as <- <-. exists [].
    rewrite app_nil_r. simpl. tauto.
  - cbn [fold_left].
    destruct (findStep htmlDecode prefix (Normal (st, agg)) n)
      as [[st1 agg1]|e| |k] eqn:E.
    + intros H Hc.
      destruct (findStep_entity _ _ _ _ _ _ E Hc)
        as (Hc1 & new1 & -> & Hn1 & Hp1).
      destruct (IH _ _ H Hc1) as (new & -> & Hn & Hp).
      exists (new1 ++ new). rewrite app_assoc. split; [reflexivity|].
      split.
      * rewrite map_app, Hn1, Hn.
        change (n :: l) with ([n] ++ l). rewrite filter_app. reflexivity.
      * intros p Hin. apply in_app_or in Hin as [Hin|Hin]; auto.
    + rewrite fold_findStep_abrupt. discriminate.
    + rewrite fold_findStep_noresult. discriminate.
    + rewrite fold_findStep_builtin. discriminate.
Qed.

(** X12. The prefix extractor returns one entity for each element that
    has a [value] attribute, an id and a decoded value matching the
    prefix pattern, in document order; each entity records the element's
    id, the prefix, the raw value and the cleaned decoded value. *)
Theorem entities_follow_document_order
    (document : Document) (prefix : jsstring) (ps : list PrefixedNode) :
  findPrefixedNodes htmlDecode document prefix = Normal ps ->
  map p_node ps
  = filter (matches htmlDecode prefix) (querySelectorAll sel_value document)
  /\ forall p, In p ps -> recordOf htmlDecode prefix p.
Proof.
  unfold findPrefixedNodes.
  destruct (fold_left _ _ _) as [[st' agg']|e| |k] eqn:E; simpl;
    try discriminate.
  intros H; injection H as <-.
  destruct (fold_findStep_entities _ _ _ _ _ _ E (le_n 1))
    as (new & -> & Hn & Hp).
  simpl. split; [exact Hn|]. intros p Hin. apply (Hp p Hin).
Qed.

(** X13. The id of an entity is the id its value declares in
    parentheses, taken as it is written; an entity whose value declares
    none gets a generated token [auto_k] with [k >= 1]. *)
Theorem entity_ids_are_declared_or_generated
    (document : Document) (prefix : jsstring) (ps : list PrefixedNode) :
  findPrefixedNodes htmlDecode document prefix = Normal ps ->
  forall p, In p ps -> idOrigin htmlDecode prefix p.
Proof.
  unfold findPrefixedNodes.
  destruct (fold_left _ _ _) as [[st' agg']|e| |k] eqn:E; simpl;
    try discriminate.
  intros H; injection H as <-.
  destruct (fold_findStep_entities _ _ _ _ _ _ E (le_n 1))
    as (new & -> & Hn & Hp).
  simpl. intros p Hin. apply (Hp p Hin).
Qed.

(** X14. The id generator hands out the first token, counting from its
    counter, that is not in the set of seen ids; it adds the token to the
    set and leaves the counter just behind it. *)
Theorem generator_returns_first_unused_token
    (fuel : nat) (idGenFn : nat -> jsstring) (st st' : IdState)
    (c : jsstring) :
  genNextId fuel idGenFn st = Some (c, st') ->
  exists k,
    autoIdCounter st <= k /\ c = idGenFn k /\
    autoIdCounter st' = S k /\
    set_has c (seenIds st) = false /\
    (forall j, autoIdCounter st <= j < k ->
       set_has (idGenFn j) (seenIds st) = true) /\
    forall x, set_has x (seenIds st')
              = str_eqb x c || set_has x (seenIds st).
Proof.
  unfold genNextId.
  destruct (genNextId_loop fuel idGenFn (autoIdCounter st) (seenIds st))
    as [[c0 n]|] eqn:E; [|discriminate].
  intros H; injection H as <- <-.
  destruct (genNextId_loop_least _ _ _ _ _ _ E) as (k & Hk & Hc & Hn & Hf & Hj).
  exists k. simpl. repeat split; try assumption.
  intros x. apply set_has_add.
Qed.

End Entities.

Section EntitiesExamples.

Import Dom Parsers Regex More.

Lemma entities_follow_document_order_witness :
  map p_node (entitiesOf Docs.nested (js "A"))
  = filter (matches Docs.plainText (js "A"))
           (querySelectorAll sel_value Docs.nested)
  /\ forall p, In p (entitiesOf Docs.nested (js "A")) ->
               recordOf Docs.plainText (js "A") p.
Proof.
  apply (entities_follow_document_order Docs.plainText Docs.nested (js "A")).
  vm_compute. reflexivity.
Defined.

Lemma entity_ids_are_declared_or_generated_witness :
  Forall (idOrigin Docs.plainText (js "A")) (entitiesOf Docs.nested (js "A")).
Proof.
  apply Forall_forall.
  apply (entity_ids_are_declared_or_generated Docs.plainText Docs.nested
           (js "A")).
  vm_compute. reflexivity.
Defined.

Lemma generator_returns_first_unused_token_witness :
  exists k,
    1 <= k /\ autoId 3 = autoId k /\
    autoIdCounter (mkIdState 4 [autoId 1; autoId 2; autoId 3]) = S k /\
    set_has (autoId 3) [autoId 1; autoId 2] = false /\
    (forall j, 1 <= j < k ->
       set_has (autoId j) [autoId 1; autoId 2] = true) /\
    forall x, set_has x [autoId 1; autoId 2; autoId 3]
              = str_eqb x (autoId 3) || set_has x [autoId 1; autoId 2].
Proof.
  apply (generator_returns_first_unused_token 3 autoId
           (mkIdState 1 [autoId 1; autoId 2])
           (mkIdState 4 [autoId 1; autoId 2; autoId 3]) (autoId 3)).
  vm_compute. reflexivity.
Defined.

End EntitiesExamples.

(** ** Question extractor: the sub-questions *)

Section Subquestions.

Import Dom Parsers Regex More.

Lemma starts_with_space_app a b :
  a <> [] -> starts_with_space (a ++ b) = starts_with_space a.
Proof. destruct a; [congruence | reflexivity]. Qed.

Lemma trim_ends s :
  trim s <> [] ->
  starts_with_space (trim s) = false /\
  starts_with_space (rev (trim s)) = false.
Proof.
  unfold trim. intros Hne. split.
  - pose proof (drop_while_head is_space s) as Hd.
    pose proof (take_drop_while is_space (rev (drop_while is_space s)))
      as Hs.
    set (d := drop_while is_space s) in *.
    set (r' := drop_while is_space (rev d)) in *.
    set (ws := take_while is_space (rev d)) in *.
    assert (Ed : d = rev r' ++ rev ws).
    { rewrite <- rev_app_distr, Hs, rev_involutive. reflexivity. }
    change (starts_with_space d = false) in Hd.
    rewrite Ed, starts_with_space_app in Hd; assumption.
  - rewrite rev_involutive. apply drop_while_head.
Qed.

(** X15. Every sub-question of a question is a non-empty text that
    neither starts nor ends with white space. *)
Theorem subquestions_are_trimmed_and_nonempty
    (rawValue x : jsstring) :
  In x (subquestions rawValue) ->
  x <> [] /\ starts_with_space x = false /\
  starts_with_space (rev x) = false.
Proof.
  unfold subquestions. intros H. apply filter_In in H as [Hin Ht].
  apply in_map_iff in Hin as [y [<- _]].
  assert (Hne : trim y <> []) by (destruct (trim y); [discriminate|congruence]).
  split; [exact Hne | apply trim_ends; exact Hne].
Qed.

Lemma split_br_fuel_no_separator fuel cur s :
  has_br s = false -> split_br_fuel fuel cur s = [rev cur ++ s].
Proof.
  revert cur s; induction fuel as [|fuel IH]; intros cur s; simpl;
    [reflexivity|].
  destruct s as [|c s1]; [rewrite app_nil_r; reflexivity|].
  cbn [has_br].
  destruct (match_br_at (c :: s1)); [discriminate|].
  intros H. rewrite (IH _ _ H). simpl. rewrite <- app_assoc. reflexivity.
Qed.

(** X16. A question whose raw value holds no separator (a [<br] tag
    followed on its line by [>-]) has no sub-questions: the text before
    the first separator is never one. *)
Theorem no_separator_no_subquestions (rawValue : jsstring) :
  has_br rawValue = false -> subquestions rawValue = [].
Proof.
  intros H. unfold subquestions, split_br.
  rewrite (split_br_fuel_no_separator _ [] _ H). reflexivity.
Qed.

Lemma subquestions_are_trimmed_and_nonempty_witness :
  js "Is it fast?" <> [] /\
  starts_with_space (js "Is it fast?") = false /\
  starts_with_space (rev (js "Is it fast?")) = false.
Proof.
  apply (subquestions_are_trimmed_and_nonempty
           (js "Q: Header<br>- Does it scale? <br/>-  Is it fast? ")).
  vm_compute. right. left. reflexivity.
Defined.

Lemma no_separator_no_subquestions_witness :
  subquestions (js "Q: Header<br>Does it scale?") = [].
Proof.
  apply (no_separator_no_subquestions (js "Q: Header<br>Does it scale?")).
  vm_compute. reflexivity.
Defined.

End Subquestions.

(** ** Linker: questions and assumptions *)

Section QuestionLinks.

Import Dom Parsers Transformers More.

Lemma cacheBy_from_get (k : jsstring) (l : list Assumption) (i : nat)
    (o : JsObject.t nat) :
  JsObject.get k (OwnKeys.cacheBy_from a_nodeId i l o)
  = match assumptionFor_from i l k with
    | Some j => Some j
    | None => JsObject.get k o
    end.
Proof.
  revert i o; induction l as [|a l IH]; intros i o; simpl; [reflexivity|].
  rewrite IH. destruct (assumptionFor_from (S i) l k); [reflexivity|].
  rewrite get_set. destruct (str_eqb k (a_nodeId a)); reflexivity.
Qed.

Lemma withQuestions_nil a : withQuestions [] a = a.
Proof.
  destruct a. unfold withQuestions. simpl. rewrite app_nil_r. reflexivity.
Qed.

Lemma withQuestions_app l1 l2 a :
  withQuestions l2 (withQuestions l1 a) = withQuestions (l1 ++ l2) a.
Proof. unfold withQuestions. simpl. rewrite app_assoc. reflexivity. Qed.

Lemma withAssumptions_app l1 l2 q :
  withAssumptions l2 (withAssumptions l1 q) = withAssumptions (l1 ++ l2) q.
Proof.
  destruct l1 as [|x l1]; [reflexivity|].
  destruct l2 as [|y l2]; [rewrite app_nil_r; reflexivity|].
  unfold withAssumptions. simpl. rewrite <- app_assoc. reflexivity.
Qed.

Section WithCache.

Variable cache : JsObject.t nat.

Lemma connectTarget_fst qi st t i :
  nth_error (fst (OwnKeys.connectTarget cache qi st t)) i
  = option_map (withQuestions (map (fun _ => qi) (hits cache i [t])))
               (nth_error (fst st) i).
Proof.
  unfold OwnKeys.connectTarget, hits, resolve. simpl.
  destruct (JsObject.get (prop_key t) cache) as [ai|]; simpl.
  - rewrite nth_error_modify_nth. destruct (Nat.eqb ai i); simpl.
    + reflexivity.
    + destruct (nth_error (fst st) i); simpl;
        [rewrite withQuestions_nil|]; reflexivity.
  - destruct (nth_error (fst st) i); simpl;
      [rewrite withQuestions_nil|]; reflexivity.
Qed.

Lemma connectTarget_snd qi st t j :
  nth_error (snd (OwnKeys.connectTarget cache qi st t)) j
  = option_map (withAssumptions (if Nat.eqb qi j then resolve cache t else []))
               (nth_error (snd st) j).
Proof.
  unfold OwnKeys.connectTarget, resolve.
  destruct (JsObject.get (prop_key t) cache) as [ai|]; simpl.
  - rewrite nth_error_modify_nth. destruct (Nat.eqb qi j); simpl.
    + reflexivity.
    + destruct (nth_error (snd st) j); reflexivity.
  - destruct (Nat.eqb qi j); destruct (nth_error (snd st) j); reflexivity.
Qed.

Lemma fold_connectTarget_fst qi ts st i :
  nth_error (fst (fold_left (OwnKeys.connectTarget cache qi) ts st)) i
  = option_map (withQuestions (map (fun _ => qi) (hits cache i ts)))
               (nth_error (fst st) i).
Proof.
  revert st; induction ts as [|t ts IH]; intros st.
  - simpl. destruct (nth_error (fst st) i); simpl;
      [rewrite withQuestions_nil|]; reflexivity.
  - cbn [fold_left]. rewrite IH, connectTarget_fst.
    destruct (nth_error (fst st) i); simpl; [|reflexivity].
    rewrite withQuestions_app, <- map_app. unfold hits.
    rewrite <- filter_app. cbn [flat_map]. rewrite app_nil_r. reflexivity.
Qed.

Lemma fold_connectTarget_snd qi ts st j :
  nth_error (snd (fold_left (OwnKeys.connectTarget cache qi) ts st)) j
  = option_map (withAssumptions
                  (if Nat.eqb qi j then flat_map (resolve cache) ts else []))
               (nth_error (snd st) j).
Proof.
  revert st; induction ts as [|t ts IH]; intros st.
  - simpl. destruct (Nat.eqb qi j); destruct (nth_error (snd st) j);
      reflexivity.
  - cbn [fold_left]. rewrite IH, connectTarget_snd.
    destruct (nth_error (snd st) j); simpl; [|reflexivity].
    rewrite withAssumptions_app.
    destruct (Nat.eqb qi j); reflexivity.
Qed.

Lemma connectQuestions_fst qi todo st i :
  nth_error (fst (OwnKeys.connectQuestions_from cache qi todo st)) i
  = option_map
      (withQuestions
         (flat_map (fun jq => map (fun _ => fst jq)
                                  (hits cache i (q_targetIds (snd jq))))
                   (combine (seq qi (length todo)) todo)))
      (nth_error (fst st) i).
Proof.
  revert qi st; induction todo as [|q todo IH]; intros qi st.
  - simpl. destruct (nth_error (fst st) i); simpl;
      [rewrite withQuestions_nil|]; reflexivity.
  - cbn [OwnKeys.connectQuestions_from]. rewrite IH, fold_connectTarget_fst.
    destruct (nth_error (fst st) i); simpl; [|reflexivity].
    rewrite withQuestions_app. reflexivity.
Qed.

Lemma connectQuestions_snd qi todo st j :
  nth_error (snd (OwnKeys.connectQuestions_from cache qi todo st)) j
  = option_map
      (withAssumptions
         (match (if qi <=? j then nth_error todo (j - qi) else None) with
          | Some q => flat_map (resolve cache) (q_targetIds q)
          | None => []
          end))
      (nth_error (snd st) j).
Proof.
  revert qi st; induction todo as [|q todo IH]; intros qi st.
  - simpl. destruct (qi <=? j); destruct (j - qi);
      destruct (nth_error (snd st) j); reflexivity.
  - cbn [OwnKeys.connectQuestions_from]. rewrite IH, fold_connectTarget_snd.
    destruct (nth_error (snd st) j) as [q0|]; cbn [option_map];
      [|reflexivity].
    rewrite withAssumptions_app. f_equal. f_equal.
    destruct (Nat.eqb qi j) eqn:E.
    + apply Nat.eqb_eq in E. subst j.
      assert (E1 : (S qi <=? qi) = false) by (apply Nat.leb_gt; lia).
      rewrite E1, Nat.leb_refl, Nat.sub_diag. cbn [nth_error].
      rewrite app_nil_r. reflexivity.
    + apply Nat.eqb_neq in E. cbn [app].
      destruct (S qi <=? j) eqn:E1.
      * apply Nat.leb_le in E1.
        assert (E2 : (qi <=? j) = true) by (apply Nat.leb_le; lia).
        rewrite E2. replace (j - qi) with (S (j - S qi)) by lia.
        reflexivity.
      * apply Nat.leb_gt in E1.
        assert (E2 : (qi <=? j) = false) by (apply Nat.leb_gt; lia).
        rewrite E2. reflexivity.
Qed.

End WithCache.

Lemma question_links (data : Data) :
  (forall i,
     nth_error (assumptions (OwnKeys.transformConnectQuestions data)) i
     = option_map
         (withQuestions (askedBy (assumptions data) (questions data) i))
         (nth_error (assumptions data) i)) /\
  (forall j,
     nth_error (questions (OwnKeys.transformConnectQuestions data)) j
     = option_map
         (fun q => withAssumptions (targetsOf (assumptions data) q) q)
         (nth_error (questions data) j)).
Proof.
  unfold OwnKeys.transformConnectQuestions. simpl.
  set (cache := OwnKeys.cacheBy_from a_nodeId 0 (assumptions data) []).
  assert (Hres : forall q,
            flat_map (resolve cache) (q_targetIds q)
            = targetsOf (assumptions data) q).
  { intros q. unfold targetsOf. apply flat_map_ext. intros t.
    unfold resolve, cache. rewrite cacheBy_from_get.
    destruct (assumptionFor_from 0 (assumptions data) (prop_key t));
      reflexivity. }
  split.
  - intros i. rewrite connectQuestions_fst. cbn [fst snd].
    destruct (nth_error (assumptions data) i); cbn [option_map];
      [|reflexivity].
    f_equal. f_equal. unfold askedBy. apply flat_map_ext. intros [j q].
    cbn [fst snd]. unfold hits. rewrite Hres. reflexivity.
  - intros j. rewrite connectQuestions_snd. cbn [fst snd Nat.leb].
    rewrite Nat.sub_0_r.
    destruct (nth_error (questions data) j) as [q|]; cbn [option_map];
      [|reflexivity].
    rewrite Hres. reflexivity.
Qed.



End QuestionLinks.

Section QuestionLinksExamples.

Import Dom Parsers Transformers More.


End QuestionLinksExamples.

Section LinkSymmetry.

Import Dom Parsers Transformers More.

Lemma count_occ_const (j j' : nat) {A} (l : list A) :
  count_occ Nat.eq_dec (map (fun _ => j') l) j
  = if Nat.eqb j' j then length l else 0.
Proof.
  induction l as [|x l IH]; simpl.
  - destruct (Nat.eqb j' j); reflexivity.
  - rewrite IH. destruct (Nat.eq_dec j' j) as [->|Hne].
    + rewrite Nat.eqb_refl. reflexivity.
    + apply Nat.eqb_neq in Hne. rewrite Hne. reflexivity.
Qed.

Lemma count_occ_indexed (g : Question -> list nat) (l : list Question)
    (from j : nat) :
  count_occ Nat.eq_dec
    (flat_map (fun jq => map (fun _ => fst jq) (g (snd jq)))
              (combine (seq from (length l)) l)) j
  = match (if from <=? j then nth_error l (j - from) else None) with
    | Some q => length (g q)
    | None => 0
    end.
Proof.
  revert from; induction l as [|q l IH]; intros from.
  - simpl. destruct (from <=? j); destruct (j - from); reflexivity.
  - cbn [length seq combine flat_map fst snd].
    rewrite count_occ_app, IH, count_occ_const.
    destruct (Nat.eqb from j) eqn:E.
    + apply Nat.eqb_eq in E. subst j.
      assert (E1 : (S from <=? from) = false) by (apply Nat.leb_gt; lia).
      rewrite E1, Nat.leb_refl, Nat.sub_diag. cbn [nth_error]. lia.
    + apply Nat.eqb_neq in E. cbn [Nat.add].
      destruct (S from <=? j) eqn:E1.
      * apply Nat.leb_le in E1.
        assert (E2 : (from <=? j) = true) by (apply Nat.leb_le; lia).
        rewrite E2. replace (j - from) with (S (j - S from)) by lia.
        reflexivity.
      * apply Nat.leb_gt in E1.
        assert (E2 : (from <=? j) = false) by (apply Nat.leb_gt; lia).
        rewrite E2. reflexivity.
Qed.

Lemma count_occ_filter_eqb (l : list nat) (i : nat) :
  length (filter (fun ai => Nat.eqb ai i) l) = count_occ Nat.eq_dec l i.
Proof.
  induction l as [|x l IH]; simpl; [reflexivity|].
  destruct (Nat.eq_dec x i) as [->|Hne].
  - rewrite Nat.eqb_refl. simpl. rewrite IH. reflexivity.
  - apply Nat.eqb_neq in Hne. rewrite Hne. exact IH.
Qed.

(** X18. When the question linker returns, it has recorded every link
    on both sides: starting from an assumption that lists no question and
    a question whose [assumptions] is undefined, as the parsers leave
    them, the assumption lists the question as many times as the question
    lists the assumption. *)
Theorem links_are_recorded_on_both_sides
    (data data' : Data) (i j : nat) (a : Assumption) (q : Question) :
  transformConnectQuestions data = Normal data' ->
  nth_error (assumptions data) i = Some a -> a_questions a = [] ->
  nth_error (questions data) j = Some q -> q_assumptions q = None ->
  exists a' q',
    nth_error (assumptions data') i = Some a' /\
    nth_error (questions data') j = Some q' /\
    count_occ Nat.eq_dec (a_questions a') j
    = count_occ Nat.eq_dec (assumptionsOf q') i.
Proof.
  intros Hd Ha Haq Hq Hqa. rewrite (transformConnectQuestions_own _ _ Hd).
  destruct (question_links data) as (HA & HQ).
  exists (withQuestions (askedBy (assumptions data) (questions data) i) a),
         (withAssumptions (targetsOf (assumptions data) q) q).
  rewrite HA, HQ, Ha, Hq. split; [reflexivity|]. split; [reflexivity|].
  unfold withQuestions. cbn [a_questions]. rewrite Haq. cbn [app].
  unfold askedBy.
  rewrite (count_occ_indexed
             (fun q => filter (fun ai => Nat.eqb ai i)
                              (targetsOf (assumptions data) q))).
  cbn [Nat.leb]. rewrite Nat.sub_0_r, Hq, count_occ_filter_eqb.
  unfold assumptionsOf, withAssumptions.
  destruct (targetsOf (assumptions data) q) as [|x l]; [rewrite Hqa|];
    cbn [q_assumptions]; [reflexivity|].
  rewrite Hqa. reflexivity.
Qed.

End LinkSymmetry.

Section LinkSymmetryExamples.

Import Dom Parsers Transformers More.

Lemma links_are_recorded_on_both_sides_witness :
  exists a' q',
    nth_error (assumptions (questionsLinked (parsedOf Docs.widget))) 0
    = Some a' /\
    nth_error (questions (questionsLinked (parsedOf Docs.widget))) 0
    = Some q' /\
    count_occ Nat.eq_dec (a_questions a') 0
    = count_occ Nat.eq_dec (assumptionsOf q') 0.
Proof.
  apply (links_are_recorded_on_both_sides (parsedOf Docs.widget)
           (questionsLinked (parsedOf Docs.widget)) 0 0
           (nth 0 (assumptions (parsedOf Docs.widget)) blankAssumption)
           (nth 0 (questions (parsedOf Docs.widget))
                (toQuestion (mkPrefixedNode (Docs.cell "" None None None)
                                            [] [] [] [] []))));
    vm_compute; reflexivity.
Defined.

End LinkSymmetryExamples.

(** ** Linker: assumptions and containers *)

Section ContainerLinksOfAssumptions.

Import Dom Parsers Transformers Exporters Spec More.





End ContainerLinksOfAssumptions.

Section AssumptionsInContainers.

Import Dom Parsers Transformers Exporters Spec More.

Variable htmlDecode : jsstring -> jsstring.

Lemma nodeIdOf_parseContainers document k :
  nodeIdOf (forest (OwnKeys.parseContainers document)) (CacheRef k)
  = match lastElement k (containerNodes document) with
    | Some _ => Some k
    | None => None
    end.
Proof.
  unfold OwnKeys.parseContainers. simpl. rewrite nodeIdOf_fold. reflexivity.
Qed.



End AssumptionsInContainers.

Section AssumptionsInContainersExamples.

Import Dom Parsers Transformers Exporters Spec More.


End AssumptionsInContainersExamples.

(** ** The [parse] command: a parser that throws *)

Section ParserErrors.

Import Dom Parsers Transformers Exporters More.

Variable htmlDecode : jsstring -> jsstring.

Lemma findPrefixedNodes_duplicate document prefix d1 n1 d2 n2 d3 pid :
  document = d1 ++ n1 :: d2 ++ n2 :: d3 ->
  declares htmlDecode prefix n1 pid -> truthy_str (id n1) = true ->
  declares htmlDecode prefix n2 pid -> truthy_str (id n2) = true ->
  exists pid', findPrefixedNodes htmlDecode document prefix
               = Abrupt (DuplicateNode prefix pid').
Proof.
  intros -> (Hv1 & Hm1 & Hp1) Hid1 (Hv2 & Hm2 & Hp2) Hid2.
  unfold findPrefixedNodes, querySelectorAll.
  rewrite filter_app. simpl. rewrite Hv1, filter_app. simpl. rewrite Hv2.
  set (l1 := filter sel_value d1). set (l2 := filter sel_value d2).
  set (l3 := filter sel_value d3).
  replace (l1 ++ n1 :: l2 ++ n2 :: l3)
    with ((l1 ++ n1 :: l2) ++ n2 :: l3)
    by (rewrite <- app_assoc; reflexivity).
  rewrite fold_left_app. simpl.
  pose proof (FindInv_fold htmlDecode prefix (l1 ++ n1 :: l2) [] _
                (FindInv_init htmlDecode prefix)) as Hinv.
  simpl in Hinv.
  destruct (findStep_duplicate htmlDecode prefix _ _ n1 n2 pid Hinv)
    as [pid' E]; trivial.
  { apply in_or_app. right. left. reflexivity. }
  rewrite E, fold_findStep_abrupt. exists pid'. reflexivity.
Qed.

Lemma findPrefixedNodes_returns document prefix :
  (exists ps, findPrefixedNodes htmlDecode document prefix = Normal ps) \/
  (exists e, findPrefixedNodes htmlDecode document prefix = Abrupt e).
Proof.
  unfold findPrefixedNodes.
  pose proof (findPrefixedNodes_inv htmlDecode document prefix) as Hinv.
  destruct (fold_left (findStep htmlDecode prefix)
              (querySelectorAll sel_value document)
              (Normal (initIdState, []))) as [[st agg]|e| |k];
    simpl; try contradiction; eauto.
Qed.

(** X20. When two elements with an id declare the same explicit id under
    the assumption prefix, or under the question prefix, the [parse]
    command does not end with the duplicate error: the parser's error is
    caught and its result left [null], and the first transformer then
    fails with a [TypeError]. No table is built. *)
Theorem duplicate_id_ends_parse_in_type_error
    (fuel : nat) (document d1 d2 d3 : Document) (n1 n2 : Element)
    (prefix pid : jsstring) :
  prefix = js "A" \/ prefix = js "Q" ->
  document = d1 ++ n1 :: d2 ++ n2 :: d3 ->
  declares htmlDecode prefix n1 pid -> truthy_str (id n1) = true ->
  declares htmlDecode prefix n2 pid -> truthy_str (id n2) = true ->
  Cli.parseToTable htmlDecode fuel document = Abrupt TypeError.
Proof.
  intros Hp Hdoc H1 Hi1 H2 Hi2.
  destruct (findPrefixedNodes_duplicate document prefix d1 n1 d2 n2 d3 pid
              Hdoc H1 Hi1 H2 Hi2) as [pid' E].
  unfold Cli.parseToTable, Cli.transformedData.
  destruct Hp as [-> | ->].
  - unfold parseAssumptions. rewrite E. cbn [bind].
    pose proof (linkEdges_returns) as HL.
    unfold parseQuestions.
    destruct (findPrefixedNodes_returns document (js "Q"))
      as [[ps ->]|[e ->]]; cbn [bind]; [|reflexivity].
    match goal with
    | |- context [linkEdges ?qs ?es] =>
        specialize (HL qs es); destruct (linkEdges qs es)
    end; try reflexivity. congruence.
  - unfold parseQuestions. rewrite E. cbn [bind].
    unfold parseAssumptions.
    destruct (findPrefixedNodes_returns document (js "A"))
      as [[ps ->]|[e ->]]; reflexivity.
Qed.

End ParserErrors.

Section ParserErrorsExamples.

Import Dom Parsers Transformers Exporters More.

Lemma duplicate_id_ends_parse_in_type_error_witness :
  Cli.parseToTable Docs.plainText 10 Docs.duplicate = Abrupt TypeError.
Proof.
  apply (duplicate_id_ends_parse_in_type_error Docs.plainText 10
           Docs.duplicate Docs.layers [] []
           (Docs.cell "n1" None (Some "A(x): first"%string)
                      (Some "1"%string))
           (Docs.cell "n2" None (Some "A(x): second"%string)
                      (Some "1"%string))
           (js "A") (js "x")).
  - left. reflexivity.
  - reflexivity.
  - vm_compute. auto.
  - reflexivity.
  - vm_compute. auto.
  - reflexivity.
Defined.

End ParserErrorsExamples.

(** ** When the extractors and the linkers return *)

Section ExtractorOutcome.

Import Dom Parsers Spec More.

Lemma ownOnly_ensure k F : ownOnly F -> ownOnly (ensure k F).
Proof.
  intros HF k'. unfold ensure, JsObject.read.
  destruct (JsObject.get k (containerCache F)) eqn:E; [apply HF|].
  destruct (JsObject.inherited k) eqn:Ei; [apply HF|].
  simpl. rewrite get_set. destruct (str_eqb k' k) eqn:Ek; [|apply HF].
  apply str_eqb_eq in Ek. subst. auto.
Qed.

Lemma ownOnly_modify F r f : ownOnly F -> ownOnly (modify F r f).
Proof.
  intros HF k H. apply HF.
  change (deref (modify F r f) (CacheRef k) <> None) in H.
  rewrite deref_modify in H.
  change (deref F (CacheRef k) <> None).
  destruct (ref_eqb _ _); [|exact H].
  destruct (deref F (CacheRef k)); [discriminate | exact H].
Qed.

Lemma ownOnly_connectNodes F p c : ownOnly F -> ownOnly (connectNodes F p c).
Proof. intros HF. unfold connectNodes. auto using ownOnly_modify. Qed.

Lemma ensure_found k F :
  ownOnly F ->
  match deref (ensure k F) (CacheRef k) with
  | Some _ => JsObject.inherited k = false
  | None => JsObject.inherited k = true
  end.
Proof.
  intros HF. unfold ensure, JsObject.read. simpl.
  destruct (JsObject.get k (containerCache F)) eqn:E.
  - simpl. rewrite E. apply HF. congruence.
  - destruct (JsObject.inherited k) eqn:Ei; simpl.
    + rewrite E. reflexivity.
    + rewrite get_set, str_eqb_refl. reflexivity.
Qed.

Lemma addContainer_outcome ids F n :
  ownOnly F ->
  match addContainer ids F n with
  | Normal F' => ordinary n = true /\ ownOnly F'
  | Abrupt e =>
      e = TypeError /\ JsObject.inherited (id n) = false /\
      JsObject.inherited (prop_key (attr_parent n)) = true
  | Builtin k => k = id n /\ JsObject.inherited k = true
  | NoResult => False
  end.
Proof.
  intros HF. unfold addContainer, ordinary.
  pose proof (ensure_found (id n) F HF) as H1.
  pose proof (ownOnly_ensure (id n) F HF) as HF1.
  destruct (deref (ensure (id n) F) (CacheRef (id n))) as [t|]; [|auto].
  set (G := if negb (truthy (attr_parent n))
               || negb (ids_has ids (attr_parent n))
            then connectNodes
                   (modify (ensure (id n) F) (CacheRef (id n)) (populate n))
                   RootRef (CacheRef (id n))
            else modify (ensure (id n) F) (CacheRef (id n)) (populate n)).
  assert (HG : ownOnly G).
  { unfold G. destruct (_ || _);
      auto using ownOnly_connectNodes, ownOnly_modify. }
  pose proof (ensure_found (prop_key (attr_parent n)) G HG) as H2.
  pose proof (ownOnly_ensure (prop_key (attr_parent n)) G HG) as HG1.
  destruct (deref (ensure (prop_key (attr_parent n)) G)
                  (CacheRef (prop_key (attr_parent n)))) as [t'|].
  - rewrite H1, H2. split; [reflexivity|].
    apply ownOnly_connectNodes. exact HG1.
  - auto.
Qed.

Lemma forEach_addContainer_outcome ids nodes F :
  ownOnly F ->
  match forEach (addContainer ids) nodes F with
  | Normal F' => forallb ordinary nodes = true /\ ownOnly F'
  | Abrupt e =>
      e = TypeError /\
      exists l1 n l2,
        nodes = l1 ++ n :: l2 /\ forallb ordinary l1 = true /\
        JsObject.inherited (id n) = false /\
        JsObject.inherited (prop_key (attr_parent n)) = true
  | Builtin k =>
      exists l1 n l2,
        nodes = l1 ++ n :: l2 /\ forallb ordinary l1 = true /\
        id n = k /\ JsObject.inherited k = true
  | NoResult => False
  end.
Proof.
  revert F; induction nodes as [|n nodes IH]; intros F HF; simpl.
  - auto.
  - pose proof (addContainer_outcome ids F n HF) as Hn.
    destruct (addContainer ids F n) as [F1|e| |k]; simpl.
    + destruct Hn as [Ho HF1]. specialize (IH F1 HF1).
      destruct (forEach (addContainer ids) nodes F1) as [F'|e| |k].
      * rewrite Ho. exact IH.
      * destruct IH as [-> (l1 & m & l2 & -> & Hl & Hi & Hp)].
        split; [reflexivity|]. exists (n :: l1), m, l2. simpl.
        rewrite Ho. auto.
      * contradiction.
      * destruct IH as (l1 & m & l2 & -> & Hl & Hi & Hp).
        exists (n :: l1), m, l2. simpl. rewrite Ho. auto.
    + destruct Hn as (-> & Hi & Hp). split; [reflexivity|].
      exists [], n, nodes. auto.
    + contradiction.
    + destruct Hn as [-> Hi]. exists [], n, nodes. auto.
Qed.


End ExtractorOutcome.

Section ExtractorOutcomeExamples.

Import Dom Parsers Transformers Exporters Spec More.

Lemma container_extractor_outcome_examples :
  parseContainers parentToString = Abrupt TypeError /\
  parseContainers idConstructor = Builtin (js "constructor") /\
  (forall fuel,
     Cli.parseToTable Docs.plainText fuel parentToString = Abrupt TypeError) /\
  (forall fuel,
     Cli.parseToTable Docs.plainText fuel idConstructor
     = Builtin (js "constructor")).
Proof.
  split; [vm_compute; reflexivity|].
  split; [vm_compute; reflexivity|].
  split; intros fuel; unfold Cli.parseToTable.
  - replace (Cli.transformedData Docs.plainText parentToString)
      with (@Abrupt Data TypeError) by (vm_compute; reflexivity).
    reflexivity.
  - replace (Cli.transformedData Docs.plainText idConstructor)
      with (@Builtin Data (js "constructor")) by (vm_compute; reflexivity).
    reflexivity.
Qed.

End ExtractorOutcomeExamples.

Section LinkerOutcome.

Import Dom Parsers Transformers Spec More.

Lemma assign_proto {V} (k : jsstring) (v : V) (o : JsObject.t V) :
  JsObject.assign k v o
  = if str_eqb (js "__proto__") k then None else Some (JsObject.set k v o).
Proof. unfold JsObject.assign. rewrite str_eqb_sym. reflexivity. Qed.

Lemma cacheBy_from_outcome {A} (key : A -> jsstring) i (l : list A) o :
  cacheBy_from key i l o
  = if existsb (str_eqb (js "__proto__")) (map key l) then None
    else Some (OwnKeys.cacheBy_from key i l o).
Proof.
  revert i o; induction l as [|x l IH]; intros i o;
    cbn [cacheBy_from OwnKeys.cacheBy_from map existsb]; [reflexivity|].
  rewrite assign_proto.
  destruct (str_eqb (js "__proto__") (key x)); cbn [orb];
    [reflexivity | apply IH].
Qed.

Lemma cacheBy_from_keys {A} (key : A -> jsstring) i (l : list A) o k :
  JsObject.get k (OwnKeys.cacheBy_from key i l o) = None <->
  JsObject.get k o = None /\ existsb (str_eqb k) (map key l) = false.
Proof.
  revert i o; induction l as [|x l IH]; intros i o; simpl.
  - tauto.
  - rewrite IH, get_set. destruct (str_eqb k (key x)); simpl.
    + split; [intros [H _]; discriminate | intros [_ H]; discriminate].
    + tauto.
Qed.

Lemma containerCache_from_outcome F l o :
  containerCache_from F l o
  = if existsb (str_eqb (js "__proto__"))
               (map (fun r => prop_key (nodeIdOf F r)) l)
    then None else Some (OwnKeys.containerCache_from F l o).
Proof.
  revert o; induction l as [|r l IH]; intros o;
    cbn [containerCache_from OwnKeys.containerCache_from map existsb];
    [reflexivity|].
  rewrite assign_proto. fold (nodeIdOf F r).
  destruct (str_eqb (js "__proto__") (prop_key (nodeIdOf F r))); cbn [orb];
    [reflexivity | apply IH].
Qed.

Lemma containerCache_from_keys F l o k :
  JsObject.get k (OwnKeys.containerCache_from F l o) = None <->
  JsObject.get k o = None /\
  existsb (str_eqb k) (map (fun r => prop_key (nodeIdOf F r)) l) = false.
Proof.
  revert o; induction l as [|r l IH]; intros o; simpl.
  - tauto.
  - rewrite IH, get_set. fold (nodeIdOf F r).
    destruct (str_eqb k (prop_key (nodeIdOf F r))); simpl.
    + split; [intros [H _]; discriminate | intros [_ H]; discriminate].
    + tauto.
Qed.

(** Reading a key from an object whose own keys are [keys]. *)
Lemma read_stray {V} (o : JsObject.t V) (keys : list jsstring) k :
  (forall k, JsObject.get k o = None <-> existsb (str_eqb k) keys = false) ->
  match JsObject.read k o with
  | JsObject.Member => stray keys k = true
  | _ => stray keys k = false
  end.
Proof.
  intros Hk. unfold JsObject.read, stray.
  destruct (JsObject.get k o) eqn:E.
  - destruct (existsb (str_eqb k) keys) eqn:Ex;
      [apply andb_false_r|].
    apply Hk in Ex. congruence.
  - apply Hk in E. rewrite E.
    destruct (JsObject.inherited k); reflexivity.
Qed.

Section WithAssumptionCache.

Variable cache : JsObject.t nat.
Variable keys : list jsstring.
Hypothesis cache_keys :
  forall k, JsObject.get k cache = None <-> existsb (str_eqb k) keys = false.

Lemma forEach_connectTarget_outcome qi ts st :
  match forEach (connectTarget cache qi) ts st with
  | Normal _ => forallb (fun t => negb (stray keys (prop_key t))) ts = true
  | Builtin k =>
      forallb (fun t => negb (stray keys (prop_key t))) ts = false /\
      JsObject.inherited k = true
  | _ => False
  end.
Proof.
  revert st; induction ts as [|t ts IH]; intros st; simpl; [reflexivity|].
  unfold connectTarget at 1.
  pose proof (read_stray cache keys (prop_key t) cache_keys) as Hr.
  destruct (JsObject.read (prop_key t) cache) as [ai| |] eqn:Er;
    rewrite Hr; simpl.
  - apply IH.
  - split; [reflexivity|]. unfold stray in Hr.
    apply andb_true_iff in Hr. tauto.
  - apply IH.
Qed.

Lemma connectQuestions_from_outcome qi todo st :
  match connectQuestions_from cache qi todo st with
  | Normal _ =>
      forallb (fun t => negb (stray keys (prop_key t)))
              (flat_map q_targetIds todo) = true
  | Builtin k =>
      forallb (fun t => negb (stray keys (prop_key t)))
              (flat_map q_targetIds todo) = false /\
      JsObject.inherited k = true
  | _ => False
  end.
Proof.
  revert qi st; induction todo as [|q todo IH]; intros qi st; simpl;
    [reflexivity|].
  rewrite forallb_app.
  pose proof (forEach_connectTarget_outcome qi (q_targetIds q) st) as Hq.
  destruct (forEach (connectTarget cache qi) (q_targetIds q) st)
    as [st1|e| |k]; simpl; try contradiction.
  - rewrite Hq. simpl. apply IH.
  - destruct Hq as [-> Hk]. simpl. auto.
Qed.

End WithAssumptionCache.

Lemma transformConnectQuestions_outcome (data : Data) :
  match transformConnectQuestions data with
  | Normal _ => questionLinkerReturns data = true
  | Builtin k =>
      questionLinkerReturns data = false /\ JsObject.inherited k = true
  | _ => False
  end.
Proof.
  unfold transformConnectQuestions, connectQuestions, questionLinkerReturns.
  cbv zeta. rewrite cacheBy_from_outcome.
  destruct (existsb (str_eqb (js "__proto__"))
                    (map a_nodeId (assumptions data))); simpl.
  - split; reflexivity.
  - pose proof (connectQuestions_from_outcome
                  (OwnKeys.cacheBy_from a_nodeId 0 (assumptions data) [])
                  (map a_nodeId (assumptions data))) as H.
    assert (Hk : forall k,
              JsObject.get k
                (OwnKeys.cacheBy_from a_nodeId 0 (assumptions data) [])
              = None
              <-> existsb (str_eqb k) (map a_nodeId (assumptions data))
                  = false).
    { intros k. rewrite cacheBy_from_keys. simpl. tauto. }
    specialize (H Hk).
    specialize (H 0 (questions data) (assumptions data, questions data)).
    destruct (connectQuestions_from _ 0 (questions data) _)
      as [st|e| |k]; simpl; exact H.
Qed.

Lemma connectContainers_from_outcome (cache : JsObject.t ref)
    (keys : list jsstring) ai todo F :
  (forall k, JsObject.get k cache = None
             <-> existsb (str_eqb k) keys = false) ->
  match connectContainers_from cache ai todo F with
  | Normal _ =>
      forallb (fun p => negb (stray keys (prop_key p)))
              (map a_parentId todo) = true
  | Builtin k =>
      forallb (fun p => negb (stray keys (prop_key p)))
              (map a_parentId todo) = false /\
      JsObject.inherited k = true
  | _ => False
  end.
Proof.
  intros Hk. revert ai F; induction todo as [|a todo IH]; intros ai F;
    simpl; [reflexivity|].
  pose proof (read_stray cache keys (prop_key (a_parentId a)) Hk) as Hr.
  destruct (JsObject.read (prop_key (a_parentId a)) cache) as [r| |];
    rewrite Hr; simpl.
  - specialize (IH (S ai) (modify F r (push_held ai))).
    destruct (connectContainers_from cache (S ai) todo _) as [r1|e| |k];
      simpl; exact IH.
  - split; [reflexivity|]. unfold stray in Hr.
    apply andb_true_iff in Hr. tauto.
  - specialize (IH (S ai) F).
    destruct (connectContainers_from cache (S ai) todo F) as [r1|e| |k];
      simpl; exact IH.
Qed.

Lemma transformConnectContainers_outcome (data : Data) :
  match transformConnectContainers data with
  | Normal _ => containerLinkerReturns data = true
  | Builtin k =>
      containerLinkerReturns data = false /\ JsObject.inherited k = true
  | _ => False
  end.
Proof.
  unfold transformConnectContainers, containerLinkerReturns.
  cbv zeta. rewrite containerCache_from_outcome.
  destruct (existsb (str_eqb (js "__proto__")) _); simpl.
  - split; reflexivity.
  - pose proof (connectContainers_from_outcome
                  (OwnKeys.containerCache_from (forest (containers data))
                     (all (containers data)) [])
                  (map (fun r => prop_key
                                   (nodeIdOf (forest (containers data)) r))
                       (all (containers data)))
                  0 (assumptions data) (forest (containers data))) as H.
    assert (Hk : forall k,
              JsObject.get k
                (OwnKeys.containerCache_from (forest (containers data))
                   (all (containers data)) [])
              = None
              <-> existsb (str_eqb k)
                    (map (fun r => prop_key
                                     (nodeIdOf (forest (containers data)) r))
                         (all (containers data)))
                  = false).
    { intros k. rewrite containerCache_from_keys. simpl. tauto. }
    specialize (H Hk).
    destruct (connectContainers_from _ 0 (assumptions data) _)
      as [st|e| |k]; simpl; exact H.
Qed.



End LinkerOutcome.

Section InheritedParent.

Import Dom Parsers Transformers Exporters Spec More.

Variable htmlDecode : jsstring -> jsstring.

Lemma forEach_ordinary ids nodes F :
  ownOnly F -> forallb ordinary nodes = true ->
  exists F', forEach (addContainer ids) nodes F = Normal F' /\ ownOnly F'.
Proof.
  intros HF Hall.
  pose proof (forEach_addContainer_outcome ids nodes F HF) as H.
  destruct (forEach (addContainer ids) nodes F) as [F'|e| |k].
  - exists F'. split; [reflexivity | apply H].
  - destruct H as [_ (l1 & n & l2 & -> & _ & Hi & Hp)].
    rewrite forallb_app in Hall. simpl in Hall. unfold ordinary in Hall.
    rewrite Hp in Hall. simpl in Hall.
    rewrite !andb_false_r in Hall. discriminate.
  - contradiction.
  - destruct H as (l1 & n & l2 & -> & _ & <- & Hi).
    rewrite forallb_app in Hall. simpl in Hall. unfold ordinary in Hall.
    rewrite Hi in Hall. simpl in Hall.
    rewrite !andb_false_r in Hall. discriminate.
Qed.



End InheritedParent.

Section InheritedParentExamples.

Import Dom Parsers Transformers Exporters Spec More.


End InheritedParentExamples.

(** ** Linker: the two steps together *)

Section LinkerSteps.

Import Dom Parsers Transformers More.









Lemma transformConnectQuestions_returns (data : Data) :
  questionLinkerReturns data = true ->
  transformConnectQuestions data
  = Normal (OwnKeys.transformConnectQuestions data).
Proof.
  intros H. pose proof (transformConnectQuestions_outcome data) as Ho.
  destruct (transformConnectQuestions data) as [d|e| |k] eqn:E;
    try contradiction.
  - rewrite (transformConnectQuestions_own _ _ E). reflexivity.
  - destruct Ho as [Ho _]. congruence.
Qed.

Lemma transformConnectContainers_returns (data : Data) :
  containerLinkerReturns data = true ->
  transformConnectContainers data
  = Normal (OwnKeys.transformConnectContainers data).
Proof.
  intros H. pose proof (transformConnectContainers_outcome data) as Ho.
  destruct (transformConnectContainers data) as [d|e| |k] eqn:E;
    try contradiction.
  - rewrite (transformConnectContainers_own _ _ E). reflexivity.
  - destruct Ho as [Ho _]. congruence.
Qed.


Lemma containerLinkerReturns_linked (data : Data) :
  containerLinkerReturns (OwnKeys.transformConnectQuestions data)
  = containerLinkerReturns data.
Proof.
  destruct (question_links data) as [HA _].
  assert (Hpar : map a_parentId
                   (assumptions (OwnKeys.transformConnectQuestions data))
                 = map a_parentId (assumptions data)).
  { apply nth_error_ext. intros i. rewrite !nth_error_map, HA.
    destruct (nth_error (assumptions data) i); reflexivity. }
  unfold containerLinkerReturns. rewrite Hpar. reflexivity.
Qed.


End LinkerSteps.

Section LinkerStepsExamples.

Import Dom Parsers Transformers More.


End LinkerStepsExamples.

(** ** Linker: the back references of the containers *)

Section HeldAssumptions.

Import Dom Parsers Transformers Exporters Spec More.

Variable htmlDecode : jsstring -> jsstring.





End HeldAssumptions.

Section HeldAssumptionsExamples.

Import Dom Parsers Transformers Exporters Spec More.


End HeldAssumptionsExamples.

(** ** The [parse] command on documents with ordinary names *)

Section OrdinaryDocuments.

Import Dom Parsers Transformers Exporters Spec More.

Variable htmlDecode : jsstring -> jsstring.

Lemma entities_in_document document prefix ps :
  findPrefixedNodes htmlDecode document prefix = Normal ps ->
  forall p, In p ps -> p_nodeId p = id (p_node p) /\ In (p_node p) document.
Proof.
  unfold findPrefixedNodes.
  destruct (fold_left _ _ _) as [[st' agg']|e| |k] eqn:E; simpl;
    try discriminate.
  intros H; injection H as <-.
  destruct (fold_findStep_entities _ _ _ _ _ _ _ E (le_n 1))
    as (new & -> & Hn & Hp).
  simpl. intros p Hin. split; [apply (Hp p Hin)|].
  assert (H : In (p_node p) (map p_node new)) by (apply in_map; exact Hin).
  rewrite Hn in H. apply filter_In in H as [H _].
  unfold querySelectorAll in H. apply filter_In in H. tauto.
Qed.

Lemma linked_targets qs0 edges qs' :
  linkEdges qs0 edges = Normal qs' ->
  forall q' t, In q' qs' -> In t (q_targetIds q') ->
    (exists q0, In q0 qs0 /\ In t (q_targetIds q0)) \/
    exists n, In n edges /\ (t = attr_source n \/ t = attr_target n).
Proof.
  intros H q' t Hq Ht. rewrite (linkEdges_own _ _ _ H) in Hq.
  apply In_nth_error in Hq as [i Hi]. unfold OwnKeys.linkEdges in Hi.
  rewrite fold_addEdge_nth in Hi.
  destruct (nth_error qs0 i) as [q0|] eqn:E0; [|discriminate].
  simpl in Hi. injection Hi as <-. cbn [appendTargets q_targetIds] in Ht.
  apply in_app_or in Ht as [Ht|Ht].
  - left. exists q0. split; [eapply nth_error_In; exact E0 | exact Ht].
  - right. apply in_flat_map in Ht as [n [Hn Ht]]. exists n.
    split; [exact Hn|]. unfold recordedBy in Ht.
    destruct (questionFor qs0 (attr_source n)) as [j|].
    + destruct (Nat.eqb j i); [|destruct Ht].
      destruct Ht as [<-|[]]. auto.
    + destruct (questionFor qs0 (attr_target n)) as [j|]; [|destruct Ht].
      destruct (Nat.eqb j i); [|destruct Ht].
      destruct Ht as [<-|[]]. auto.
Qed.

Lemma parseQuestions_returns document :
  parseQuestions htmlDecode document <> NoResult.
Proof.
  unfold parseQuestions.
  destruct (findPrefixedNodes_returns htmlDecode document (js "Q"))
    as [[ps ->]|[e ->]]; simpl; [apply linkEdges_returns | discriminate].
Qed.

Lemma not_stray keys k : JsObject.inherited k = false -> stray keys k = false.
Proof. intros H. unfold stray. rewrite H. reflexivity. Qed.

Lemma no_proto_key keys :
  (forall k, In k keys -> JsObject.inherited k = false) ->
  negb (existsb (str_eqb (js "__proto__")) keys) = true.
Proof.
  intros H. apply negb_true_iff. apply not_true_is_false. intros Hex.
  apply existsb_exists in Hex as [k [Hk E]]. apply str_eqb_eq in E.
  subst k. specialize (H _ Hk). vm_compute in H. discriminate.
Qed.

Lemma transformedData_ordinary (document : Document)
    (ps qs : list PrefixedNode) :
  forallb ordinaryNames document = true ->
  findPrefixedNodes htmlDecode document (js "A") = Normal ps ->
  findPrefixedNodes htmlDecode document (js "Q") = Normal qs ->
  exists data, Cli.transformedData htmlDecode document = Normal data.
Proof.
  intros Hall EA EQ.
  assert (Hdoc : forall n, In n document ->
            JsObject.inherited (id n) = false /\
            JsObject.inherited (prop_key (attr_parent n)) = false /\
            JsObject.inherited (prop_key (attr_source n)) = false /\
            JsObject.inherited (prop_key (attr_target n)) = false).
  { intros n Hn. pose proof (proj1 (forallb_forall _ _) Hall n Hn) as H.
    unfold ordinaryNames in H. rewrite !andb_true_iff in H.
    rewrite !negb_true_iff in H. tauto. }
  assert (Hcont : forall n, In n (containerNodes document) -> In n document).
  { intros n Hn. unfold containerNodes, querySelectorAll in Hn.
    apply filter_In in Hn as [Hn _]. apply filter_In in Hn. tauto. }
  (* the container extractor *)
  assert (HC : parseContainers document
               = Normal (OwnKeys.parseContainers document)).
  { assert (Hord : forallb ordinary (containerNodes document) = true).
    { apply forallb_forall. intros n Hn.
      destruct (Hdoc n (Hcont n Hn)) as (H1 & H2 & _).
      unfold ordinary. rewrite H1, H2. reflexivity. }
    assert (H0 : ownOnly emptyForest)
      by (intros k H; simpl in H; congruence).
    destruct (forEach_ordinary (map id (containerNodes document))
                (containerNodes document) emptyForest H0 Hord)
      as [F [HF _]].
    assert (E : parseContainers document = Normal (mkContainers F (values F)))
      by (unfold parseContainers; rewrite HF; reflexivity).
    rewrite <- (parseContainers_own _ _ E). exact E. }
  unfold Cli.transformedData.
  pose proof (entities_in_document _ _ _ EA) as HA.
  pose proof (entities_in_document _ _ _ EQ) as HQ.
  (* the edge loop *)
  assert (HL : exists q,
            linkEdges (map toQuestion qs) (querySelectorAll sel_edge document)
            = Normal q).
  { unfold linkEdges. destruct (keyBy (map toQuestion qs)) as [qbn|] eqn:Ek.
    - apply forEach_addEdge_returns. intros n Hn.
      unfold querySelectorAll in Hn. apply filter_In in Hn as [Hn _].
      destruct (Hdoc n Hn) as (_ & _ & H3 & H4). auto.
    - exfalso. revert Ek. apply keyBy_from_some. intros q Hq E.
      apply in_map_iff in Hq as [p [<- Hp]]. cbn [toQuestion q_nodeId] in E.
      destruct (HQ p Hp) as [Hid Hin]. rewrite Hid in E.
      destruct (Hdoc _ Hin) as (H1 & _). rewrite E in H1.
      vm_compute in H1. discriminate. }
  destruct HL as [q HL].
  unfold parseAssumptions, parseQuestions. rewrite EA, EQ. cbn [bind].
  rewrite HL, HC.
  set (d0 := mkData (OwnKeys.parseContainers document)
                    (map toAssumption ps) q).
  (* the question linker *)
  assert (HQL : questionLinkerReturns d0 = true).
  { unfold questionLinkerReturns. cbv zeta. apply andb_true_iff. split.
    - apply no_proto_key. intros k Hk. cbn [d0 assumptions] in Hk.
      rewrite map_map in Hk. apply in_map_iff in Hk as [p [<- Hp]].
      cbn [toAssumption a_nodeId]. destruct (HA p Hp) as [-> Hin].
      apply (Hdoc _ Hin).
    - apply forallb_forall. intros t Ht. apply negb_true_iff.
      apply not_stray. cbn [d0 questions] in Ht.
      apply in_flat_map in Ht as [q' [Hq' Ht]].
      destruct (linked_targets _ _ _ HL q' t Hq' Ht)
        as [[q0 [Hq0 Ht0]]|[n [Hn Hst]]].
      + apply in_map_iff in Hq0 as [p [<- _]]. destruct Ht0.
      + unfold querySelectorAll in Hn. apply filter_In in Hn as [Hn _].
        destruct (Hdoc n Hn) as (_ & _ & H3 & H4).
        destruct Hst as [-> | ->]; assumption. }
  rewrite (transformConnectQuestions_returns d0 HQL). cbn [bind].
  (* the container linker *)
  assert (HCL : containerLinkerReturns d0 = true).
  { unfold containerLinkerReturns. cbv zeta. apply andb_true_iff. split.
    - apply no_proto_key. intros k Hk. cbn [d0 containers] in Hk.
      apply in_map_iff in Hk as [r [<- Hr]].
      apply all_cached_nodes in Hr.
      assert (Hc : exists k, r = CacheRef k)
        by (destruct Hr as [n [_ [-> | ->]]]; eexists; reflexivity).
      destruct Hc as [k ->]. rewrite nodeIdOf_parseContainers.
      destruct (lastElement k (containerNodes document)) as [n|] eqn:El;
        [|reflexivity].
      destruct (lastElement_In _ _ _ El) as [Hin Hid].
      cbn [prop_key].
      replace k with (id n) by congruence.
      apply (Hdoc n (Hcont n Hin)).
    - apply forallb_forall. intros pid Hp. apply negb_true_iff.
      apply not_stray. cbn [d0 assumptions] in Hp.
      rewrite map_map in Hp. apply in_map_iff in Hp as [p [<- Hp]].
      cbn [toAssumption a_parentId].
      destruct (truthy (attr_parent (p_node p))); [|reflexivity].
      destruct (HA p Hp) as [_ Hin]. apply (Hdoc _ Hin). }
  rewrite transformConnectContainers_returns
    by (rewrite containerLinkerReturns_linked; exact HCL).
  eexists. reflexivity.
Qed.

(** X27. On a document none of whose id, parent, source and target
    attributes names a member of [Object.prototype], the parsers and the
    linkers of the [parse] command meet no such member. They return the
    linked data, unless the assumption parser or the question parser
    throws (on a duplicate id); then the command ends in a [TypeError]. *)
Theorem parse_links_ordinary_documents (document : Document) :
  forallb ordinaryNames document = true ->
  (exists data, Cli.transformedData htmlDecode document = Normal data) \/
  (Cli.transformedData htmlDecode document = Abrupt TypeError /\
   exists prefix e,
     (prefix = js "A" \/ prefix = js "Q") /\
     findPrefixedNodes htmlDecode document prefix = Abrupt e).
Proof.
  intros Hall.
  pose proof (parseQuestions_returns document) as HQR.
  destruct (findPrefixedNodes_returns htmlDecode document (js "A"))
    as [[ps EA]|[e EA]].
  2:{ right. unfold Cli.transformedData, parseAssumptions.
      rewrite EA. cbn [bind]. split.
      - destruct (parseQuestions htmlDecode document);
          try reflexivity; congruence.
      - exists (js "A"), e. auto. }
  destruct (findPrefixedNodes_returns htmlDecode document (js "Q"))
    as [[qs EQ]|[e EQ]].
  2:{ right. unfold Cli.transformedData, parseAssumptions, parseQuestions.
      rewrite EA, EQ. cbn [bind]. split; [reflexivity|].
      exists (js "Q"), e. auto. }
  left. exact (transformedData_ordinary document ps qs Hall EA EQ).
Qed.


End OrdinaryDocuments.

Section OrdinaryDocumentsExamples.

Import Dom Parsers Transformers Exporters Spec More.

Lemma parse_links_ordinary_documents_witness :
  (exists data, Cli.transformedData Docs.plainText Docs.widget = Normal data)
  \/
  (Cli.transformedData Docs.plainText Docs.widget = Abrupt TypeError /\
   exists prefix e,
     (prefix = js "A" \/ prefix = js "Q") /\
     findPrefixedNodes Docs.plainText Docs.widget prefix = Abrupt e).
Proof.
  apply (parse_links_ordinary_documents Docs.plainText Docs.widget).
  vm_compute. reflexivity.
Defined.


End OrdinaryDocumentsExamples.
